(** * githubscanner: the scanning pipeline of [scanner/scanner.go]

    A shallow embedding of the [scanner] package: the page fetchers
    ([GetRepositoriesPerPage], [GetReleasesPerPage]), the pagination loops
    ([GetAllRepositories], [GetAllReleases]), the stable sort of the result
    and the worker pool of [ScanRepositories], the latter as a scheduler-driven
    transition system over the channels the Go code creates; and of [main],
    the process around one scan.

    Conventions of the embedding.
    - A Go [int] is a [Z] in the 64-bit range; [page++] wraps with [int_wrap].
    - A Go [error] is the text its [Error()] method gives: every error of the
      package is made by [errors.New] or [fmt.Errorf] with [%s]/[%v] only.
    - A result pair [(value, err)] is a pair of a list and an [option error]
      ([None] is the nil error); a nil slice and an empty slice are both [[]].
    - A [*Repository] or [*Release] is the record it points to: records are
      never written after they are decoded, and decoded slices are taken to
      hold no nil pointer.
    - [net/http], [io] and [encoding/json] are not code of the package; they
      are the fields of the class [Net], and every theorem holds for every
      instance of it. The forge answers a request by its URL alone. Each
      call of [http.Get] is recorded, with its URL, in a request log.
    - The field [Repository] of [ResultItem] is [Repo] and the field [Name] of
      [Release] is [RName]: the other names are taken by the record
      [Repository] and its field [Name]. *)

From Stdlib Require Import ZArith String Ascii DecimalString List Sorted Permutation Lia.
From stdpp Require Import base list sorting.
Import ListNotations.
Local Open Scope string_scope.
Local Open Scope Z_scope.

(** ** Data model (scanner.go, lines 13-36) *)

Definition error := string.

Definition GitHuhApi : string := "https://api.github.com".
Definition perPage : Z := 100.
Definition maxWorkersCount : Z := 100.

Record Repository := mkRepository { FullName : string; Name : string }.

Record Release := mkRelease { RName : string }.

Record ResultItem := mkResultItem { Repo : Repository; Releases : list Release }.

Record Scanner := mkScanner { BaseUrl : string; PerPage : Z }.

Definition GetDefaultScanner : Scanner :=
  {| BaseUrl := GitHuhApi; PerPage := perPage |}.

(** ** Go integers and formatting *)

Definition max_int : Z := 2 ^ 63 - 1.

Definition int_wrap (z : Z) : Z := (z + 2 ^ 63) mod 2 ^ 64 - 2 ^ 63.

(** The verb [%d] of [fmt.Sprintf]. *)
Definition itoa (z : Z) : string := NilZero.string_of_int (Z.to_int z).

Definition errors_New (msg : string) : error := msg.

(** ** The outside world: net/http, io, encoding/json *)

Record Response (body : Type) := mkResponse {
  StatusCode : Z;
  Status : string;
  RBody : body
}.
Arguments mkResponse {body} _ _ _.
Arguments StatusCode {body} _.
Arguments Status {body} _.
Arguments RBody {body} _.

Class Net := {
  body : Type;
  (** [http.Get(url)]: a response, or a transport error. *)
  http_Get : string -> Response body + error;
  (** [io.ReadAll(reader)]. *)
  io_ReadAll : body -> string * option error;
  (** [json.NewDecoder(body).Decode(&repositories)]. *)
  json_Decode_Repositories : body -> list Repository * option error;
  (** [json.NewDecoder(body).Decode(&releases)]. *)
  json_Decode_Releases : body -> list Release * option error;
  (** [json.Unmarshal(bytes, &message)] at [struct{ Message string }]:
      the [Message] field after the call, and the error. *)
  json_Unmarshal_Message : string -> string * option error
}.

Definition StatusOK : Z := 200.
Definition StatusNotFound : Z := 404.

(** A value together with the URLs requested with [http.Get], in order. *)
Definition Logged (A : Type) : Type := (A * list string)%type.

Section Scanner.
Context {net : Net}.

(** ** Helpers (scanner.go, lines 209-255) *)

Definition getPerPage (s : Scanner) : Z :=
  if PerPage s <=? 0 then perPage else PerPage s.

Definition checkPage (page : Z) : option error :=
  if page <? 1 then Some (errors_New "page could not be less than 1") else None.

Definition checkUser (user : string) : option error :=
  if String.eqb user "" then Some (errors_New "user name could not be empty") else None.

Definition checkRepository (repository : string) : option error :=
  if String.eqb repository "" then Some (errors_New "repository name could not be empty")
  else None.

Definition getApiErrorMessage (reader : body) (defaultMessage : string) : string :=
  match io_ReadAll reader with
  | (_, Some _) => defaultMessage
  | (mBytes, None) =>
      match json_Unmarshal_Message mBytes with
      | (_, Some _) => defaultMessage
      | (message, None) => message
      end
  end.

(** ** One page (scanner.go, lines 128-154 and 174-201) *)

Definition releases_url (s : Scanner) (user repository : string) (page : Z) : string :=
  BaseUrl s ++ "/repos/" ++ user ++ "/" ++ repository ++ "/releases?per_page="
    ++ itoa (getPerPage s) ++ "&page=" ++ itoa page.

Definition repositories_url (s : Scanner) (user : string) (page : Z) : string :=
  BaseUrl s ++ "/users/" ++ user ++ "/repos?per_page="
    ++ itoa (getPerPage s) ++ "&page=" ++ itoa page.

Definition GetReleasesPerPage (s : Scanner) (user repository : string) (page : Z)
  : Logged (list Release * option error) :=
  match checkPage page with
  | Some err => (([], Some err), [])
  | None =>
  match checkUser user with
  | Some err => (([], Some err), [])
  | None =>
  match checkRepository repository with
  | Some err => (([], Some err), [])
  | None =>
  let url := releases_url s user repository page in
  match http_Get url with
  | inr err => (([], Some err), [url])
  | inl response =>
      if negb (StatusCode response =? StatusOK) then
        (([], Some ("could not get releases for the repository " ++ repository ++ ": "
                      ++ getApiErrorMessage (RBody response) (Status response))), [url])
      else
        match json_Decode_Releases (RBody response) with
        | (_, Some err) => (([], Some err), [url])
        | (releases, None) => ((releases, None), [url])
        end
  end end end end.

Definition GetRepositoriesPerPage (s : Scanner) (user : string) (page : Z)
  : Logged (list Repository * option error) :=
  match checkPage page with
  | Some err => (([], Some err), [])
  | None =>
  match checkUser user with
  | Some err => (([], Some err), [])
  | None =>
  let url := repositories_url s user page in
  match http_Get url with
  | inr err => (([], Some err), [url])
  | inl response =>
      if StatusCode response =? StatusNotFound then
        (([], Some ("account " ++ user ++ " does not exist")), [url])
      else if negb (StatusCode response =? StatusOK) then
        (([], Some ("could not get repositories for the account " ++ user ++ ": "
                      ++ getApiErrorMessage (RBody response) (Status response))), [url])
      else
        match json_Decode_Repositories (RBody response) with
        | (_, Some err) => (([], Some err), [url])
        | (repositories, None) => ((repositories, None), [url])
        end
  end end end.

(** ** Pagination (scanner.go, lines 110-126 and 156-172)

    The [for] loops have no bound of their own: they run as long as the forge
    serves full pages. [fuel] bounds the number of iterations; [None] is a
    loop that has not finished within it. *)

Fixpoint GetAllReleases_loop (fuel : nat) (s : Scanner) (user repository : string)
    (releases : list Release) (page : Z) (log : list string)
  : option (Logged (list Release * option error)) :=
  match fuel with
  | O => None
  | S fuel' =>
      let '((releasesChunk, err), reqs) := GetReleasesPerPage s user repository page in
      match err with
      | Some e => Some (([], Some e), (log ++ reqs)%list)
      | None =>
          let releases := (releases ++ releasesChunk)%list in
          if Z.of_nat (length releasesChunk) <? getPerPage s then
            Some ((releases, None), (log ++ reqs)%list)
          else
            GetAllReleases_loop fuel' s user repository releases
              (int_wrap (page + 1)) (log ++ reqs)%list
      end
  end.

Definition GetAllReleases (fuel : nat) (s : Scanner) (user repository : string)
  : option (Logged (list Release * option error)) :=
  GetAllReleases_loop fuel s user repository [] 1 [].

Fixpoint GetAllRepositories_loop (fuel : nat) (s : Scanner) (user : string)
    (repositories : list Repository) (page : Z) (log : list string)
  : option (Logged (list Repository * option error)) :=
  match fuel with
  | O => None
  | S fuel' =>
      let '((repositoriesChunk, err), reqs) := GetRepositoriesPerPage s user page in
      match err with
      | Some e => Some (([], Some e), (log ++ reqs)%list)
      | None =>
          let repositories := (repositories ++ repositoriesChunk)%list in
          if Z.of_nat (length repositoriesChunk) <? getPerPage s then
            Some ((repositories, None), (log ++ reqs)%list)
          else
            GetAllRepositories_loop fuel' s user repositories
              (int_wrap (page + 1)) (log ++ reqs)%list
      end
  end.

Definition GetAllRepositories (fuel : nat) (s : Scanner) (user : string)
  : option (Logged (list Repository * option error)) :=
  GetAllRepositories_loop fuel s user [] 1 [].

End Scanner.

(** ** Sorting the result (scanner.go, lines 203-207)

    [sort.SliceStable] is library code; it is modelled by a stable insertion
    sort driven by the [less] function the package passes to it. *)

Fixpoint insert_stable {A : Type} (less : A -> A -> bool) (x : A) (l : list A) : list A :=
  match l with
  | [] => [x]
  | y :: l' => if less y x then y :: insert_stable less x l' else x :: l
  end.

Definition sort_SliceStable {A : Type} (less : A -> A -> bool) (l : list A) : list A :=
  foldr (insert_stable less) [] l.

Definition less_FullName (a b : ResultItem) : bool :=
  String.ltb (FullName (Repo a)) (FullName (Repo b)).

Definition sortResultItems (items : list ResultItem) : list ResultItem :=
  sort_SliceStable less_FullName items.

(** ** The worker pool of ScanRepositories (scanner.go, lines 45-108)

    The goroutines of one call are a transition system. A state holds the
    three channels, the cancellation of [ctx], the program point of the
    coordinator (the goroutine that runs [ScanRepositories]) and of every
    worker, and two ghost logs: the HTTP requests issued and the events that
    the properties speak about. A scheduler picks who moves next ([Choice]).

    A call of [GetAllReleases] is one step of its worker: the requests of one
    fetch share nothing with the other goroutines. A send on a closed channel
    panics; the model parks the worker at [WPanic]. *)

Inductive Worker :=
| WRange                               (* [for repository := range jobs] *)
| WSelect (repository : Repository)    (* the [select] on [ctx.Done()] *)
| WFetch (repository : Repository)     (* the call of [GetAllReleases] *)
| WSendErr (err : error)               (* [errors <- err] *)
| WCancel                              (* [cancel()] after the send *)
| WSendResult (item : ResultItem)      (* [results <- item] *)
| WDone                                (* returned *)
| WPanic.                              (* sent on a closed channel *)

Inductive Coordinator :=
| CSpawn (i : Z)                                        (* [go worker(...)] loop *)
| CEnqueue (rest : list Repository)                     (* [jobs <- repository] loop, then [close(jobs)] *)
| CCollect (i : Z) (items : list ResultItem)            (* the collecting loop *)
| CDeferCancel (items : list ResultItem) (err : option error)        (* deferred [cancel()] *)
| CDeferCloseResults (items : list ResultItem) (err : option error)  (* deferred [close(results)] *)
| CDeferCloseErrors (items : list ResultItem) (err : option error)   (* deferred [close(errors)] *)
| CReturned (items : list ResultItem) (err : option error).

Inductive Event :=
| ReleaseFetch (w : nat) (repository : Repository) (outcome : list Release * option error)
| ResultDrained (item : ResultItem)     (* the coordinator received from [results] *)
| ErrorDrained (w : nat) (err : error). (* the coordinator received from [errors] *)

Record State := mkState {
  repositories : list Repository;   (* the local [repositories] *)
  jobs : list Repository;           (* buffer of [jobs], capacity [jobsCount] *)
  jobsClosed : bool;
  results : list ResultItem;        (* buffer of [results], capacity [jobsCount] *)
  resultsClosed : bool;
  errorsClosed : bool;              (* [errors] is unbuffered *)
  cancelled : bool;                 (* [ctx.Done()] is closed *)
  coord : Coordinator;
  workers : list Worker;
  requests : list string;           (* ghost: URLs requested so far *)
  trace : list Event                (* ghost: events so far *)
}.

Inductive Choice :=
| Coordinate                 (* the coordinator runs its next statement; in the
                                collecting [select], the [results] case *)
| Deliver (w : nat)          (* the [errors] case of that [select], worker [w] sending *)
| Work (w : nat) (fuel : nat).  (* worker [w] runs its next statement; [fuel]
                                   bounds the pagination of a fetch it starts *)

Definition set_coord (c : Coordinator) (st : State) : State :=
  mkState (repositories st) (jobs st) (jobsClosed st) (results st) (resultsClosed st)
    (errorsClosed st) (cancelled st) c (workers st) (requests st) (trace st).

Definition set_worker (w : nat) (p : Worker) (st : State) : State :=
  mkState (repositories st) (jobs st) (jobsClosed st) (results st) (resultsClosed st)
    (errorsClosed st) (cancelled st) (coord st) (<[w := p]> (workers st))
    (requests st) (trace st).

Definition jobsCount (st : State) : Z := Z.of_nat (length (repositories st)).

Definition workersCount (st : State) : Z :=
  if jobsCount st <? maxWorkersCount then jobsCount st else maxWorkersCount.

Definition AccountScanFailed (user : string) (cause : error) : error :=
  "could not scan repository for the account " ++ user ++ ": " ++ cause.

Section Pool.
Context {net : Net}.
Variable s : Scanner.
Variable user : string.

Definition coordinate (st : State) : option State :=
  match coord st with
  | CSpawn i =>
      if i <? workersCount st then
        Some (mkState (repositories st) (jobs st) (jobsClosed st) (results st)
                (resultsClosed st) (errorsClosed st) (cancelled st) (CSpawn (i + 1))
                (workers st ++ [WRange]) (requests st) (trace st))
      else Some (set_coord (CEnqueue (repositories st)) st)
  | CEnqueue (repository :: rest) =>
      if Z.of_nat (length (jobs st)) <? jobsCount st then
        Some (mkState (repositories st) (jobs st ++ [repository]) (jobsClosed st)
                (results st) (resultsClosed st) (errorsClosed st) (cancelled st)
                (CEnqueue rest) (workers st) (requests st) (trace st))
      else None
  | CEnqueue [] =>
      Some (mkState (repositories st) (jobs st) true (results st) (resultsClosed st)
              (errorsClosed st) (cancelled st) (CCollect 0 []) (workers st)
              (requests st) (trace st))
  | CCollect i items =>
      if i <? jobsCount st then
        match results st with
        | item :: rest =>
            Some (mkState (repositories st) (jobs st) (jobsClosed st) rest
                    (resultsClosed st) (errorsClosed st) (cancelled st)
                    (CCollect (i + 1) (items ++ [item])) (workers st)
                    (requests st) (trace st ++ [ResultDrained item]))
        | [] => None
        end
      else Some (set_coord (CDeferCancel (sortResultItems items) None) st)
  | CDeferCancel items err =>
      Some (mkState (repositories st) (jobs st) (jobsClosed st) (results st)
              (resultsClosed st) (errorsClosed st) true (CDeferCloseResults items err)
              (workers st) (requests st) (trace st))
  | CDeferCloseResults items err =>
      Some (mkState (repositories st) (jobs st) (jobsClosed st) (results st)
              true (errorsClosed st) (cancelled st) (CDeferCloseErrors items err)
              (workers st) (requests st) (trace st))
  | CDeferCloseErrors items err =>
      Some (mkState (repositories st) (jobs st) (jobsClosed st) (results st)
              (resultsClosed st) true (cancelled st) (CReturned items err)
              (workers st) (requests st) (trace st))
  | CReturned _ _ => None
  end.

Definition deliver (w : nat) (st : State) : option State :=
  match coord st, workers st !! w with
  | CCollect i items, Some (WSendErr err) =>
      if i <? jobsCount st then
        Some (mkState (repositories st) (jobs st) (jobsClosed st) (results st)
                (resultsClosed st) (errorsClosed st) (cancelled st)
                (CDeferCancel items (Some (AccountScanFailed user err)))
                (<[w := WCancel]> (workers st)) (requests st)
                (trace st ++ [ErrorDrained w err]))
      else None
  | _, _ => None
  end.

Definition work (w : nat) (fuel : nat) (st : State) : option State :=
  match workers st !! w with
  | Some WRange =>
      match jobs st with
      | repository :: rest =>
          Some (mkState (repositories st) rest (jobsClosed st) (results st)
                  (resultsClosed st) (errorsClosed st) (cancelled st) (coord st)
                  (<[w := WSelect repository]> (workers st)) (requests st) (trace st))
      | [] => if jobsClosed st then Some (set_worker w WDone st) else None
      end
  | Some (WSelect repository) =>
      if cancelled st then Some (set_worker w WDone st)
      else Some (set_worker w (WFetch repository) st)
  | Some (WFetch repository) =>
      match GetAllReleases fuel s user (Name repository) with
      | None => None
      | Some ((releases, err), reqs) =>
          Some (mkState (repositories st) (jobs st) (jobsClosed st) (results st)
                  (resultsClosed st) (errorsClosed st) (cancelled st) (coord st)
                  (<[w := match err with
                          | Some e => WSendErr e
                          | None => WSendResult (mkResultItem repository releases)
                          end]> (workers st))
                  (requests st ++ reqs)
                  (trace st ++ [ReleaseFetch w repository (releases, err)]))
      end
  | Some (WSendErr _) =>
      if errorsClosed st then Some (set_worker w WPanic st) else None
  | Some WCancel =>
      Some (mkState (repositories st) (jobs st) (jobsClosed st) (results st)
              (resultsClosed st) (errorsClosed st) true (coord st)
              (<[w := WDone]> (workers st)) (requests st) (trace st))
  | Some (WSendResult item) =>
      if resultsClosed st then Some (set_worker w WPanic st)
      else if Z.of_nat (length (results st)) <? jobsCount st then
        Some (mkState (repositories st) (jobs st) (jobsClosed st) (results st ++ [item])
                (resultsClosed st) (errorsClosed st) (cancelled st) (coord st)
                (<[w := WRange]> (workers st)) (requests st) (trace st))
      else None
  | Some WDone | Some WPanic | None => None
  end.

Definition step (c : Choice) (st : State) : option State :=
  match c with
  | Coordinate => coordinate st
  | Deliver w => deliver w st
  | Work w fuel => work w fuel st
  end.

Fixpoint run (sched : list Choice) (st : State) : option State :=
  match sched with
  | [] => Some st
  | c :: sched' =>
      match step c st with
      | Some st' => run sched' st'
      | None => None
      end
  end.

(** The state after line 60: the listing has succeeded, the channels exist,
    no goroutine has been started. *)
Definition pool_init (repos : list Repository) (reqs : list string) : State :=
  mkState repos [] false [] false false false (CSpawn 0) [] reqs [].

(** The state after line 48: the listing has failed and the function has
    returned, before any channel or goroutine exists. *)
Definition listing_failed (err : error) (reqs : list string) : State :=
  mkState [] [] false [] false false false (CReturned [] (Some err)) [] reqs [].

Definition ScanRepositories_entry (fuel : nat) : option State :=
  match GetAllRepositories fuel s user with
  | None => None
  | Some ((_, Some err), reqs) => Some (listing_failed err reqs)
  | Some ((repos, None), reqs) => Some (pool_init repos reqs)
  end.

(** What the caller receives, once the function has returned. *)
Definition returned (st : State) : option (list ResultItem * option error) :=
  match coord st with
  | CReturned items err => Some (items, err)
  | _ => None
  end.

(** [ScanRepositories(user)] under a schedule. *)
Definition ScanRepositories (fuel : nat) (sched : list Choice)
  : option (list ResultItem * option error) :=
  match ScanRepositories_entry fuel with
  | None => None
  | Some st0 =>
      match run sched st0 with
      | None => None
      | Some st => returned st
      end
  end.

End Pool.

(** A worker that has sent on a closed channel has panicked; in Go a panic
    that no goroutine recovers ends the whole process. The transition system
    above keeps such a state, with the worker at [WPanic]; [panicked]
    recognises it. *)
Definition is_panic (p : Worker) : bool :=
  match p with
  | WPanic => true
  | _ => false
  end.

Definition panicked (st : State) : bool := existsb is_panic (workers st).

(** ** The entry point (main.go)

    The process of one run of the program: the pool of its scan, the program
    point of [main], and standard output, the list of the texts printed with
    [fmt.Println], one entry for each call. [args] is [os.Args]: the name of
    the program, then its arguments.

    The main goroutine is the coordinator as long as it is inside
    [ScanRepositories]; the workers run on when it has returned. The process
    ends with status 1 when [main] calls [os.Exit(1)], with status 0 when
    [main] returns, and with status 2 when a goroutine panics, whatever
    [main] is doing then. *)

Definition render_item (item : ResultItem) : list string :=
  (FullName (Repo item) :: map RName (Releases item) ++ [""])%list.

Inductive Main :=
| MScanning                                   (* line 15, inside [ScanRepositories] *)
| MPrinting (lines : list string) (code : Z)  (* the [fmt.Println] calls still to make,
                                                 then [os.Exit(1)] or the return of [main] *)
| MExited (code : Z).                         (* the process has ended *)

Record Process := mkProcess {
  pool : State;
  at_main : Main;
  stdout : list string
}.

(** Before any call of [ScanRepositories]: no channel, no goroutine but main. *)
Definition no_pool : State :=
  mkState [] [] false [] false false false (CReturned [] None) [] [] [].

(** Where [main] goes on when [ScanRepositories] has returned (lines 16-27). *)
Definition after_scan (st : State) : Main :=
  match returned st with
  | None => MScanning
  | Some (_, Some err) => MPrinting [err] 1
  | Some (items, None) => MPrinting (flat_map render_item items) 0
  end.

(** The process after a step that leaves the pool in [st]: a panic ends it. *)
Definition settle (st : State) (next : Main) (out : list string) : Process :=
  if panicked st then mkProcess st (MExited 2) out else mkProcess st next out.

(** The exit of a process that has ended: standard output and the status. *)
Definition exit_of (p : Process) : option (list string * Z) :=
  match at_main p with
  | MExited code => Some (stdout p, code)
  | _ => None
  end.

Section Main.
Context {net : Net}.

Definition main_step (account : string) (c : Choice) (p : Process) : option Process :=
  match at_main p with
  | MExited _ => None
  | MScanning =>
      match step GetDefaultScanner account c (pool p) with
      | None => None
      | Some st => Some (settle st (after_scan st) (stdout p))
      end
  | MPrinting lines code =>
      match c with
      | Coordinate =>
          match lines with
          | line :: rest =>
              Some (mkProcess (pool p) (MPrinting rest code) (stdout p ++ [line]))
          | [] => Some (mkProcess (pool p) (MExited code) (stdout p))
          end
      | Deliver _ => None
      | Work w fuel =>
          match work GetDefaultScanner account w fuel (pool p) with
          | None => None
          | Some st => Some (settle st (MPrinting lines code) (stdout p))
          end
      end
  end.

Fixpoint main_run (account : string) (sched : list Choice) (p : Process)
  : option Process :=
  match sched with
  | [] => Some p
  | c :: sched' =>
      match main_step account c p with
      | Some p' => main_run account sched' p'
      | None => None
      end
  end.

(** [main] under a schedule: the output and the exit status of the process,
    when the schedule runs it to its end. *)
Definition main (args : list string) (fuel : nat) (sched : list Choice)
  : option (list string * Z) :=
  match args with
  | [] | [_] =>
      match main_run "" sched
              (mkProcess no_pool (MPrinting ["account is not specified"] 1) []) with
      | Some p => exit_of p
      | None => None
      end
  | _ :: account :: _ =>
      match ScanRepositories_entry GetDefaultScanner account fuel with
      | None => None
      | Some st0 =>
          match main_run account sched (mkProcess st0 (after_scan st0) []) with
          | Some p => exit_of p
          | None => None
          end
      end
  end.

End Main.

(** ** A stub forge

    A concrete instance of [Net] in the manner of the [httptest] servers of
    scanner_test.go: a table from URLs to canned responses. It is the
    concrete input of the examples below. *)

Module Stub.

Inductive StubBody :=
| BodyRepositories (l : list Repository)
| BodyReleases (l : list Release)
| BodyMessage (message : string)
| BodyGarbage.

Definition ok_repositories (l : list Repository) : Response StubBody :=
  mkResponse 200 "200 OK" (BodyRepositories l).

Definition ok_releases (l : list Release) : Response StubBody :=
  mkResponse 200 "200 OK" (BodyReleases l).

Definition repo (user name : string) : Repository :=
  mkRepository (user ++ "/" ++ name) name.

Definition routes : list (string * Response StubBody) :=
  [ ("http://forge/users/test/repos?per_page=3&page=1",
      ok_repositories [repo "test" "repo1"; repo "test" "repo2"; repo "test" "repo3"]);
    ("http://forge/users/test/repos?per_page=3&page=2",
      ok_repositories [repo "test" "repo4"; repo "test" "repo5"]);
    ("http://forge/repos/test/test/releases?per_page=3&page=1",
      ok_releases [mkRelease "v5"; mkRelease "v4"; mkRelease "v3"]);
    ("http://forge/repos/test/test/releases?per_page=3&page=2",
      ok_releases [mkRelease "v2"; mkRelease "v1"]);
    ("http://forge/users/acme/repos?per_page=100&page=1",
      ok_repositories [repo "acme" "b"; repo "acme" "a"]);
    ("http://forge/repos/acme/a/releases?per_page=100&page=1",
      ok_releases [mkRelease "v1"]);
    ("http://forge/repos/acme/b/releases?per_page=100&page=1",
      ok_releases []);
    ("http://forge/users/evil/repos?per_page=100&page=1",
      ok_repositories [repo "evil" "a"; repo "evil" "b"; repo "evil" "c"]);
    ("http://forge/repos/evil/a/releases?per_page=100&page=1",
      ok_releases [mkRelease "v1"]);
    ("http://forge/repos/evil/b/releases?per_page=100&page=1",
      mkResponse 403 "403 Forbidden" (BodyMessage "forbidden"));
    ("http://forge/repos/evil/c/releases?per_page=100&page=1",
      mkResponse 500 "500 Internal Server Error" BodyGarbage);
    ("http://forge/users/ghost/repos?per_page=100&page=1",
      mkResponse 404 "404 Not Found" (BodyMessage "Not Found"));
    ("http://forge/users/down/repos?per_page=100&page=1",
      mkResponse 503 "503 Service Unavailable" BodyGarbage);
    ("http://forge/repos/ghost/gone/releases?per_page=100&page=1",
      mkResponse 404 "404 Not Found" (BodyMessage "Not Found")) ].

Fixpoint lookup_route (url : string) (table : list (string * Response StubBody))
  : Response StubBody + error :=
  match table with
  | [] => inr "dial tcp: connection refused"
  | (u, r) :: table' => if String.eqb u url then inl r else lookup_route url table'
  end.

Definition read_all (b : StubBody) : string * option error :=
  match b with
  | BodyMessage m => (m, None)
  | BodyGarbage => ("<html>", None)
  | _ => ("[...]", None)
  end.

Definition unmarshal_message (bytes : string) : string * option error :=
  if String.eqb bytes "<html>" then ("", Some "invalid character '<' looking for beginning of value")
  else if String.eqb bytes "[...]" then ("", Some "json: cannot unmarshal array into Go value")
  else (bytes, None).

Definition decode_repositories (b : StubBody) : list Repository * option error :=
  match b with
  | BodyRepositories l => (l, None)
  | _ => ([], Some "json: cannot unmarshal into Go value of type []*scanner.Repository")
  end.

Definition decode_releases (b : StubBody) : list Release * option error :=
  match b with
  | BodyReleases l => (l, None)
  | _ => ([], Some "json: cannot unmarshal into Go value of type []*scanner.Release")
  end.

Definition forge : Net :=
  {| body := StubBody;
     http_Get := fun url => lookup_route url routes;
     io_ReadAll := read_all;
     json_Decode_Repositories := decode_repositories;
     json_Decode_Releases := decode_releases;
     json_Unmarshal_Message := unmarshal_message |}.

Definition paged : Scanner := {| BaseUrl := "http://forge"; PerPage := 3 |}.
Definition plain : Scanner := {| BaseUrl := "http://forge"; PerPage := 0 |}.

End Stub.

(** ** A forge with terse error bodies

    Error responses whose bodies are JSON texts without a [message] member.
    A body is its bytes. [unmarshal_message] gives, for each text the forge
    serves, what [json.Unmarshal] does with it at [struct{ Message string }]:
    an object without the member and the text [null] store nothing and are
    no error, so that [Message] keeps its zero value; an object with the
    member stores its string; a text that is not JSON is an error. *)

Module Terse.

Definition quote : string := String "034"%char EmptyString.

(** The JSON text of an object whose only member is [message]. *)
Definition message_object (text : string) : string :=
  "{" ++ quote ++ "message" ++ quote ++ ":" ++ quote ++ text ++ quote ++ "}".

Definition routes : list (string * Response string) :=
  [ ("http://forge/users/terse/repos?per_page=100&page=1",
      mkResponse 500 "500 Internal Server Error" "{}");
    ("http://forge/repos/terse/r/releases?per_page=100&page=1",
      mkResponse 502 "502 Bad Gateway" "null");
    ("http://forge/users/limited/repos?per_page=100&page=1",
      mkResponse 429 "429 Too Many Requests" (message_object "slow down"));
    ("http://forge/users/broken/repos?per_page=100&page=1",
      mkResponse 503 "503 Service Unavailable" "<html>") ].

Fixpoint lookup_route (url : string) (table : list (string * Response string))
  : Response string + error :=
  match table with
  | [] => inr "dial tcp: connection refused"
  | (u, r) :: table' => if String.eqb u url then inl r else lookup_route url table'
  end.

Definition unmarshal_message (bytes : string) : string * option error :=
  if String.eqb bytes "{}" then ("", None)
  else if String.eqb bytes "null" then ("", None)
  else if String.eqb bytes (message_object "slow down") then ("slow down", None)
  else ("", Some "invalid character '<' looking for beginning of value").

Definition forge : Net :=
  {| body := string;
     http_Get := fun url => lookup_route url routes;
     io_ReadAll := fun b => (b, None);
     json_Decode_Repositories := fun _ =>
       ([], Some "json: cannot unmarshal object into Go value of type []*scanner.Repository");
     json_Decode_Releases := fun _ =>
       ([], Some "json: cannot unmarshal object into Go value of type []*scanner.Release");
     json_Unmarshal_Message := unmarshal_message |}.

End Terse.

(** * Vocabulary of the properties *)

Section PageVocabulary.
Context {net : Net}.

(** The text a non-200 response contributes to the error: the [message] field
    when the body can be read and unmarshals, the status line otherwise. *)
Definition forge_message (response : Response body) : string :=
  match io_ReadAll (RBody response) with
  | (bytes, None) =>
      match json_Unmarshal_Message bytes with
      | (message, None) => message
      | (_, Some _) => Status response
      end
  | (_, Some _) => Status response
  end.

(** The scanner with its page size replaced by the size in effect. *)
Definition effective (s : Scanner) : Scanner :=
  {| BaseUrl := BaseUrl s; PerPage := if 0 <? PerPage s then PerPage s else 100 |}.

(** The forge answers the request for [page] with status 200 and a body that
    decodes to [chunk]. *)
Definition serves_repositories (s : Scanner) (user : string) (page : Z)
    (chunk : list Repository) : Prop :=
  exists response,
    http_Get (repositories_url s user page) = inl response
    /\ StatusCode response = 200
    /\ json_Decode_Repositories (RBody response) = (chunk, None).

Definition serves_releases (s : Scanner) (user repository : string) (page : Z)
    (chunk : list Release) : Prop :=
  exists response,
    http_Get (releases_url s user repository page) = inl response
    /\ StatusCode response = 200
    /\ json_Decode_Releases (RBody response) = (chunk, None).

End PageVocabulary.

(** [pages] are k >= 1 chunks, the first k-1 of size [P], the last shorter. *)
Definition full_then_short {A : Type} (P : Z) (pages : list (list A)) : Prop :=
  exists full last,
    pages = (full ++ [last])%list
    /\ Forall (fun chunk => Z.of_nat (length chunk) = P) full
    /\ Z.of_nat (length last) < P.

(** The page numbers [first], [first + 1], ... ([n] of them). *)
Fixpoint page_numbers (first : Z) (n : nat) : list Z :=
  match n with
  | O => []
  | S n' => first :: page_numbers (first + 1) n'
  end.

(** [a] may stand before [b]: [b] is not less than [a]. *)
Definition not_after {A : Type} (less : A -> A -> bool) (a b : A) : Prop :=
  less b a = false.

(** Ascending by [Repository.FullName]. *)
Definition by_FullName (a b : ResultItem) : Prop :=
  String.leb (FullName (Repo a)) (FullName (Repo b)) = true.

Definition has_FullName (name : string) (item : ResultItem) : bool :=
  String.eqb (FullName (Repo item)) name.

(** ** The worker pool: bookkeeping of repositories and results *)

(** Where a repository (a job) can be while a scan runs. *)
Definition collected (c : Coordinator) : list ResultItem :=
  match c with
  | CSpawn _ | CEnqueue _ => []
  | CCollect _ items | CDeferCancel items _ | CDeferCloseResults items _
  | CDeferCloseErrors items _ | CReturned items _ => items
  end.

Definition pending (st : State) : list Repository :=
  match coord st with
  | CSpawn _ => repositories st
  | CEnqueue rest => rest
  | _ => []
  end.

Definition held_of (p : Worker) : list Repository :=
  match p with
  | WSelect r | WFetch r => [r]
  | WSendResult item => [Repo item]
  | _ => []
  end.

Definition held (ws : list Worker) : list Repository := flat_map held_of ws.

Definition accounted (st : State) : list Repository :=
  (map Repo (collected (coord st)) ++ map Repo (results st) ++ held (workers st)
     ++ jobs st ++ pending st)%list.

Definition item_of (p : Worker) : list ResultItem :=
  match p with
  | WSendResult item => [item]
  | _ => []
  end.

Definition in_flight (ws : list Worker) : list ResultItem := flat_map item_of ws.

(** Reading the event log. *)
Definition is_failure (e : Event) : bool :=
  match e with
  | ReleaseFetch _ _ (_, Some _) => true
  | _ => false
  end.

Definition failed (t : list Event) : bool := existsb is_failure t.

Definition drained_errors (t : list Event) : list (nat * error) :=
  flat_map (fun e => match e with ErrorDrained w err => [(w, err)] | _ => [] end) t.

Definition delivered (t : list Event) : list ResultItem :=
  flat_map (fun e => match e with ResultDrained item => [item] | _ => [] end) t.

(** The worker whose release fetch was the first to fail, with its error. *)
Definition first_failure (t : list Event) : option (nat * error) :=
  head (flat_map (fun e => match e with
                           | ReleaseFetch w _ (_, Some err) => [(w, err)]
                           | _ => []
                           end) t).

Definition after_return (c : Coordinator) : option (list ResultItem * option error) :=
  match c with
  | CDeferCancel items err | CDeferCloseResults items err
  | CDeferCloseErrors items err | CReturned items err => Some (items, err)
  | _ => None
  end.

(** The choices that are steps of the coordinator. *)
Definition is_coordinator (c : Choice) : Prop :=
  match c with
  | Work _ _ => False
  | _ => True
  end.

Section PoolVocabulary.
Context {net : Net}.
Variable s : Scanner.
Variable user : string.

(** [GetAllReleases] for [repository] ends with the releases [releases]. *)
Definition fetched (repository : Repository) (releases : list Release) : Prop :=
  exists fuel reqs,
    GetAllReleases fuel s user (Name repository) = Some ((releases, None), reqs).

Definition produced (item : ResultItem) : Prop := fetched (Repo item) (Releases item).

Definition all_items (st : State) : list ResultItem :=
  (collected (coord st) ++ results st ++ in_flight (workers st))%list.

(** The item a step brings into being: that of a release fetch that succeeds. *)
Definition fresh_items (c : Choice) (st : State) : list ResultItem :=
  match c with
  | Work w fuel =>
      match workers st !! w with
      | Some (WFetch repository) =>
          match GetAllReleases fuel s user (Name repository) with
          | Some ((releases, None), _) => [mkResultItem repository releases]
          | _ => []
          end
      | _ => []
      end
  | _ => []
  end.

(** Worker [w] has had a release fetch end with the error [err]. *)
Definition fetch_failed (w : nat) (err : error) (t : list Event) : Prop :=
  exists repository releases, In (ReleaseFetch w repository (releases, Some err)) t.

(** What the coordinator holds, read off the event log. *)
Definition returning_log (items : list ResultItem) (err : option error) (t : list Event)
  : Prop :=
  match err with
  | None => items = sortResultItems (delivered t) /\ drained_errors t = []
  | Some e =>
      items = delivered t
      /\ exists w cause,
          e = AccountScanFailed user cause
          /\ drained_errors t = [(w, cause)]
          /\ fetch_failed w cause t
  end.

Definition coord_log (c : Coordinator) (t : list Event) : Prop :=
  match c with
  | CSpawn _ | CEnqueue _ => delivered t = [] /\ drained_errors t = []
  | CCollect i items =>
      items = delivered t /\ drained_errors t = [] /\ i = Z.of_nat (length items)
  | CDeferCancel items err | CDeferCloseResults items err
  | CDeferCloseErrors items err | CReturned items err => returning_log items err t
  end.

Definition senders_ok (st : State) : Prop :=
  forall w e, workers st !! w = Some (WSendErr e) -> fetch_failed w e (trace st).

(** [errors] is closed by the last deferred call only. *)
Definition closed_ok (st : State) : Prop :=
  errorsClosed st = true -> exists items err, coord st = CReturned items err.

(** After a failed fetch, and until the coordinator has taken an error, a
    worker stands at [errors <- err]. *)
Definition blocked_ok (st : State) : Prop :=
  failed (trace st) = true ->
  (exists w e, workers st !! w = Some (WSendErr e))
  \/ (exists items e, after_return (coord st) = Some (items, Some e)).

(** The invariant of the pool. *)
Record Inv (st : State) : Prop := {
  inv_accounted : accounted st ⊆+ repositories st;
  inv_produced : Forall produced (all_items st);
  inv_log : coord_log (coord st) (trace st);
  inv_senders : senders_ok st;
  inv_strict : failed (trace st) = true ->
               (length (accounted st) < length (repositories st))%nat;
  inv_success : forall items, after_return (coord st) = Some (items, None) ->
                              length items = length (repositories st);
  inv_closed : closed_ok st;
  inv_blocked : blocked_ok st
}.

End PoolVocabulary.

(** ** Scenarios on the stub forge *)

Module Scenario.
Import Stub.

(** Schedules for the account [evil], whose repositories are [a], [b], [c]:
    the releases of [a] are served, those of [b] are forbidden and those of
    [c] fail with a server error. *)

(** The coordinator starts three workers, enqueues the three jobs and closes
    [jobs]. *)
Definition setup3 : list Choice := replicate 8 Coordinate.

(** Worker 0 takes [a], fetches and sends its result. *)
Definition worker0_succeeds : list Choice := [Work 0 1; Work 0 1; Work 0 1; Work 0 1].

(** Worker 1 takes [b]; its fetch fails. *)
Definition worker1_fails : list Choice := [Work 1 1; Work 1 1; Work 1 1].

(** The coordinator receives the result of [a], then the error of worker 1,
    and runs its deferred calls. *)
Definition collect_then_error : list Choice :=
  [Coordinate; Deliver 1; Coordinate; Coordinate; Coordinate].

Definition partial_schedule : list Choice :=
  (setup3 ++ worker0_succeeds ++ worker1_fails ++ collect_then_error)%list.

(** A schedule for the account [acme] (repositories [b], [a]) in which every
    fetch succeeds. *)
Definition acme_schedule : list Choice :=
  (replicate 6 Coordinate
   ++ [Work 0 1; Work 0 1; Work 0 1; Work 0 1; Work 1 1; Work 1 1; Work 1 1; Work 1 1]
   ++ replicate 6 Coordinate)%list.

Definition acme_releases (r : Repository) : nat :=
  if String.eqb (Name r) "a" then 1%nat else 0%nat.

Definition test_repositories : list (list Repository) :=
  [[repo "test" "repo1"; repo "test" "repo2"; repo "test" "repo3"];
   [repo "test" "repo4"; repo "test" "repo5"]].

Definition test_releases : list (list Release) :=
  [[mkRelease "v5"; mkRelease "v4"; mkRelease "v3"]; [mkRelease "v2"; mkRelease "v1"]].

Definition acme_entry : State :=
  pool_init [repo "acme" "b"; repo "acme" "a"]
    ["http://forge/users/acme/repos?per_page=100&page=1"].

Definition acme_final : State :=
  Eval vm_compute in
    match run (net := forge) plain "acme" acme_schedule acme_entry with
    | Some st => st
    | None => acme_entry
    end.

Definition evil_entry : State :=
  pool_init [repo "evil" "a"; repo "evil" "b"; repo "evil" "c"]
    ["http://forge/users/evil/repos?per_page=100&page=1"].

(** Worker 1 has failed on [evil/b] and stands at [errors <- err]; the
    coordinator has not collected anything yet. *)
Definition evil_failed : State :=
  Eval vm_compute in
    match run (net := forge) plain "evil"
            (setup3 ++ [Work 0 1] ++ worker1_fails)%list evil_entry with
    | Some st => st
    | None => evil_entry
    end.

End Scenario.

(** * Vocabulary of the further properties *)

(** A forge that never serves a short page: every request is answered 200
    with a body of one record, and the page size is 1. *)
Module Endless.

Definition forge : Net :=
  {| body := unit;
     http_Get := fun _ => inl (mkResponse 200 "200 OK" tt);
     io_ReadAll := fun _ => ("", None);
     json_Decode_Repositories := fun _ => ([mkRepository "loop/r" "r"], None);
     json_Decode_Releases := fun _ => ([mkRelease "v"], None);
     json_Unmarshal_Message := fun _ => ("", None) |}.

Definition one_per_page : Scanner := {| BaseUrl := "http://forge"; PerPage := 1 |}.

End Endless.

(** A forge with a page that fails after a full page, an account without
    repositories, and an account under the default base URL. *)
Module Flaky.

Inductive FlakyBody :=
| Repositories (l : list Repository)
| Releases_ (l : list Release)
| BadGateway.

Definition routes : list (string * Response FlakyBody) :=
  [ ("http://forge/users/u/repos?per_page=1&page=1",
      mkResponse 200 "200 OK" (Repositories [mkRepository "u/r" "r"]));
    ("http://forge/users/u/repos?per_page=1&page=2",
      mkResponse 502 "502 Bad Gateway" BadGateway);
    ("http://forge/repos/u/r/releases?per_page=1&page=1",
      mkResponse 200 "200 OK" (Releases_ [mkRelease "v2"]));
    ("http://forge/repos/u/r/releases?per_page=1&page=2",
      mkResponse 502 "502 Bad Gateway" BadGateway);
    ("http://forge/users/nobody/repos?per_page=1&page=1",
      mkResponse 200 "200 OK" (Repositories []));
    ("https://api.github.com/users/octo/repos?per_page=100&page=1",
      mkResponse 200 "200 OK"
        (Repositories [mkRepository "octo/b" "b"; mkRepository "octo/a" "a"]));
    ("https://api.github.com/repos/octo/a/releases?per_page=100&page=1",
      mkResponse 200 "200 OK" (Releases_ [mkRelease "v1"]));
    ("https://api.github.com/repos/octo/b/releases?per_page=100&page=1",
      mkResponse 200 "200 OK" (Releases_ [])) ].

Fixpoint lookup_route (url : string) (table : list (string * Response FlakyBody))
  : Response FlakyBody + error :=
  match table with
  | [] => inr "dial tcp: connection refused"
  | (u, r) :: table' => if String.eqb u url then inl r else lookup_route url table'
  end.

Definition forge : Net :=
  {| body := FlakyBody;
     http_Get := fun url => lookup_route url routes;
     io_ReadAll := fun _ => ("<html>", None);
     json_Decode_Repositories := fun b =>
       match b with
       | Repositories l => (l, None)
       | _ => ([], Some "json: cannot unmarshal")
       end;
     json_Decode_Releases := fun b =>
       match b with
       | Releases_ l => (l, None)
       | _ => ([], Some "json: cannot unmarshal")
       end;
     json_Unmarshal_Message := fun _ => ("", Some "invalid character '<'") |}.

Definition one_per_page : Scanner := {| BaseUrl := "http://forge"; PerPage := 1 |}.

(** The coordinator sets two workers up, each worker handles one job, the
    coordinator collects both results and returns. *)
Definition octo_schedule : list Choice :=
  (replicate 6 Coordinate
   ++ [Work 0 1; Work 0 1; Work 0 1; Work 0 1; Work 1 1; Work 1 1; Work 1 1; Work 1 1]
   ++ replicate 6 Coordinate)%list.

End Flaky.

(** States of the scans of [Stub.forge]. *)
Module Scenario2.
Import Stub Scenario.

(** Workers 1 and 2 have both failed (on [evil/b] and [evil/c]) and stand at
    [errors <- err]; worker 0 holds [evil/a]. *)
Definition two_failures_schedule : list Choice :=
  (setup3 ++ [Work 0 1] ++ worker1_fails ++ [Work 2 1; Work 2 1; Work 2 1])%list.

Definition two_failures : State :=
  Eval vm_compute in
    match run (net := forge) plain "evil" two_failures_schedule evil_entry with
    | Some st => st
    | None => evil_entry
    end.

(** Worker 0 has fetched the releases of [evil/a] and stands at
    [results <- item]. *)
Definition holding_result : State :=
  Eval vm_compute in
    match run (net := forge) plain "evil"
            (setup3 ++ [Work 0 1; Work 0 1; Work 0 1])%list evil_entry with
    | Some st => st
    | None => evil_entry
    end.

(** The scan of [evil] has returned the error of worker 1. *)
Definition evil_returned : State :=
  Eval vm_compute in
    match run (net := forge) plain "evil" partial_schedule evil_entry with
    | Some st => st
    | None => evil_entry
    end.

End Scenario2.

(** The workers inside [GetAllReleases]. *)
Definition is_fetching (p : Worker) : bool :=
  match p with
  | WFetch _ => true
  | _ => false
  end.

(** The workers at a channel send. *)
Definition is_sending (p : Worker) : Prop :=
  match p with
  | WSendErr _ | WSendResult _ => True
  | _ => False
  end.

(** The workers that have seen a failure: at [errors <- err], at the
    [cancel()] after it, or panicked. *)
Definition is_troubled (p : Worker) : Prop :=
  match p with
  | WSendErr _ | WCancel | WPanic => True
  | _ => False
  end.

(** The repositories whose releases have been fetched, in the order of the
    fetches. *)
Definition fetch_targets (t : list Event) : list Repository :=
  flat_map (fun e => match e with ReleaseFetch _ r _ => [r] | _ => [] end) t.

(** The repositories still to be fetched. *)
Definition unfetched_of (p : Worker) : list Repository :=
  match p with
  | WSelect r | WFetch r => [r]
  | _ => []
  end.

Definition unfetched (st : State) : list Repository :=
  (flat_map unfetched_of (workers st) ++ jobs st ++ pending st)%list.

(** The number of workers: those started so far while the coordinator starts
    them, [workersCount] from then on. *)
Definition pool_size_ok (st : State) : Prop :=
  match coord st with
  | CSpawn i => Z.of_nat (length (workers st)) = i /\ i <= workersCount st
  | _ => Z.of_nat (length (workers st)) = workersCount st
  end.

(** [ctx] is cancelled, or about to be by a worker, only once the coordinator
    has taken an error or is past its [return]. *)
Definition cancel_ok (st : State) : Prop :=
  (cancelled st = true \/ exists w, workers st !! w = Some WCancel) ->
  drained_errors (trace st) <> [] \/ is_Some (after_return (coord st)).

(** [results] and [errors] are closed by the deferred calls only. *)
Definition closing_ok (st : State) : Prop :=
  match coord st with
  | CDeferCloseErrors _ _ => resultsClosed st = true /\ errorsClosed st = false
  | CReturned _ _ => resultsClosed st = true /\ errorsClosed st = true
  | _ => resultsClosed st = false /\ errorsClosed st = false
  end.

(** The states of a scan over an empty listing. *)
Definition empty_scan_ok (reqs : list string) (st : State) : Prop :=
  repositories st = [] /\ workers st = [] /\ requests st = reqs /\ trace st = []
  /\ results st = []
  /\ match coord st with
     | CSpawn i => i = 0
     | CEnqueue rest => rest = []
     | CCollect i items => i = 0 /\ items = []
     | CDeferCancel items err | CDeferCloseResults items err
     | CDeferCloseErrors items err | CReturned items err => items = [] /\ err = None
     end.

Definition troubled_ok (st : State) : Prop :=
  forall w p, workers st !! w = Some p -> is_troubled p -> failed (trace st) = true.

Definition fetched_once_ok (st : State) : Prop :=
  (fetch_targets (trace st) ++ unfetched st)%list ⊆+ repositories st.

(** Every item in the pool comes from a fetch of the event log. *)
Definition items_fetched_ok (st : State) : Prop :=
  map Repo (all_items st) ⊆+ fetch_targets (trace st).

(** [jobs] is closed when the coordinator leaves the loop that fills it. *)
Definition jobs_ok (st : State) : Prop :=
  match coord st with
  | CSpawn _ | CEnqueue _ => jobsClosed st = false
  | _ => jobsClosed st = true
  end.

(** A worker returns only on cancellation or when [jobs] is drained and
    closed. *)
Definition done_ok (st : State) : Prop :=
  (exists w, workers st !! w = Some WDone) ->
  cancelled st = true \/ (jobs st = [] /\ jobsClosed st = true).

(** Without a failure or a cancellation, and before the return, no repository
    has left the books. *)
Definition exact_ok (st : State) : Prop :=
  failed (trace st) = false -> cancelled st = false ->
  after_return (coord st) = None ->
  length (accounted st) = length (repositories st).

(** A bound on the steps a state still has: every step of a goroutine
    lowers it. *)
Definition worker_weight (p : Worker) : nat :=
  match p with
  | WRange => 1
  | WSelect _ => 5
  | WFetch _ => 4
  | WSendErr _ => 3
  | WCancel => 2
  | WSendResult _ => 3
  | WDone | WPanic => 0
  end.

Definition coord_weight (st : State) : nat :=
  match coord st with
  | CSpawn i => 2 * Z.to_nat (workersCount st - i) + 6 * length (repositories st) + 7
  | CEnqueue rest => 6 * length rest + 6
  | CCollect _ _ => 5
  | CDeferCancel _ _ => 3
  | CDeferCloseResults _ _ => 2
  | CDeferCloseErrors _ _ => 1
  | CReturned _ _ => 0
  end.

Definition steps_left (st : State) : nat :=
  coord_weight st + list_sum (map worker_weight (workers st))
  + 5 * length (jobs st) + length (results st).

Section PoolVocabulary2.
Context {net : Net}.
Variable s : Scanner.
Variable user : string.

(** Every fetch of the event log is a call of [GetAllReleases] with its
    outcome. *)
Definition fetch_sound (e : Event) : Prop :=
  match e with
  | ReleaseFetch _ r outcome =>
      exists fuel reqs, GetAllReleases fuel s user (Name r) = Some (outcome, reqs)
  | _ => True
  end.

End PoolVocabulary2.

(** ** The entry point: what a process has printed *)

(** What [main] prints for the pair [ScanRepositories] returns, and the
    status it ends with. *)
Definition printed (items : list ResultItem) (err : option error) : list string :=
  match err with
  | Some e => [e]
  | None => flat_map render_item items
  end.

Definition status (err : option error) : Z :=
  match err with
  | Some _ => 1
  | None => 0
  end.

Section MainVocabulary.
Context {net : Net}.

(** The processes of a run of [main] whose scan started in [st0]. *)
Definition main_ok (account : string) (st0 : State) (p : Process) : Prop :=
  (exists sched, run GetDefaultScanner account sched st0 = Some (pool p))
  /\ match at_main p with
     | MScanning =>
         returned (pool p) = None /\ panicked (pool p) = false /\ stdout p = []
     | MPrinting lines code =>
         panicked (pool p) = false
         /\ exists items err,
              returned (pool p) = Some (items, err)
              /\ (stdout p ++ lines)%list = printed items err
              /\ code = status err
     | MExited code =>
         match returned (pool p) with
         | None => code = 2 /\ panicked (pool p) = true /\ stdout p = []
         | Some (items, err) =>
             (code = 2 /\ panicked (pool p) = true
              /\ exists lines, (stdout p ++ lines)%list = printed items err)
             \/ (code = status err /\ stdout p = printed items err)
         end
     end.

End MainVocabulary.

(** A forge under the default base URL whose account [storm] has two
    repositories, the releases of both failing. *)
Module Storm.

Definition routes : list (string * Response Flaky.FlakyBody) :=
  [ ("https://api.github.com/users/storm/repos?per_page=100&page=1",
      mkResponse 200 "200 OK"
        (Flaky.Repositories [mkRepository "storm/x" "x"; mkRepository "storm/y" "y"]));
    ("https://api.github.com/repos/storm/x/releases?per_page=100&page=1",
      mkResponse 500 "500 Internal Server Error" Flaky.BadGateway);
    ("https://api.github.com/repos/storm/y/releases?per_page=100&page=1",
      mkResponse 502 "502 Bad Gateway" Flaky.BadGateway) ].

Definition forge : Net :=
  {| body := Flaky.FlakyBody;
     http_Get := fun url => Flaky.lookup_route url routes;
     io_ReadAll := fun _ => ("<html>", None);
     json_Decode_Repositories := fun b =>
       match b with
       | Flaky.Repositories l => (l, None)
       | _ => ([], Some "json: cannot unmarshal")
       end;
     json_Decode_Releases := fun b =>
       match b with
       | Flaky.Releases_ l => (l, None)
       | _ => ([], Some "json: cannot unmarshal")
       end;
     json_Unmarshal_Message := fun _ => ("", Some "invalid character '<'") |}.




End Storm.

(** * Properties *)

(** ** A page request: validation, status classification, page size *)

Section PageProperties.
Context {net : Net}.

Lemma checkUser_empty : checkUser "" = Some "user name could not be empty".
Proof. reflexivity. Qed.

Lemma checkUser_nonempty (user : string) : user <> "" -> checkUser user = None.
Proof.
  intros Hne. unfold checkUser.
  destruct (String.eqb_spec user ""); [contradiction | reflexivity].
Qed.

Lemma checkRepository_nonempty (repository : string) :
  repository <> "" -> checkRepository repository = None.
Proof.
  intros Hne. unfold checkRepository.
  destruct (String.eqb_spec repository ""); [contradiction | reflexivity].
Qed.

Lemma checkPage_ok (page : Z) : 1 <= page -> checkPage page = None.
Proof.
  intros Hp. unfold checkPage.
  destruct (Z.ltb_spec page 1); [lia | reflexivity].
Qed.

Lemma checkPage_bad (page : Z) :
  page < 1 -> checkPage page = Some "page could not be less than 1".
Proof.
  intros Hp. unfold checkPage.
  destruct (Z.ltb_spec page 1); [reflexivity | lia].
Qed.

Lemma getPerPage_pos (s : Scanner) : 0 < getPerPage s.
Proof.
  unfold getPerPage, perPage. destruct (Z.leb_spec (PerPage s) 0); lia.
Qed.

(** C8. [GetRepositoriesPerPage] with an empty account name or a page below 1,
    and [GetReleasesPerPage] with an empty account name, an empty repository
    name or a page below 1, return an argument error (one of the three
    messages of [checkPage], [checkUser], [checkRepository]) with no value,
    and their request log is empty: no HTTP request is issued. *)
Theorem invalid_arguments_issue_no_request
    (s : Scanner) (user repository : string) (page : Z) :
  (user = "" \/ page < 1 ->
   exists e, GetRepositoriesPerPage s user page = (([], Some e), [])
     /\ (e = "page could not be less than 1" \/ e = "user name could not be empty"))
  /\
  (user = "" \/ repository = "" \/ page < 1 ->
   exists e, GetReleasesPerPage s user repository page = (([], Some e), [])
     /\ (e = "page could not be less than 1" \/ e = "user name could not be empty"
         \/ e = "repository name could not be empty")).
Proof.
  split; intros H.
  - unfold GetRepositoriesPerPage.
    destruct (Z.ltb_spec page 1) as [Hp | Hp].
    + rewrite (checkPage_bad _ Hp). eauto.
    + rewrite (checkPage_ok _ Hp).
      destruct H as [-> | Hlt]; [| lia].
      rewrite checkUser_empty. eauto.
  - unfold GetReleasesPerPage.
    destruct (Z.ltb_spec page 1) as [Hp | Hp].
    + rewrite (checkPage_bad _ Hp). eauto.
    + rewrite (checkPage_ok _ Hp).
      destruct (String.eqb_spec user "") as [-> | Hu].
      * rewrite checkUser_empty. eauto 6.
      * rewrite (checkUser_nonempty _ Hu).
        destruct H as [-> | [-> | Hlt]]; [contradiction | | lia].
        cbn. eauto 6.
Qed.

(** The errors of a status other than 200. On the repository-list endpoint a
    404 gives [account <user> does not exist]; every other status there, and
    every status on the releases endpoint (404 included), gives the endpoint's
    prefix followed by [forge_message]: what [json.Unmarshal] leaves in the
    field [Message] when the body is read and unmarshals without an error, the
    HTTP status line when either fails. No value comes with the error and
    exactly the one call of [http.Get] is logged. *)
Lemma non_200_classification (s : Scanner) (user repository : string) (page : Z) :
  (forall response : Response body,
      1 <= page -> user <> "" ->
      http_Get (repositories_url s user page) = inl response ->
      StatusCode response <> 200 ->
      GetRepositoriesPerPage s user page =
        (([], Some (if StatusCode response =? 404
                    then "account " ++ user ++ " does not exist"
                    else "could not get repositories for the account " ++ user ++ ": "
                           ++ forge_message response)),
         [repositories_url s user page]))
  /\
  (forall response : Response body,
      1 <= page -> user <> "" -> repository <> "" ->
      http_Get (releases_url s user repository page) = inl response ->
      StatusCode response <> 200 ->
      GetReleasesPerPage s user repository page =
        (([], Some ("could not get releases for the repository " ++ repository ++ ": "
                      ++ forge_message response)),
         [releases_url s user repository page])).
Proof.
  assert (E : forall r : Response body,
             getApiErrorMessage (RBody r) (Status r) = forge_message r).
  { intros r. unfold getApiErrorMessage, forge_message.
    destruct (io_ReadAll (RBody r)) as [bytes [e |]]; [reflexivity |].
    destruct (json_Unmarshal_Message bytes) as [m [e |]]; reflexivity. }
  split.
  - intros response Hp Hu Hget Hs. unfold GetRepositoriesPerPage.
    rewrite (checkPage_ok _ Hp), (checkUser_nonempty _ Hu). cbv zeta.
    rewrite Hget. unfold StatusNotFound, StatusOK.
    destruct (Z.eqb_spec (StatusCode response) 404); [reflexivity |].
    destruct (Z.eqb_spec (StatusCode response) 200); [contradiction |].
    cbn [negb]. rewrite E. reflexivity.
  - intros response Hp Hu Hr Hget Hs. unfold GetReleasesPerPage.
    rewrite (checkPage_ok _ Hp), (checkUser_nonempty _ Hu),
      (checkRepository_nonempty _ Hr). cbv zeta.
    rewrite Hget. unfold StatusOK.
    destruct (Z.eqb_spec (StatusCode response) 200); [contradiction |].
    cbn [negb]. rewrite E. reflexivity.
Qed.

Lemma getPerPage_effective (s : Scanner) : getPerPage (effective s) = getPerPage s.
Proof.
  unfold getPerPage, effective, perPage. cbn [PerPage].
  destruct (Z.ltb_spec 0 (PerPage s)) as [Hpos | Hneg].
  - reflexivity.
  - destruct (Z.leb_spec (PerPage s) 0); [reflexivity | lia].
Qed.

Lemma GetRepositoriesPerPage_effective (s : Scanner) (user : string) (page : Z) :
  GetRepositoriesPerPage (effective s) user page = GetRepositoriesPerPage s user page.
Proof.
  unfold GetRepositoriesPerPage, repositories_url.
  rewrite getPerPage_effective. reflexivity.
Qed.

Lemma GetReleasesPerPage_effective (s : Scanner) (user repository : string) (page : Z) :
  GetReleasesPerPage (effective s) user repository page
  = GetReleasesPerPage s user repository page.
Proof.
  unfold GetReleasesPerPage, releases_url.
  rewrite getPerPage_effective. reflexivity.
Qed.

Lemma GetAllRepositories_loop_effective (fuel : nat) (s : Scanner) (user : string) :
  forall acc page log,
    GetAllRepositories_loop fuel (effective s) user acc page log
    = GetAllRepositories_loop fuel s user acc page log.
Proof.
  induction fuel as [| fuel IH]; intros acc page log; [reflexivity |].
  cbn [GetAllRepositories_loop].
  rewrite GetRepositoriesPerPage_effective, getPerPage_effective.
  destruct (GetRepositoriesPerPage s user page) as [[chunk [e |]] reqs]; [reflexivity |].
  destruct (_ <? _); [reflexivity | apply IH].
Qed.

Lemma GetAllReleases_loop_effective (fuel : nat) (s : Scanner) (user repository : string) :
  forall acc page log,
    GetAllReleases_loop fuel (effective s) user repository acc page log
    = GetAllReleases_loop fuel s user repository acc page log.
Proof.
  induction fuel as [| fuel IH]; intros acc page log; [reflexivity |].
  cbn [GetAllReleases_loop].
  rewrite GetReleasesPerPage_effective, getPerPage_effective.
  destruct (GetReleasesPerPage s user repository page) as [[chunk [e |]] reqs];
    [reflexivity |].
  destruct (_ <? _); [reflexivity | apply IH].
Qed.

(** C9. The page size in effect is the configured [PerPage] when it is
    positive and 100 otherwise. It is the [per_page] of both request URLs and
    the bound of the short-page test of both pagination loops, and a scanner
    with a non-positive [PerPage] is no error: it fetches pages and paginates
    exactly as the scanner whose [PerPage] is the size in effect. *)
Theorem page_size_in_effect (s : Scanner) :
  let P := if 0 <? PerPage s then PerPage s else 100 in
  getPerPage s = P
  /\ (forall user page,
        repositories_url s user page
        = BaseUrl s ++ "/users/" ++ user ++ "/repos?per_page=" ++ itoa P
            ++ "&page=" ++ itoa page)
  /\ (forall user repository page,
        releases_url s user repository page
        = BaseUrl s ++ "/repos/" ++ user ++ "/" ++ repository ++ "/releases?per_page="
            ++ itoa P ++ "&page=" ++ itoa page)
  /\ (forall fuel user acc page log,
        GetAllRepositories_loop (S fuel) s user acc page log
        = match GetRepositoriesPerPage s user page with
          | ((_, Some e), reqs) => Some (([], Some e), (log ++ reqs)%list)
          | ((chunk, None), reqs) =>
              if Z.of_nat (length chunk) <? P
              then Some (((acc ++ chunk)%list, None), (log ++ reqs)%list)
              else GetAllRepositories_loop fuel s user (acc ++ chunk)%list
                     (int_wrap (page + 1)) (log ++ reqs)%list
          end)
  /\ (forall fuel user repository acc page log,
        GetAllReleases_loop (S fuel) s user repository acc page log
        = match GetReleasesPerPage s user repository page with
          | ((_, Some e), reqs) => Some (([], Some e), (log ++ reqs)%list)
          | ((chunk, None), reqs) =>
              if Z.of_nat (length chunk) <? P
              then Some (((acc ++ chunk)%list, None), (log ++ reqs)%list)
              else GetAllReleases_loop fuel s user repository (acc ++ chunk)%list
                     (int_wrap (page + 1)) (log ++ reqs)%list
          end)
  /\ (forall fuel user,
        GetAllRepositories fuel s user = GetAllRepositories fuel (effective s) user)
  /\ (forall fuel user repository,
        GetAllReleases fuel s user repository
        = GetAllReleases fuel (effective s) user repository).
Proof.
  intros P.
  assert (HP : getPerPage s = P).
  { subst P. unfold getPerPage, perPage.
    destruct (Z.ltb_spec 0 (PerPage s)), (Z.leb_spec (PerPage s) 0); lia || reflexivity. }
  split; [exact HP |].
  split; [intros; unfold repositories_url; rewrite HP; reflexivity |].
  split; [intros; unfold releases_url; rewrite HP; reflexivity |].
  split.
  { intros. cbn [GetAllRepositories_loop]. rewrite HP.
    destruct (GetRepositoriesPerPage s user page) as [[chunk [e |]] reqs]; reflexivity. }
  split.
  { intros. cbn [GetAllReleases_loop]. rewrite HP.
    destruct (GetReleasesPerPage s user repository page) as [[chunk [e |]] reqs];
      reflexivity. }
  split; intros; unfold GetAllRepositories, GetAllReleases.
  - symmetry. apply GetAllRepositories_loop_effective.
  - symmetry. apply GetAllReleases_loop_effective.
Qed.

End PageProperties.

(** ** Pagination *)

Section Pagination.
Context {net : Net}.

Lemma int_wrap_id (z : Z) : - 2 ^ 63 <= z <= max_int -> int_wrap z = z.
Proof.
  unfold int_wrap, max_int. intros H.
  rewrite Z.mod_small; lia.
Qed.

Lemma GetRepositoriesPerPage_served s user page chunk :
  1 <= page -> user <> "" -> serves_repositories s user page chunk ->
  GetRepositoriesPerPage s user page = ((chunk, None), [repositories_url s user page]).
Proof.
  intros Hp Hu (response & Hget & Hst & Hdec).
  unfold GetRepositoriesPerPage.
  rewrite (checkPage_ok _ Hp), (checkUser_nonempty _ Hu). cbv zeta.
  rewrite Hget, Hst, Hdec. reflexivity.
Qed.

Lemma GetReleasesPerPage_served s user repository page chunk :
  1 <= page -> user <> "" -> repository <> "" ->
  serves_releases s user repository page chunk ->
  GetReleasesPerPage s user repository page
  = ((chunk, None), [releases_url s user repository page]).
Proof.
  intros Hp Hu Hr (response & Hget & Hst & Hdec).
  unfold GetReleasesPerPage.
  rewrite (checkPage_ok _ Hp), (checkUser_nonempty _ Hu), (checkRepository_nonempty _ Hr).
  cbv zeta. rewrite Hget, Hst, Hdec. reflexivity.
Qed.

Lemma GetAllRepositories_loop_pages s user :
  forall (full : list (list Repository)) last fuel acc page log,
    user <> "" -> 1 <= page -> page + Z.of_nat (length full) <= max_int ->
    Forall (fun chunk => Z.of_nat (length chunk) = getPerPage s) full ->
    Z.of_nat (length last) < getPerPage s ->
    (forall i chunk, (full ++ [last])%list !! i = Some chunk ->
                     serves_repositories s user (page + Z.of_nat i) chunk) ->
    (length full < fuel)%nat ->
    GetAllRepositories_loop fuel s user acc page log
    = Some (((acc ++ concat (full ++ [last]))%list, None),
            (log ++ map (repositories_url s user)
                      (page_numbers page (S (length full))))%list).
Proof.
  induction full as [| chunk full IH];
    intros last fuel acc page log Hu Hp Hmax Hfull Hlast Hserve Hfuel;
    (destruct fuel as [| fuel]; [cbn in Hfuel; lia |]); cbn [GetAllRepositories_loop].
  - specialize (Hserve 0%nat last eq_refl). rewrite Z.add_0_r in Hserve.
    rewrite (GetRepositoriesPerPage_served _ _ _ _ Hp Hu Hserve).
    destruct (Z.ltb_spec (Z.of_nat (length last)) (getPerPage s)); [| lia].
    cbn. rewrite app_nil_r. reflexivity.
  - pose proof (Hserve 0%nat chunk eq_refl) as H0. rewrite Z.add_0_r in H0.
    rewrite (GetRepositoriesPerPage_served _ _ _ _ Hp Hu H0).
    inversion Hfull as [| ? ? Hc Hfull']; subst.
    destruct (Z.ltb_spec (Z.of_nat (length chunk)) (getPerPage s)); [lia |].
    cbn [length] in *.
    rewrite int_wrap_id by (unfold max_int in *; lia).
    rewrite (IH last fuel (acc ++ chunk)%list (page + 1)
               (log ++ [repositories_url s user page])%list); try assumption; try lia.
    + cbn [app concat page_numbers map length]. rewrite <- !app_assoc. reflexivity.
    + intros i c Hi. replace (page + 1 + Z.of_nat i) with (page + Z.of_nat (S i)) by lia.
      apply Hserve. exact Hi.
Qed.

Lemma GetAllReleases_loop_pages s user repository :
  forall (full : list (list Release)) last fuel acc page log,
    user <> "" -> repository <> "" ->
    1 <= page -> page + Z.of_nat (length full) <= max_int ->
    Forall (fun chunk => Z.of_nat (length chunk) = getPerPage s) full ->
    Z.of_nat (length last) < getPerPage s ->
    (forall i chunk, (full ++ [last])%list !! i = Some chunk ->
                     serves_releases s user repository (page + Z.of_nat i) chunk) ->
    (length full < fuel)%nat ->
    GetAllReleases_loop fuel s user repository acc page log
    = Some (((acc ++ concat (full ++ [last]))%list, None),
            (log ++ map (releases_url s user repository)
                      (page_numbers page (S (length full))))%list).
Proof.
  induction full as [| chunk full IH];
    intros last fuel acc page log Hu Hr Hp Hmax Hfull Hlast Hserve Hfuel;
    (destruct fuel as [| fuel]; [cbn in Hfuel; lia |]); cbn [GetAllReleases_loop].
  - specialize (Hserve 0%nat last eq_refl). rewrite Z.add_0_r in Hserve.
    rewrite (GetReleasesPerPage_served _ _ _ _ _ Hp Hu Hr Hserve).
    destruct (Z.ltb_spec (Z.of_nat (length last)) (getPerPage s)); [| lia].
    cbn. rewrite app_nil_r. reflexivity.
  - pose proof (Hserve 0%nat chunk eq_refl) as H0. rewrite Z.add_0_r in H0.
    rewrite (GetReleasesPerPage_served _ _ _ _ _ Hp Hu Hr H0).
    inversion Hfull as [| ? ? Hc Hfull']; subst.
    destruct (Z.ltb_spec (Z.of_nat (length chunk)) (getPerPage s)); [lia |].
    cbn [length] in *.
    rewrite int_wrap_id by (unfold max_int in *; lia).
    rewrite (IH last fuel (acc ++ chunk)%list (page + 1)
               (log ++ [releases_url s user repository page])%list);
      try assumption; try lia.
    + cbn [app concat page_numbers map length]. rewrite <- !app_assoc. reflexivity.
    + intros i c Hi. replace (page + 1 + Z.of_nat i) with (page + Z.of_nat (S i)) by lia.
      apply Hserve. exact Hi.
Qed.

(** C3. When the forge serves pages 1..k of an account's repositories, each of
    the first k-1 of exactly the page size in effect and the k-th strictly
    shorter, [GetAllRepositories] (given fuel for k iterations) issues exactly
    the k requests for pages 1, ..., k in that order and returns the k chunks
    concatenated in page order with a nil error. An empty first chunk ends the
    loop after the one request for page 1, with the empty sequence.
    [GetAllReleases] obeys the same contract for the releases of a repository. *)
Theorem pagination_until_short_page (s : Scanner) (user repository : string) (fuel : nat) :
  (forall rpages : list (list Repository),
      user <> "" ->
      full_then_short (getPerPage s) rpages ->
      (forall i chunk, rpages !! i = Some chunk ->
                       serves_repositories s user (Z.of_nat (S i)) chunk) ->
      Z.of_nat (length rpages) <= max_int ->
      (length rpages <= fuel)%nat ->
      GetAllRepositories fuel s user
      = Some ((concat rpages, None),
              map (repositories_url s user) (page_numbers 1 (length rpages))))
  /\
  (user <> "" -> serves_repositories s user 1 [] -> (1 <= fuel)%nat ->
   GetAllRepositories fuel s user = Some (([], None), [repositories_url s user 1]))
  /\
  (forall lpages : list (list Release),
      user <> "" -> repository <> "" ->
      full_then_short (getPerPage s) lpages ->
      (forall i chunk, lpages !! i = Some chunk ->
                       serves_releases s user repository (Z.of_nat (S i)) chunk) ->
      Z.of_nat (length lpages) <= max_int ->
      (length lpages <= fuel)%nat ->
      GetAllReleases fuel s user repository
      = Some ((concat lpages, None),
              map (releases_url s user repository) (page_numbers 1 (length lpages))))
  /\
  (user <> "" -> repository <> "" -> serves_releases s user repository 1 [] ->
   (1 <= fuel)%nat ->
   GetAllReleases fuel s user repository
   = Some (([], None), [releases_url s user repository 1])).
Proof.
  assert (HR : forall rpages : list (list Repository),
             user <> "" ->
             full_then_short (getPerPage s) rpages ->
             (forall i chunk, rpages !! i = Some chunk ->
                              serves_repositories s user (Z.of_nat (S i)) chunk) ->
             Z.of_nat (length rpages) <= max_int ->
             (length rpages <= fuel)%nat ->
             GetAllRepositories fuel s user
             = Some ((concat rpages, None),
                     map (repositories_url s user) (page_numbers 1 (length rpages)))).
  { intros rpages Hu (rfull & rlast & -> & Hrfull & Hrlast) Hrs Hrmax Hrfuel.
    rewrite !length_app in *. cbn [length] in *.
    unfold GetAllRepositories.
    rewrite (GetAllRepositories_loop_pages s user rfull rlast fuel [] 1 []);
      try assumption; try lia.
    - cbn [app]. replace (length rfull + 1)%nat with (S (length rfull)) by lia.
      reflexivity.
    - intros i c Hi. replace (1 + Z.of_nat i) with (Z.of_nat (S i)) by lia. auto. }
  assert (HL : forall lpages : list (list Release),
             user <> "" -> repository <> "" ->
             full_then_short (getPerPage s) lpages ->
             (forall i chunk, lpages !! i = Some chunk ->
                              serves_releases s user repository (Z.of_nat (S i)) chunk) ->
             Z.of_nat (length lpages) <= max_int ->
             (length lpages <= fuel)%nat ->
             GetAllReleases fuel s user repository
             = Some ((concat lpages, None),
                     map (releases_url s user repository)
                       (page_numbers 1 (length lpages)))).
  { intros lpages Hu Hr (lfull & llast & -> & Hlfull & Hllast) Hls Hlmax Hlfuel.
    rewrite !length_app in *. cbn [length] in *.
    unfold GetAllReleases.
    rewrite (GetAllReleases_loop_pages s user repository lfull llast fuel [] 1 []);
      try assumption; try lia.
    - cbn [app]. replace (length lfull + 1)%nat with (S (length lfull)) by lia.
      reflexivity.
    - intros i c Hi. replace (1 + Z.of_nat i) with (Z.of_nat (S i)) by lia. auto. }
  assert (Hshort : forall A : Type, full_then_short (getPerPage s) [@nil A]).
  { intros A. exists [], []. split; [reflexivity |]. split; [constructor |].
    cbn. apply getPerPage_pos. }
  split; [exact HR |]. split; [| split; [exact HL |]].
  - intros Hu Hserve Hfuel. apply (HR [[]] Hu (Hshort _)).
    + intros [| i] chunk Hc; [| destruct i; discriminate Hc].
      injection Hc as <-. exact Hserve.
    + cbn. unfold max_int. lia.
    + exact Hfuel.
  - intros Hu Hr Hserve Hfuel. apply (HL [[]] Hu Hr (Hshort _)).
    + intros [| i] chunk Hc; [| destruct i; discriminate Hc].
      injection Hc as <-. exact Hserve.
    + cbn. unfold max_int. lia.
    + exact Hfuel.
Qed.

Lemma GetAllRepositories_loop_error fuel s user :
  forall acc page log repos e reqs,
    GetAllRepositories_loop fuel s user acc page log = Some ((repos, Some e), reqs) ->
    repos = [].
Proof.
  induction fuel as [| fuel IH]; intros acc page log repos e reqs; [discriminate |].
  cbn [GetAllRepositories_loop].
  destruct (GetRepositoriesPerPage s user page) as [[chunk [e' |]] reqs'].
  - intros [= <- _ _]. reflexivity.
  - destruct (_ <? _); [discriminate | apply IH].
Qed.

Lemma GetAllReleases_loop_error fuel s user repository :
  forall acc page log releases e reqs,
    GetAllReleases_loop fuel s user repository acc page log
    = Some ((releases, Some e), reqs) ->
    releases = [].
Proof.
  induction fuel as [| fuel IH]; intros acc page log releases e reqs; [discriminate |].
  cbn [GetAllReleases_loop].
  destruct (GetReleasesPerPage s user repository page) as [[chunk [e' |]] reqs'].
  - intros [= <- _ _]. reflexivity.
  - destruct (_ <? _); [discriminate | apply IH].
Qed.

(** C10. Whenever [GetAllRepositories] or [GetAllReleases] returns a non-nil
    error, the slice returned with it is nil: the pages accumulated by
    earlier, successful requests are not returned. *)
Theorem pagination_error_has_no_value
    (fuel : nat) (s : Scanner) (user repository : string) :
  (forall repos e reqs,
      GetAllRepositories fuel s user = Some ((repos, Some e), reqs) -> repos = [])
  /\
  (forall releases e reqs,
      GetAllReleases fuel s user repository = Some ((releases, Some e), reqs) ->
      releases = []).
Proof.
  unfold GetAllRepositories, GetAllReleases. split.
  - intros repos e reqs H. eapply GetAllRepositories_loop_error; exact H.
  - intros releases e reqs H. eapply GetAllReleases_loop_error; exact H.
Qed.

End Pagination.

(** ** The stable sort *)

Section StableSort.
Context {A : Type} (less : A -> A -> bool).

Hypothesis less_asym : forall a b, less a b = true -> less b a = false.
Hypothesis not_after_trans :
  forall a b c, not_after less a b -> not_after less b c -> not_after less a c.

Lemma insert_stable_Permutation (x : A) (l : list A) : insert_stable less x l ≡ₚ x :: l.
Proof.
  induction l as [| y l IH]; cbn; [reflexivity |].
  destruct (less y x); [| reflexivity].
  rewrite IH. apply perm_swap.
Qed.

Lemma sort_SliceStable_Permutation (l : list A) : sort_SliceStable less l ≡ₚ l.
Proof.
  induction l as [| x l IH]; cbn; [reflexivity |].
  fold (sort_SliceStable less l). rewrite insert_stable_Permutation, IH. reflexivity.
Qed.

Lemma insert_stable_sorted (x : A) (l : list A) :
  StronglySorted (not_after less) l -> StronglySorted (not_after less) (insert_stable less x l).
Proof.
  induction 1 as [| y l Hl IH Hy]; cbn.
  - repeat constructor.
  - destruct (less y x) eqn:E.
    + constructor; [exact IH |].
      rewrite Forall_forall. intros z Hz.
      rewrite insert_stable_Permutation in Hz.
      apply elem_of_cons in Hz as [-> | Hz].
      * apply less_asym, E.
      * rewrite Forall_forall in Hy. apply Hy, Hz.
    + constructor; [constructor; assumption |].
      constructor; [exact E |].
      eapply Forall_impl; [exact Hy |].
      intros z Hz. eapply not_after_trans; [exact E | exact Hz].
Qed.

Lemma sort_SliceStable_sorted (l : list A) :
  StronglySorted (not_after less) (sort_SliceStable less l).
Proof.
  induction l as [| x l IH]; cbn; [constructor |].
  apply insert_stable_sorted, IH.
Qed.

(** Stability: the elements of one class of equivalent keys keep the order
    they had in the input. *)
Lemma insert_stable_filter (P : A -> bool) (x : A) (l : list A) :
  (forall a b, P a = true -> P b = true -> less a b = false) ->
  List.filter P (insert_stable less x l) = List.filter P (x :: l).
Proof.
  intros HP. induction l as [| y l IH]; cbn; [reflexivity |].
  destruct (less y x) eqn:E; [| reflexivity].
  cbn. rewrite IH. cbn.
  destruct (P y) eqn:Ey, (P x) eqn:Ex; try reflexivity.
  rewrite (HP y x Ey Ex) in E. discriminate.
Qed.

Lemma sort_SliceStable_filter (P : A -> bool) (l : list A) :
  (forall a b, P a = true -> P b = true -> less a b = false) ->
  List.filter P (sort_SliceStable less l) = List.filter P l.
Proof.
  intros HP. induction l as [| x l IH]; cbn; [reflexivity |].
  fold (sort_SliceStable less l).
  rewrite (insert_stable_filter P x _ HP). cbn. rewrite IH. reflexivity.
Qed.

End StableSort.

(** The order of Go strings: bytewise lexicographic. *)

Lemma Ascii_compare_refl (a : ascii) : Ascii.compare a a = Eq.
Proof. unfold Ascii.compare. apply N.compare_refl. Qed.

Lemma String_compare_refl (a : string) : String.compare a a = Eq.
Proof.
  induction a as [| c a IH]; cbn; [reflexivity |].
  rewrite Ascii_compare_refl. exact IH.
Qed.

Lemma Ascii_compare_lt_trans (a b c : ascii) :
  Ascii.compare a b = Lt -> Ascii.compare b c = Lt -> Ascii.compare a c = Lt.
Proof.
  unfold Ascii.compare. rewrite !N.compare_lt_iff. lia.
Qed.

Lemma String_compare_lt_trans (a : string) :
  forall b c, String.compare a b = Lt -> String.compare b c = Lt ->
              String.compare a c = Lt.
Proof.
  induction a as [| x a IH]; intros [| y b] [| z c]; cbn;
    try discriminate; try reflexivity.
  destruct (Ascii.compare x y) eqn:Exy; try discriminate;
    destruct (Ascii.compare y z) eqn:Eyz; try discriminate; intros Hab Hbc.
  - apply Ascii.compare_eq_iff in Exy, Eyz. subst.
    rewrite Ascii_compare_refl. eapply IH; eassumption.
  - apply Ascii.compare_eq_iff in Exy. subst. rewrite Eyz. reflexivity.
  - apply Ascii.compare_eq_iff in Eyz. subst. rewrite Exy. reflexivity.
  - rewrite (Ascii_compare_lt_trans _ _ _ Exy Eyz). reflexivity.
Qed.

Lemma String_ltb_irrefl (a : string) : String.ltb a a = false.
Proof. unfold String.ltb. rewrite String_compare_refl. reflexivity. Qed.

Lemma String_ltb_asym (a b : string) : String.ltb a b = true -> String.ltb b a = false.
Proof.
  unfold String.ltb. rewrite (String.compare_antisym b a).
  destruct (String.compare a b); cbn; congruence.
Qed.

Lemma String_ltb_leb (a b : string) : String.ltb b a = false <-> String.leb a b = true.
Proof.
  unfold String.ltb, String.leb. rewrite (String.compare_antisym a b).
  destruct (String.compare b a); cbn; split; congruence.
Qed.

Lemma String_leb_trans (a b c : string) :
  String.leb a b = true -> String.leb b c = true -> String.leb a c = true.
Proof.
  unfold String.leb.
  destruct (String.compare a b) eqn:Eab; try discriminate;
    destruct (String.compare b c) eqn:Ebc; try discriminate; intros _ _.
  - apply String.compare_eq_iff in Eab, Ebc. subst. rewrite String_compare_refl.
    reflexivity.
  - apply String.compare_eq_iff in Eab. subst. rewrite Ebc. reflexivity.
  - apply String.compare_eq_iff in Ebc. subst. rewrite Eab. reflexivity.
  - rewrite (String_compare_lt_trans _ _ _ Eab Ebc). reflexivity.
Qed.

Lemma sortResultItems_Permutation (items : list ResultItem) :
  sortResultItems items ≡ₚ items.
Proof. apply sort_SliceStable_Permutation. Qed.

Lemma sortResultItems_sorted (items : list ResultItem) :
  StronglySorted by_FullName (sortResultItems items).
Proof.
  assert (H : StronglySorted (not_after less_FullName) (sortResultItems items)).
  2: { induction H as [| x l Hl IH Hx]; constructor; [exact IH |].
       eapply Forall_impl; [exact Hx |].
       intros b Hb. apply String_ltb_leb. exact Hb. }
  apply (sort_SliceStable_sorted less_FullName).
  - intros a b. apply String_ltb_asym.
  - intros a b c Hab Hbc. unfold not_after, less_FullName in *.
    apply String_ltb_leb. apply String_ltb_leb in Hab, Hbc.
    eapply String_leb_trans; eassumption.
Qed.

Lemma sortResultItems_stable (name : string) (items : list ResultItem) :
  List.filter (has_FullName name) (sortResultItems items)
  = List.filter (has_FullName name) items.
Proof.
  apply sort_SliceStable_filter.
  intros a b Ha Hb. unfold has_FullName, less_FullName in *.
  apply String.eqb_eq in Ha, Hb. rewrite Ha, Hb. apply String_ltb_irrefl.
Qed.

(** Two sorted sequences over the same names list the names in the same order. *)
Lemma sorted_names_unique (l1 l2 : list ResultItem) :
  StronglySorted by_FullName l1 -> StronglySorted by_FullName l2 ->
  map Repo l1 ≡ₚ map Repo l2 ->
  map (fun item => FullName (Repo item)) l1 = map (fun item => FullName (Repo item)) l2.
Proof.
  intros H1 H2 HP.
  assert (Hs : forall l, StronglySorted by_FullName l ->
                 StronglySorted (fun a b => String.leb a b = true)
                   (map (fun item => FullName (Repo item)) l)).
  { induction 1 as [| x l Hl IH Hx]; cbn; constructor; [exact IH |].
    rewrite Forall_map. exact Hx. }
  apply (StronglySorted_unique_strong (fun a b => String.leb a b = true)).
  - intros a b _ _. apply String.leb_antisym.
  - apply Hs, H1.
  - apply Hs, H2.
  - rewrite <- !(map_map Repo FullName). apply Permutation_map, HP.
Qed.

Lemma held_app (ws ws' : list Worker) : held (ws ++ ws') = (held ws ++ held ws')%list.
Proof. apply flat_map_app. Qed.

Lemma in_flight_app (ws ws' : list Worker) :
  in_flight (ws ++ ws') = (in_flight ws ++ in_flight ws')%list.
Proof. apply flat_map_app. Qed.

Lemma held_insert (ws : list Worker) (w : nat) (p p' : Worker) :
  ws !! w = Some p ->
  (held (<[w := p']> ws) ++ held_of p)%list ≡ₚ (held ws ++ held_of p')%list.
Proof.
  intros Hw.
  rewrite (insert_take_drop ws w p') by (eapply lookup_lt_Some; exact Hw).
  rewrite <- (take_drop_middle ws w p Hw) at 3.
  rewrite !held_app. cbn [held flat_map]. fold (held (drop (S w) ws)).
  solve_Permutation.
Qed.

Lemma in_flight_insert (ws : list Worker) (w : nat) (p p' : Worker) :
  ws !! w = Some p ->
  (in_flight (<[w := p']> ws) ++ item_of p)%list
  ≡ₚ (in_flight ws ++ item_of p')%list.
Proof.
  intros Hw.
  rewrite (insert_take_drop ws w p') by (eapply lookup_lt_Some; exact Hw).
  rewrite <- (take_drop_middle ws w p Hw) at 3.
  rewrite !in_flight_app. cbn [in_flight flat_map]. fold (in_flight (drop (S w) ws)).
  solve_Permutation.
Qed.

Lemma failed_app (t t' : list Event) : failed (t ++ t') = failed t || failed t'.
Proof. apply existsb_app. Qed.

Lemma drained_errors_app (t t' : list Event) :
  drained_errors (t ++ t') = (drained_errors t ++ drained_errors t')%list.
Proof. apply flat_map_app. Qed.

Lemma delivered_app (t t' : list Event) :
  delivered (t ++ t') = (delivered t ++ delivered t')%list.
Proof. apply flat_map_app. Qed.

(** Splitting a step into its cases, each with the fields of both states. *)
Ltac break_match_hyp H :=
  repeat match type of H with
         | context [match ?x with _ => _ end] =>
             let E := fresh "E" in destruct x eqn:E; try discriminate H
         end.

Ltac step_cases H :=
  match type of H with
  | step _ _ ?c ?st = Some _ =>
      destruct st; destruct c;
      unfold step, coordinate, deliver, work, set_coord, set_worker in H;
      cbn [repositories jobs jobsClosed results resultsClosed errorsClosed cancelled
           coord workers requests trace] in H;
      break_match_hyp H;
      injection H as <-
  end.

(** Replaces the pool after an update of worker [w] by the pool before it. *)
Ltac held_step :=
  match goal with
  | E : ?ws !! ?w = Some ?p |- context [held (<[?w := ?p']> ?ws)] =>
      let HH := fresh "HH" in
      pose proof (held_insert ws w p p' E) as HH;
      cbn [held_of app Repo] in HH; rewrite ?app_nil_r in HH;
      first [ rewrite HH
            | rewrite <- HH
            | apply Permutation_app_inv_r in HH; rewrite HH ]
  end.

Ltac in_flight_step :=
  match goal with
  | E : ?ws !! ?w = Some ?p |- context [in_flight (<[?w := ?p']> ?ws)] =>
      let HH := fresh "HH" in
      pose proof (in_flight_insert ws w p p' E) as HH;
      cbn [item_of app] in HH; rewrite ?app_nil_r in HH;
      first [ rewrite HH
            | rewrite <- HH
            | apply Permutation_app_inv_r in HH; rewrite HH ]
  end.

Section PoolProperties.
Context {net : Net}.
Variable s : Scanner.
Variable user : string.

Lemma step_repositories c st st' :
  step s user c st = Some st' -> repositories st' = repositories st.
Proof. intros H. step_cases H; reflexivity. Qed.

(** No step creates a repository: a step moves one or drops one. *)
Lemma step_accounted c st st' :
  step s user c st = Some st' -> accounted st' ⊆+ accounted st.
Proof.
  intros H. step_cases H; unfold accounted, pending;
    cbn [repositories jobs results coord workers collected held_of map app];
    rewrite ?held_app, ?map_app, ?sortResultItems_Permutation;
    cbn [held flat_map held_of map app];
    try held_step;
    solve_submseteq.
Qed.

Lemma step_accounted_length c st st' :
  step s user c st = Some st' -> (length (accounted st') <= length (accounted st))%nat.
Proof. intros H. apply submseteq_length, (step_accounted _ _ _ H). Qed.

Lemma step_all_items c st st' :
  step s user c st = Some st' -> all_items st' ⊆+ (all_items st ++ fresh_items s user c st)%list.
Proof.
  intros H. step_cases H; unfold all_items, fresh_items;
    cbn [repositories jobs results coord workers collected item_of map app];
    rewrite ?in_flight_app, ?sortResultItems_Permutation;
    cbn [in_flight flat_map item_of app];
    repeat match goal with E : _ = _ |- _ => rewrite E end;
    try in_flight_step;
    solve_submseteq.
Qed.

Lemma fresh_items_produced c st : Forall (produced s user) (fresh_items s user c st).
Proof.
  destruct c as [| w | w fuel]; cbn; try constructor.
  destruct (workers st !! w) as [[] |]; try constructor.
  destruct (GetAllReleases fuel s user (Name repository))
    as [[[releases [e |]] reqs] |] eqn:E; repeat constructor.
  exists fuel, reqs. exact E.
Qed.

Lemma step_produced c st st' :
  step s user c st = Some st' ->
  Forall (produced s user) (all_items st) -> Forall (produced s user) (all_items st').
Proof.
  intros H Hst.
  assert (Hall : Forall (produced s user) (all_items st ++ fresh_items s user c st)%list).
  { apply Forall_app. split; [exact Hst | apply fresh_items_produced]. }
  rewrite Forall_forall in Hall |- *. intros item Hitem.
  apply Hall. eapply elem_of_submseteq; [exact Hitem |].
  eapply step_all_items, H.
Qed.

Lemma fetch_failed_app w err t t' : fetch_failed w err t -> fetch_failed w err (t ++ t').
Proof.
  intros (r & rels & Hin). exists r, rels. apply in_or_app. left. exact Hin.
Qed.

Lemma fetch_failed_failed w err t : fetch_failed w err t -> failed t = true.
Proof.
  intros (r & rels & Hin). apply existsb_exists. eexists. split; [exact Hin | reflexivity].
Qed.

(** Release fetches leave what the coordinator has drained untouched. *)
Lemma coord_log_fetch c t w repository outcome :
  coord_log user c t -> coord_log user c (t ++ [ReleaseFetch w repository outcome]).
Proof.
  assert (Hd : delivered (t ++ [ReleaseFetch w repository outcome]) = delivered t).
  { rewrite delivered_app. cbn. apply app_nil_r. }
  assert (He : drained_errors (t ++ [ReleaseFetch w repository outcome])
               = drained_errors t).
  { rewrite drained_errors_app. cbn. apply app_nil_r. }
  destruct c as [| | | items [e |] | items [e |] | items [e |] | items [e |]];
    cbn; rewrite ?Hd, ?He; try tauto;
    intros (Hi & w' & cause & H1 & H2 & H3); (split; [exact Hi |]);
    exists w', cause; auto using fetch_failed_app.
Qed.

Lemma step_coord_log c st st' :
  step s user c st = Some st' ->
  senders_ok st -> coord_log user (coord st) (trace st) -> coord_log user (coord st') (trace st').
Proof.
  intros H Hs. step_cases H; unfold senders_ok in Hs;
    cbn [repositories jobs results coord workers trace] in *;
    try match goal with E : _ = _ |- _ => rewrite E; clear E end;
    try (intros Hc; apply coord_log_fetch; exact Hc);
    cbn [coord_log returning_log]; rewrite ?delivered_app, ?drained_errors_app;
    cbn [delivered drained_errors flat_map app]; rewrite ?app_nil_r;
    try tauto.
  - intros [Hd He]. rewrite Hd. auto.
  - intros (-> & He & ->). repeat split; [exact He |].
    rewrite length_app, Nat2Z.inj_add. reflexivity.
  - intros (-> & He & _). split; [reflexivity | exact He].
  - intros (-> & He & _). split; [reflexivity |].
    exists w, err. rewrite He. repeat split.
    apply fetch_failed_app. eapply Hs. eassumption.
Qed.

Lemma senders_insert (ws : list Worker) (w : nat) (p q : Worker) (t t' : list Event) :
  (forall w e, ws !! w = Some (WSendErr e) -> fetch_failed w e t) ->
  ws !! w = Some q ->
  (forall e, p = WSendErr e -> fetch_failed w e (t ++ t')) ->
  forall w' e, <[w := p]> ws !! w' = Some (WSendErr e) -> fetch_failed w' e (t ++ t').
Proof.
  intros Hs Hw Hp w' e Hw'.
  destruct (decide (w = w')) as [<- | Hne].
  - rewrite list_lookup_insert_eq in Hw' by (eapply lookup_lt_Some; exact Hw).
    injection Hw' as ->. apply Hp. reflexivity.
  - rewrite list_lookup_insert_ne in Hw' by exact Hne.
    apply fetch_failed_app, (Hs w' e), Hw'.
Qed.

Lemma step_senders c st st' :
  step s user c st = Some st' -> senders_ok st -> senders_ok st'.
Proof.
  intros H Hs. step_cases H; unfold senders_ok in *;
    cbn [repositories jobs results coord workers trace] in *;
    try exact Hs;
    try (rewrite <- (app_nil_r trace0));
    try (eapply senders_insert; [exact Hs | eassumption |]; intros ? [=]).
  - intros w e Hw. rewrite app_nil_r. apply (Hs w e).
    rewrite lookup_app in Hw. destruct (workers0 !! w); [exact Hw |].
    destruct (w - length workers0)%nat as [| [| ?]]; discriminate.
  - intros w e Hw. rewrite app_nil_r. apply fetch_failed_app, (Hs w e), Hw.
  - rewrite app_nil_r.
    eapply senders_insert; [exact Hs | eassumption |]. intros ? [=].
  - rewrite app_nil_r.
    eapply senders_insert; [exact Hs | eassumption |]. intros ? [= <-].
    eexists _, _. apply in_or_app. right. left. reflexivity.
  - rewrite app_nil_r.
    eapply senders_insert; [exact Hs | eassumption |]. intros ? [=].
Qed.

(** A release fetch that fails takes its repository out of the books. *)
Lemma step_failed c st st' :
  step s user c st = Some st' ->
  failed (trace st') = true ->
  failed (trace st) = true \/ (length (accounted st') < length (accounted st))%nat.
Proof.
  intros H. step_cases H; cbn [trace]; rewrite ?failed_app; cbn [failed existsb is_failure];
    rewrite ?orb_false_r; auto.
  intros _. right. unfold accounted, pending. cbn [coord workers results jobs repositories].
  match goal with
  | E : ?ws !! ?w = Some (WFetch ?r) |- context [held (<[?w := ?p']> ?ws)] =>
      pose proof (Permutation_length (held_insert ws w _ p' E)) as HL
  end.
  cbn [held_of] in HL. rewrite !length_app in *. cbn [length] in HL. lia.
Qed.

Lemma step_closed c st st' :
  step s user c st = Some st' -> closed_ok st -> closed_ok st'.
Proof.
  intros H Hc. step_cases H; unfold closed_ok in *;
    cbn [coord errorsClosed] in *; try exact Hc; eauto;
    intros Ht; destruct (Hc Ht) as (? & ? & ?); discriminate.
Qed.

Lemma blocked_insert (ws : list Worker) (w : nat) (p q : Worker) :
  ws !! w = Some q -> (forall e, q <> WSendErr e) ->
  (exists w0 e, ws !! w0 = Some (WSendErr e)) ->
  exists w0 e, <[w := p]> ws !! w0 = Some (WSendErr e).
Proof.
  intros Hw Hq (w0 & e & Hw0). exists w0, e.
  rewrite list_lookup_insert_ne; [exact Hw0 |].
  intros ->. rewrite Hw in Hw0. injection Hw0 as ->. eapply Hq. reflexivity.
Qed.

Lemma Inv_init (repos : list Repository) (reqs : list string) : Inv s user (pool_init repos reqs).
Proof.
  split; cbn; easy.
Qed.

Lemma collected_accounted (st : State) :
  (length (collected (coord st)) <= length (accounted st))%nat.
Proof.
  unfold accounted. rewrite length_app, length_map. lia.
Qed.

Lemma step_success c st st' :
  step s user c st = Some st' -> Inv s user st ->
  forall items, after_return (coord st') = Some (items, None) ->
                length items = length (repositories st').
Proof.
  intros H HI.
  pose proof (inv_success _ _ _ HI) as Hsucc.
  pose proof (inv_log _ _ _ HI) as Hlog.
  pose proof (submseteq_length _ _ (inv_accounted _ _ _ HI)) as Hacc.
  pose proof (collected_accounted st) as Hcol.
  step_cases H; cbn [repositories coord after_return trace] in *;
    try discriminate; try exact Hsucc.
  intros items' [= <-].
  destruct Hlog as (_ & _ & ->). cbn [collected] in Hcol.
  rewrite (Permutation_length (sortResultItems_Permutation items)).
  unfold jobsCount in *. cbn [repositories] in *.
  apply Z.ltb_ge in E0. lia.
Qed.

Lemma failure_excludes_success (st : State) (items : list ResultItem) :
  Inv s user st -> failed (trace st) = true ->
  after_return (coord st) = Some (items, None) -> False.
Proof.
  intros HI Hf Hr.
  pose proof (inv_success _ _ _ HI _ Hr) as Hlen.
  pose proof (inv_strict _ _ _ HI Hf) as Hlt.
  pose proof (collected_accounted st) as Hcol.
  destruct (coord st); cbn in Hr; try discriminate;
    injection Hr as -> ->; cbn [collected] in Hcol; lia.
Qed.

Lemma step_blocked c st st' :
  step s user c st = Some st' -> Inv s user st -> blocked_ok st'.
Proof.
  intros H HI.
  pose proof (inv_blocked _ _ _ HI) as Hb.
  pose proof (inv_closed _ _ _ HI) as Hc.
  pose proof (failure_excludes_success st) as Hx. specialize (fun items => Hx items HI).
  clear HI.
  step_cases H; unfold blocked_ok, closed_ok in *;
    cbn [coord workers trace errorsClosed after_return] in *;
    rewrite ?failed_app; cbn [failed existsb is_failure]; rewrite ?orb_false_r;
    try exact Hb;
    try (right; eauto; fail);
    try (intros Hf; destruct (Hb Hf) as [Hs | (? & ? & [=])]; left;
         first [ eapply blocked_insert; [eassumption | intros ? [=] | exact Hs]
               | exact Hs ]; fail).
  all: try (intros Hf; destruct (Hb Hf) as [Hs | Hr]; [left | right; exact Hr];
            eapply blocked_insert; [eassumption | intros ? [=] | exact Hs]; fail).
  - intros Hf. destruct (Hb Hf) as [(w & e & Hw) | (? & ? & [=])]. left.
    exists w, e. rewrite lookup_app_l; [exact Hw | eapply lookup_lt_Some; exact Hw].
  - intros _. left. exists w, e.
    apply list_lookup_insert_eq. eapply lookup_lt_Some; eassumption.
  - intros Hf. right. destruct (Hc eq_refl) as (items & [e' |] & ->); cbn; eauto.
    exfalso. eapply (Hx items Hf). reflexivity.
Qed.

Lemma step_Inv c st st' : step s user c st = Some st' -> Inv s user st -> Inv s user st'.
Proof.
  intros H HI. split.
  - rewrite (step_repositories _ _ _ H).
    etransitivity; [apply (step_accounted _ _ _ H) | apply (inv_accounted _ _ _ HI)].
  - apply (step_produced _ _ _ H), (inv_produced _ _ _ HI).
  - apply (step_coord_log _ _ _ H); [apply (inv_senders _ _ _ HI) | apply (inv_log _ _ _ HI)].
  - apply (step_senders _ _ _ H), (inv_senders _ _ _ HI).
  - intros Hf. rewrite (step_repositories _ _ _ H).
    pose proof (step_accounted_length _ _ _ H) as Hle.
    pose proof (submseteq_length _ _ (inv_accounted _ _ _ HI)) as Hacc.
    destruct (step_failed _ _ _ H Hf) as [Hf' | Hlt].
    + pose proof (inv_strict _ _ _ HI Hf'). lia.
    + lia.
  - apply (step_success _ _ _ H HI).
  - apply (step_closed _ _ _ H), (inv_closed _ _ _ HI).
  - apply (step_blocked _ _ _ H HI).
Qed.

Lemma run_Inv sched : forall st st', run s user sched st = Some st' -> Inv s user st -> Inv s user st'.
Proof.
  induction sched as [| c sched IH]; intros st st' H HI; cbn in H.
  - injection H as <-. exact HI.
  - destruct (step s user c st) as [st1 |] eqn:E; [| discriminate].
    eapply IH; [exact H |]. eapply step_Inv; eassumption.
Qed.

Lemma run_repositories sched :
  forall st st', run s user sched st = Some st' -> repositories st' = repositories st.
Proof.
  induction sched as [| c sched IH]; intros st st' H; cbn in H.
  - injection H as <-. reflexivity.
  - destruct (step s user c st) as [st1 |] eqn:E; [| discriminate].
    rewrite (IH _ _ H). eapply step_repositories, E.
Qed.

Lemma run_app sched sched' st :
  run s user (sched ++ sched') st
  = match run s user sched st with
    | Some st1 => run s user sched' st1
    | None => None
    end.
Proof.
  revert st. induction sched as [| c sched IH]; intros st; cbn; [reflexivity |].
  destruct (step s user c st); [apply IH | reflexivity].
Qed.

(** The event log only grows. *)
Lemma step_trace c st st' :
  step s user c st = Some st' -> exists t, trace st' = (trace st ++ t)%list.
Proof.
  intros H. step_cases H; cbn [trace]; eauto; exists []; symmetry; apply app_nil_r.
Qed.

Lemma run_trace sched :
  forall st st', run s user sched st = Some st' ->
                 exists t, trace st' = (trace st ++ t)%list.
Proof.
  induction sched as [| c sched IH]; intros st st' H; cbn in H.
  - injection H as <-. exists []. symmetry. apply app_nil_r.
  - destruct (step s user c st) as [st1 |] eqn:E; [| discriminate].
    destruct (step_trace _ _ _ E) as [t Ht], (IH _ _ H) as [t' Ht'].
    exists (t ++ t')%list. rewrite Ht', Ht, app_assoc. reflexivity.
Qed.

Lemma run_failed sched st st' :
  run s user sched st = Some st' -> failed (trace st) = true -> failed (trace st') = true.
Proof.
  intros H Hf. destruct (run_trace _ _ _ H) as [t ->].
  rewrite failed_app, Hf. reflexivity.
Qed.

(** *** The coordinator is never stuck on the way to its return *)

Lemma finish_defers st items err :
  after_return (coord st) = Some (items, err) ->
  exists sched st',
    Forall is_coordinator sched /\ run s user sched st = Some st'
    /\ returned st' = Some (items, err) /\ workers st' = workers st.
Proof.
  intros H. destruct st as [? ? ? ? ? ? ? c ? ? ?]. cbn in H.
  destruct c; try discriminate; injection H as -> ->.
  - exists [Coordinate; Coordinate; Coordinate]. eexists.
    split; [repeat constructor | split; [reflexivity | split; reflexivity]].
  - exists [Coordinate; Coordinate]. eexists.
    split; [repeat constructor | split; [reflexivity | split; reflexivity]].
  - exists [Coordinate]. eexists.
    split; [repeat constructor | split; [reflexivity | split; reflexivity]].
  - exists []. eexists.
    split; [constructor | split; [reflexivity | split; reflexivity]].
Qed.

Lemma finish_collect st i items :
  Inv s user st -> failed (trace st) = true -> coord st = CCollect i items ->
  exists w cause st',
    workers st !! w = Some (WSendErr cause)
    /\ step s user (Deliver w) st = Some st'
    /\ coord st' = CDeferCancel items (Some (AccountScanFailed user cause)).
Proof.
  intros HI Hf Hc.
  pose proof (inv_strict _ _ _ HI Hf) as Hlt.
  pose proof (collected_accounted st) as Hcol.
  pose proof (inv_log _ _ _ HI) as Hlog.
  destruct (inv_blocked _ _ _ HI Hf) as [(w & e & Hw) | (? & ? & Hr)];
    [| rewrite Hc in Hr; discriminate].
  rewrite Hc in Hlog, Hcol. cbn in Hlog, Hcol. destruct Hlog as (_ & _ & Hi).
  exists w, e. cbn [step]. unfold deliver. rewrite Hc, Hw.
  destruct (Z.ltb_spec i (jobsCount st)) as [_ | Hge].
  - eexists. split; [reflexivity | split; reflexivity].
  - unfold jobsCount in Hge. lia.
Qed.

Lemma finish_enqueue :
  forall rest st, Inv s user st -> coord st = CEnqueue rest ->
    exists sched st',
      Forall is_coordinator sched /\ run s user sched st = Some st'
      /\ coord st' = CCollect 0 [].
Proof.
  induction rest as [| r rest IH]; intros st HI Hc.
  - exists [Coordinate]. eexists. split; [repeat constructor |].
    cbn. unfold coordinate. rewrite Hc. split; reflexivity.
  - pose proof (submseteq_length _ _ (inv_accounted _ _ _ HI)) as Hacc.
    unfold accounted, pending in Hacc. rewrite Hc in Hacc.
    rewrite !length_app in Hacc. cbn [length] in Hacc.
    assert (Hstep : exists st1, step s user Coordinate st = Some st1
                                /\ coord st1 = CEnqueue rest).
    { cbn. unfold coordinate. rewrite Hc.
      destruct (Z.ltb_spec (Z.of_nat (length (jobs st))) (jobsCount st)) as [_ | Hge].
      - eexists. split; reflexivity.
      - unfold jobsCount in Hge. lia. }
    destruct Hstep as (st1 & Hstep & Hc1).
    destruct (IH st1 (step_Inv _ _ _ Hstep HI) Hc1) as (sched & st' & Hs & Hrun & Hc').
    exists (Coordinate :: sched), st'. split; [constructor; [exact I | exact Hs] |].
    split; [| exact Hc']. cbn [run]. rewrite Hstep. exact Hrun.
Qed.

Lemma finish_spawn :
  forall n i st, Z.to_nat (workersCount st - i) = n -> coord st = CSpawn i ->
    exists sched st',
      Forall is_coordinator sched /\ run s user sched st = Some st'
      /\ coord st' = CEnqueue (repositories st').
Proof.
  induction n as [| n IH]; intros i st Hn Hc.
  - exists [Coordinate]. eexists. split; [repeat constructor |].
    cbn. unfold coordinate. rewrite Hc.
    destruct (Z.ltb_spec i (workersCount st)); [lia |]. split; reflexivity.
  - assert (Hstep : exists st1, step s user Coordinate st = Some st1
                                /\ coord st1 = CSpawn (i + 1)
                                /\ workersCount st1 = workersCount st).
    { cbn. unfold coordinate. rewrite Hc.
      destruct (Z.ltb_spec i (workersCount st)); [| lia].
      eexists. split; [reflexivity | split; reflexivity]. }
    destruct Hstep as (st1 & Hstep & Hc1 & HW).
    destruct (IH (i + 1) st1) as (sched & st' & Hs & Hrun & Hc'); [lia | exact Hc1 |].
    exists (Coordinate :: sched), st'. split; [constructor; [exact I | exact Hs] |].
    split; [| exact Hc']. cbn [run]. rewrite Hstep. exact Hrun.
Qed.

Lemma finish_from_collect st i items :
  Inv s user st -> failed (trace st) = true -> coord st = CCollect i items ->
  exists sched st' e,
    Forall is_coordinator sched /\ run s user sched st = Some st'
    /\ returned st' = Some (items, Some e).
Proof.
  intros HI Hf Hc.
  destruct (finish_collect _ _ _ HI Hf Hc) as (w & cause & st1 & _ & Hstep & Hc1).
  destruct (finish_defers st1 items (Some (AccountScanFailed user cause)))
    as (sched & st' & Hs & Hrun & Hret & _); [rewrite Hc1; reflexivity |].
  exists (Deliver w :: sched), st', (AccountScanFailed user cause).
  split; [constructor; [exact I | exact Hs] |].
  split; [| exact Hret]. cbn [run]. rewrite Hstep. exact Hrun.
Qed.

Lemma finish_from_enqueue st rest :
  Inv s user st -> failed (trace st) = true -> coord st = CEnqueue rest ->
  exists sched st' items e,
    Forall is_coordinator sched /\ run s user sched st = Some st'
    /\ returned st' = Some (items, Some e).
Proof.
  intros HI Hf Hc.
  destruct (finish_enqueue _ _ HI Hc) as (sched1 & st1 & Hs1 & Hrun1 & Hc1).
  destruct (finish_from_collect st1 0 [] (run_Inv _ _ _ Hrun1 HI)
              (run_failed _ _ _ Hrun1 Hf) Hc1)
    as (sched2 & st' & e & Hs2 & Hrun2 & Hret).
  exists (sched1 ++ sched2)%list, st', [], e.
  split; [apply Forall_app; split; assumption |].
  split; [| exact Hret]. rewrite run_app, Hrun1. exact Hrun2.
Qed.

(** Once a release fetch has failed, the coordinator reaches its return with
    an error by steps of its own, whatever the workers do or fail to do. *)
Lemma coordinator_finishes st :
  Inv s user st -> failed (trace st) = true ->
  exists sched st' items e,
    Forall is_coordinator sched /\ run s user sched st = Some st'
    /\ returned st' = Some (items, Some e).
Proof.
  intros HI Hf. destruct (coord st) as [i | rest | i items | | | |] eqn:Hc.
  - destruct (finish_spawn _ i st eq_refl Hc) as (sched1 & st1 & Hs1 & Hrun1 & Hc1).
    destruct (finish_from_enqueue st1 _ (run_Inv _ _ _ Hrun1 HI)
                (run_failed _ _ _ Hrun1 Hf) Hc1)
      as (sched2 & st' & items & e & Hs2 & Hrun2 & Hret).
    exists (sched1 ++ sched2)%list, st', items, e.
    split; [apply Forall_app; split; assumption |].
    split; [| exact Hret]. rewrite run_app, Hrun1. exact Hrun2.
  - eapply finish_from_enqueue; eassumption.
  - destruct (finish_from_collect st i items HI Hf Hc) as (sched & st' & e & H).
    exists sched, st', items, e. exact H.
  - destruct err as [e |].
    + destruct (finish_defers st items (Some e)) as (sched & st' & Hs & Hrun & Hret & _);
        [rewrite Hc; reflexivity |]. exists sched, st', items, e. auto.
    + exfalso. eapply (failure_excludes_success st items HI Hf). rewrite Hc. reflexivity.
  - destruct err as [e |].
    + destruct (finish_defers st items (Some e)) as (sched & st' & Hs & Hrun & Hret & _);
        [rewrite Hc; reflexivity |]. exists sched, st', items, e. auto.
    + exfalso. eapply (failure_excludes_success st items HI Hf). rewrite Hc. reflexivity.
  - destruct err as [e |].
    + destruct (finish_defers st items (Some e)) as (sched & st' & Hs & Hrun & Hret & _);
        [rewrite Hc; reflexivity |]. exists sched, st', items, e. auto.
    + exfalso. eapply (failure_excludes_success st items HI Hf). rewrite Hc. reflexivity.
  - destruct err as [e |].
    + destruct (finish_defers st items (Some e)) as (sched & st' & Hs & Hrun & Hret & _);
        [rewrite Hc; reflexivity |]. exists sched, st', items, e. auto.
    + exfalso. eapply (failure_excludes_success st items HI Hf). rewrite Hc. reflexivity.
Qed.

(** *** A release fetch has one outcome *)

Lemma GetAllReleases_loop_mono (fuel : nat) (repository : string) :
  forall fuel' acc page log x,
    GetAllReleases_loop fuel s user repository acc page log = Some x ->
    (fuel <= fuel')%nat ->
    GetAllReleases_loop fuel' s user repository acc page log = Some x.
Proof.
  induction fuel as [| fuel IH]; intros fuel' acc page log x H Hle; [discriminate |].
  destruct fuel' as [| fuel']; [lia |].
  cbn [GetAllReleases_loop] in *.
  destruct (GetReleasesPerPage s user repository page) as [[chunk [e |]] reqs];
    [exact H |].
  destruct (_ <? _); [exact H |].
  apply IH; [exact H | lia].
Qed.

Lemma fetched_unique (r : Repository) (rels rels' : list Release) :
  fetched s user r rels -> fetched s user r rels' -> rels = rels'.
Proof.
  intros (f1 & q1 & H1) (f2 & q2 & H2). unfold GetAllReleases in *.
  apply (GetAllReleases_loop_mono _ _ (max f1 f2)) in H1; [| lia].
  apply (GetAllReleases_loop_mono _ _ (max f1 f2)) in H2; [| lia].
  congruence.
Qed.

Lemma NoDup_map_eq {A B : Type} (f : A -> B) (l : list A) (x y : A) :
  NoDup (map f l) -> x ∈ l -> y ∈ l -> f x = f y -> x = y.
Proof.
  induction l as [| a l IH]; cbn; intros Hnd Hx Hy Hf.
  - apply elem_of_nil in Hx. contradiction.
  - apply NoDup_cons in Hnd as [Hna Hnd].
    apply elem_of_cons in Hx as [-> | Hx], Hy as [-> | Hy]; auto.
    + exfalso. apply Hna. rewrite Hf. apply (list_elem_of_fmap_2 f), Hy.
    + exfalso. apply Hna. rewrite <- Hf. apply (list_elem_of_fmap_2 f), Hx.
Qed.

Lemma items_determined (repos : list Repository) :
  NoDup (map FullName repos) ->
  forall l1 l2 : list ResultItem,
    (forall item, item ∈ l1 -> Repo item ∈ repos) ->
    (forall item, item ∈ l2 -> Repo item ∈ repos) ->
    Forall (produced s user) l1 -> Forall (produced s user) l2 ->
    map (fun item => FullName (Repo item)) l1 = map (fun item => FullName (Repo item)) l2 ->
    l1 = l2.
Proof.
  intros Hnd. induction l1 as [| a l1 IH]; intros [| b l2] H1 H2 P1 P2 Hn;
    try discriminate; [reflexivity |].
  cbn in Hn. injection Hn as Hab Hn.
  apply Forall_cons in P1 as [Pa P1], P2 as [Pb P2].
  assert (Hr : Repo a = Repo b).
  { apply (NoDup_map_eq FullName repos); auto; [apply H1 | apply H2]; left. }
  assert (a = b) as ->.
  { unfold produced in Pa, Pb. rewrite Hr in Pa.
    pose proof (fetched_unique _ _ _ Pa Pb) as Hrel.
    destruct a, b. cbn in *. congruence. }
  f_equal. apply IH; auto; intros item Hi; [apply H1 | apply H2]; right; exact Hi.
Qed.

(** What the invariant says of a scan that has returned. *)
Lemma returned_coord st items err :
  returned st = Some (items, err) -> coord st = CReturned items err.
Proof. unfold returned. destruct (coord st); congruence. Qed.

Lemma success_permutation st items :
  Inv s user st -> returned st = Some (items, None) ->
  length items = length (repositories st)
  /\ map Repo items ≡ₚ repositories st
  /\ Forall (produced s user) items
  /\ items = sortResultItems (delivered (trace st)).
Proof.
  intros HI Hr. apply returned_coord in Hr.
  assert (Hlen : length items = length (repositories st)).
  { apply (inv_success _ _ _ HI). rewrite Hr. reflexivity. }
  split; [exact Hlen |]. split; [| split].
  - apply submseteq_length_Permutation.
    + etransitivity; [| apply (inv_accounted _ _ _ HI)].
      unfold accounted. rewrite Hr. cbn [collected].
      apply submseteq_inserts_r. reflexivity.
    + rewrite length_map. lia.
  - pose proof (inv_produced _ _ _ HI) as Hp. unfold all_items in Hp. rewrite Hr in Hp.
    apply Forall_app in Hp as [Hp _]. exact Hp.
  - pose proof (inv_log _ _ _ HI) as Hl. rewrite Hr in Hl. apply Hl.
Qed.

Lemma entry_success fuel st0 sched st items :
  ScanRepositories_entry s user fuel = Some st0 ->
  run s user sched st0 = Some st ->
  returned st = Some (items, None) ->
  exists reqs,
    GetAllRepositories fuel s user = Some ((repositories st0, None), reqs)
    /\ st0 = pool_init (repositories st0) reqs.
Proof.
  unfold ScanRepositories_entry. intros He Hrun Hret.
  destruct (GetAllRepositories fuel s user) as [[[repos [e |]] reqs] |];
    try discriminate; injection He as <-.
  - destruct sched; cbn in Hrun; [| destruct c; discriminate].
    injection Hrun as <-. discriminate.
  - exists reqs. split; reflexivity.
Qed.

(** ** The scan *)

(** C4. A scan that succeeds over the N repositories of the listing returns
    exactly N items, one for each repository of the listing (the repositories
    of the items are the listing up to order, each occurrence once); every
    item carries the releases that [GetAllReleases] yields for its own
    repository, and when repository r has [M r] releases the items hold the
    sum of the [M r] releases in total. *)
Theorem scan_completeness
    (fuel : nat) (sched : list Choice) (repos : list Repository) (reqs : list string)
    (items : list ResultItem) (M : Repository -> nat) :
  GetAllRepositories fuel s user = Some ((repos, None), reqs) ->
  ScanRepositories s user fuel sched = Some (items, None) ->
  Forall (fun r => exists rels, fetched s user r rels /\ length rels = M r) repos ->
  length items = length repos
  /\ map Repo items ≡ₚ repos
  /\ Forall (fun item => fetched s user (Repo item) (Releases item)) items
  /\ list_sum (map (fun item => length (Releases item)) items) = list_sum (map M repos).
Proof.
  intros Hlist Hscan HM. unfold ScanRepositories, ScanRepositories_entry in Hscan.
  rewrite Hlist in Hscan.
  destruct (run s user sched (pool_init repos reqs)) as [st |] eqn:Hrun; [| discriminate].
  pose proof (run_Inv _ _ _ Hrun (Inv_init repos reqs)) as HI.
  destruct (success_permutation st items HI Hscan) as (Hlen & Hperm & Hprod & _).
  rewrite (run_repositories _ _ _ Hrun) in Hlen, Hperm. cbn [repositories pool_init] in *.
  split; [exact Hlen |]. split; [exact Hperm |]. split; [exact Hprod |].
  rewrite <- Hperm, map_map. f_equal. apply map_ext_in. intros item Hin.
  rewrite Forall_forall in HM. rewrite Forall_forall in Hprod.
  destruct (HM (Repo item)) as (rels & Hf & <-).
  { rewrite <- Hperm. apply (list_elem_of_fmap_2 Repo), list_elem_of_In, Hin. }
  f_equal. eapply fetched_unique; [apply Hprod, list_elem_of_In, Hin | exact Hf].
Qed.

(** C5. The items a successful scan returns are the items the coordinator
    received, sorted by [sortResultItems]: ascending in the bytewise
    lexicographic order of [Repository.FullName], items of equal full name in
    the order of their arrival (a stable sort). Whatever the order in which
    the workers deliver, the returned sequence shows the same full names at
    the same positions, and when the full names of the listing are pairwise
    distinct it is the same sequence of items. *)
Theorem result_sorted_by_full_name
    (fuel : nat) (sched : list Choice) (st0 st : State) (items : list ResultItem) :
  ScanRepositories_entry s user fuel = Some st0 ->
  run s user sched st0 = Some st ->
  returned st = Some (items, None) ->
  items = sortResultItems (delivered (trace st))
  /\ StronglySorted by_FullName items
  /\ (forall name,
        List.filter (has_FullName name) items
        = List.filter (has_FullName name) (delivered (trace st)))
  /\ (forall sched' st' items',
        run s user sched' st0 = Some st' ->
        returned st' = Some (items', None) ->
        map (fun item => FullName (Repo item)) items'
        = map (fun item => FullName (Repo item)) items
        /\ (NoDup (map FullName (repositories st0)) -> items' = items)).
Proof.
  intros He Hrun Hret.
  destruct (entry_success _ _ _ _ _ He Hrun Hret) as (reqs & _ & E0).
  assert (HI0 : Inv s user st0) by (rewrite E0; apply Inv_init).
  pose proof (run_Inv _ _ _ Hrun HI0) as HI.
  destruct (success_permutation st items HI Hret) as (_ & Hperm & Hprod & Hsort).
  rewrite (run_repositories _ _ _ Hrun) in Hperm.
  assert (Hsorted : StronglySorted by_FullName items)
    by (rewrite Hsort; apply sortResultItems_sorted).
  split; [exact Hsort |]. split; [exact Hsorted |]. split.
  { intros name. rewrite Hsort at 1. apply sortResultItems_stable. }
  intros sched' st' items' Hrun' Hret'.
  pose proof (run_Inv _ _ _ Hrun' HI0) as HI'.
  destruct (success_permutation st' items' HI' Hret') as (_ & Hperm' & Hprod' & Hsort').
  rewrite (run_repositories _ _ _ Hrun') in Hperm'.
  assert (Hnames : map (fun item => FullName (Repo item)) items'
                   = map (fun item => FullName (Repo item)) items).
  { apply sorted_names_unique; [rewrite Hsort'; apply sortResultItems_sorted | exact Hsorted |].
    rewrite Hperm, Hperm'. reflexivity. }
  split; [exact Hnames |]. intros Hnd.
  apply (items_determined (repositories st0) Hnd); auto.
  - intros item Hi. rewrite <- Hperm'. apply (list_elem_of_fmap_2 Repo), Hi.
  - intros item Hi. rewrite <- Hperm. apply (list_elem_of_fmap_2 Repo), Hi.
Qed.

Lemma existsb_insert_same {A : Type} (f : A -> bool) (l : list A) (i : nat) (x y : A) :
  l !! i = Some x -> f y = f x -> existsb f (<[i := y]> l) = existsb f l.
Proof.
  revert i. induction l as [| a l IH]; intros [| i] Hl Hf; try discriminate; cbn in *.
  - injection Hl as ->. rewrite Hf. reflexivity.
  - f_equal. apply IH; assumption.
Qed.

(** A step of the coordinator makes no worker panic. *)
Lemma step_coordinator_panicked c st st' :
  is_coordinator c -> step s user c st = Some st' -> panicked st' = panicked st.
Proof.
  intros Hc Hstep. unfold panicked.
  step_cases Hstep; try (exfalso; exact Hc); cbn [workers]; try reflexivity.
  - rewrite existsb_app. cbn. rewrite !orb_false_r. reflexivity.
  - eapply existsb_insert_same; [eassumption | reflexivity].
Qed.

Lemma run_coordinator_panicked sched :
  forall st st', Forall is_coordinator sched -> run s user sched st = Some st' ->
                 panicked st' = panicked st.
Proof.
  induction sched as [| c sched IH]; intros st st' Hall Hrun; cbn in Hrun.
  - injection Hrun as <-. reflexivity.
  - destruct (step s user c st) as [st1 |] eqn:Hstep; [| discriminate].
    apply Forall_cons in Hall as [Hc Hall].
    rewrite (IH _ _ Hall Hrun). apply (step_coordinator_panicked _ _ _ Hc Hstep).
Qed.

(** C2, as the code has it. In every scan in which a release fetch of some
    worker has failed:
    (1) if the function has returned, or is running its deferred calls, it
    returns an error and not success; the coordinator has taken exactly one
    error from the [errors] channel, and the error returned is that one, with
    the text [could not scan repository for the account <user>: <cause>],
    where <cause> is the error of a worker whose fetch failed: the worker
    whose send the coordinator received, whichever fetch failed first;
    (2) the error the coordinator takes from [errors] is the first it takes,
    and taking it is its last statement but for the three deferred calls:
    they end the function with that error and no step of any worker, sent or
    unsent errors of other workers included;
    (3) as long as no worker has panicked, the coordinator does return an
    error: it reaches its return by steps of its own from every such state,
    and no worker panics on the way. *)
Theorem first_drained_error_wins (fuel : nat) (sched : list Choice) (st0 st : State) :
  ScanRepositories_entry s user fuel = Some st0 ->
  run s user sched st0 = Some st ->
  failed (trace st) = true ->
  (forall items err,
      after_return (coord st) = Some (items, err) ->
      exists w cause,
        err = Some ("could not scan repository for the account " ++ user ++ ": " ++ cause)
        /\ drained_errors (trace st) = [(w, cause)]
        /\ fetch_failed w cause (trace st))
  /\ (forall w st1,
        step s user (Deliver w) st = Some st1 ->
        exists items cause st2,
          workers st !! w = Some (WSendErr cause)
          /\ fetch_failed w cause (trace st)
          /\ drained_errors (trace st) = []
          /\ drained_errors (trace st1) = [(w, cause)]
          /\ run s user [Coordinate; Coordinate; Coordinate] st1 = Some st2
          /\ returned st2
             = Some (items,
                     Some ("could not scan repository for the account " ++ user ++ ": "
                             ++ cause))
          /\ workers st2 = workers st1)
  /\ (panicked st = false ->
      exists sched' st' items e,
        Forall is_coordinator sched'
        /\ run s user sched' st = Some st'
        /\ returned st' = Some (items, Some e)
        /\ panicked st' = false).
Proof.
  intros He Hrun Hf.
  assert (HI0 : Inv s user st0).
  { unfold ScanRepositories_entry in He.
    destruct (GetAllRepositories fuel s user) as [[[repos [e |]] reqs] |];
      try discriminate; injection He as <-; [| apply Inv_init].
    exfalso. destruct sched; cbn in Hrun; [| destruct c; discriminate].
    injection Hrun as <-. discriminate. }
  pose proof (run_Inv _ _ _ Hrun HI0) as HI.
  split; [| split].
  - intros items [e |] Hr.
    + pose proof (inv_log _ _ _ HI) as Hl.
      destruct (coord st); cbn in Hr; try discriminate; injection Hr as -> ->;
        cbn in Hl; destruct Hl as (_ & w & cause & -> & Hd & Hff); eauto.
    + exfalso. eapply failure_excludes_success; eassumption.
  - intros w st1 Hstep. cbn [step] in Hstep. unfold deliver in Hstep.
    pose proof (inv_log _ _ _ HI) as Hl.
    destruct (coord st) as [| | i items | | | |] eqn:Hc; try discriminate.
    destruct (workers st !! w) as [[| | | cause | | | |] |] eqn:Hw; try discriminate.
    destruct (i <? jobsCount st); [| discriminate]. injection Hstep as <-.
    cbn in Hl. destruct Hl as (_ & Hd & _).
    exists items, cause. eexists. split; [reflexivity |].
    split; [apply (inv_senders _ _ _ HI), Hw |].
    split; [exact Hd |].
    split; [cbn [trace]; rewrite drained_errors_app, Hd; reflexivity |].
    split; [reflexivity |]. split; reflexivity.
  - intros Hp.
    destruct (coordinator_finishes st HI Hf) as (sched' & st' & items & e & Hc & Hr & Hret).
    exists sched', st', items, e. repeat split; try assumption.
    rewrite (run_coordinator_panicked _ _ _ Hc Hr). exact Hp.
Qed.

(** With an error from the pool, the caller receives every item the
    coordinator had received before it took the error. *)
Lemma error_comes_with_received_items
    (repos : list Repository) (reqs : list string) (sched : list Choice) (st : State)
    (items : list ResultItem) (e : error) :
  run s user sched (pool_init repos reqs) = Some st ->
  returned st = Some (items, Some e) ->
  items = delivered (trace st).
Proof.
  intros Hrun Hret.
  pose proof (inv_log _ _ _ (run_Inv _ _ _ Hrun (Inv_init repos reqs))) as Hl.
  rewrite (returned_coord _ _ _ Hret) in Hl. apply Hl.
Qed.

(** C6, as the code has it. When the listing of the repositories fails,
    [ScanRepositories] returns the error of [GetAllRepositories] as it is,
    without the account-scan context, and no items; it has started no worker,
    has fetched s user no releases (its only requests are those of the listing) and
    nothing of it runs on. *)
Theorem listing_failure_returned_as_is
    (fuel : nat) (repos : list Repository) (cause : error) (reqs : list string) :
  GetAllRepositories fuel s user = Some ((repos, Some cause), reqs) ->
  exists st0,
    ScanRepositories_entry s user fuel = Some st0
    /\ returned st0 = Some ([], Some cause)
    /\ ScanRepositories s user fuel [] = Some ([], Some cause)
    /\ workers st0 = []
    /\ trace st0 = []
    /\ requests st0 = reqs
    /\ forall c, step s user c st0 = None.
Proof.
  intros H. exists (listing_failed cause reqs).
  unfold ScanRepositories, ScanRepositories_entry. rewrite H. cbn.
  repeat split. intros [| w | w fuel']; reflexivity.
Qed.

End PoolProperties.

(** ** The properties at work on the stub forge *)

Module Examples.
Import Stub Scenario.

(** C1. An error of [ScanRepositories] should come with no items; the code
    lets items through. With the account [evil], worker 0 delivers the item
    of [evil/a] and worker 1 fails on [evil/b]: the coordinator has appended
    the item to the named result [items] (line 102) when it takes the error,
    and the bare [return] of line 100 hands both to the caller. *)
Theorem error_returned_with_partial_items :
  ScanRepositories (net := forge) plain "evil" 5 partial_schedule
  = Some ([mkResultItem (repo "evil" "a") [mkRelease "v1"]],
          Some "could not scan repository for the account evil: could not get releases for the repository b: forbidden").
Proof. vm_compute. reflexivity. Qed.

(** C6, as the claim states it, fails: the account [ghost] is answered 404,
    and the error returned is that of the listing, not its wrapping. *)
Lemma listing_failure_is_not_wrapped :
  ~ (forall (net : Net) (s : Scanner) (user : string) (fuel : nat)
            (repos : list Repository) (cause : error) (reqs : list string),
        GetAllRepositories fuel s user = Some ((repos, Some cause), reqs) ->
        ScanRepositories s user fuel []
        = Some ([], Some (AccountScanFailed user cause))).
Proof.
  intros H.
  specialize (H forge plain "ghost" 5%nat [] "account ghost does not exist"
                ["http://forge/users/ghost/repos?per_page=100&page=1"] eq_refl).
  vm_compute in H. discriminate H.
Qed.

Lemma listing_failure_returned_as_is_witness :
  exists st0,
    ScanRepositories_entry (net := forge) plain "ghost" 5 = Some st0
    /\ returned st0 = Some ([], Some "account ghost does not exist")
    /\ ScanRepositories (net := forge) plain "ghost" 5 []
       = Some ([], Some "account ghost does not exist")
    /\ workers st0 = []
    /\ trace st0 = []
    /\ requests st0 = ["http://forge/users/ghost/repos?per_page=100&page=1"]
    /\ forall c, step (net := forge) plain "ghost" c st0 = None.
Proof.
  apply (listing_failure_returned_as_is (net := forge) plain "ghost" 5 []).
  vm_compute. reflexivity.
Defined.

Lemma invalid_arguments_issue_no_request_witness :
  (exists e, GetRepositoriesPerPage (net := forge) plain "" 1 = (([], Some e), [])
     /\ (e = "page could not be less than 1" \/ e = "user name could not be empty"))
  /\
  (exists e, GetReleasesPerPage (net := forge) plain "acme" "" 0 = (([], Some e), [])
     /\ (e = "page could not be less than 1" \/ e = "user name could not be empty"
         \/ e = "repository name could not be empty")).
Proof.
  split.
  - apply (proj1 (invalid_arguments_issue_no_request (net := forge) plain "" "a" 1)).
    left. reflexivity.
  - apply (proj2 (invalid_arguments_issue_no_request (net := forge) plain "acme" "" 0)).
    right. right. lia.
Defined.

Lemma non_200_classification_witness :
  GetRepositoriesPerPage (net := forge) plain "ghost" 1
  = (([], Some "account ghost does not exist"),
     ["http://forge/users/ghost/repos?per_page=100&page=1"])
  /\ GetRepositoriesPerPage (net := forge) plain "down" 1
     = (([], Some "could not get repositories for the account down: 503 Service Unavailable"),
        ["http://forge/users/down/repos?per_page=100&page=1"])
  /\ GetReleasesPerPage (net := forge) plain "evil" "b" 1
     = (([], Some "could not get releases for the repository b: forbidden"),
        ["http://forge/repos/evil/b/releases?per_page=100&page=1"])
  /\ GetReleasesPerPage (net := forge) plain "ghost" "gone" 1
     = (([], Some "could not get releases for the repository gone: Not Found"),
        ["http://forge/repos/ghost/gone/releases?per_page=100&page=1"]).
Proof.
  split; [| split; [| split]].
  - apply (proj1 (non_200_classification (net := forge) plain "ghost" "gone" 1)
             (mkResponse 404 "404 Not Found" (BodyMessage "Not Found")));
      [lia | discriminate | reflexivity | cbn; lia].
  - apply (proj1 (non_200_classification (net := forge) plain "down" "x" 1)
             (mkResponse 503 "503 Service Unavailable" BodyGarbage));
      [lia | discriminate | reflexivity | cbn; lia].
  - apply (proj2 (non_200_classification (net := forge) plain "evil" "b" 1)
             (mkResponse 403 "403 Forbidden" (BodyMessage "forbidden")));
      [lia | discriminate | discriminate | reflexivity | cbn; lia].
  - apply (proj2 (non_200_classification (net := forge) plain "ghost" "gone" 1)
             (mkResponse 404 "404 Not Found" (BodyMessage "Not Found")));
      [lia | discriminate | discriminate | reflexivity | cbn; lia].
Defined.

(** C7. A response with a status other than 200 whose body carries no
    message should give an error with the HTTP status line; the code gives an
    error with nothing after the prefix. The forge answers the listing of
    [terse] with 500 and the body [{}], and the releases of [terse/r] with
    502 and the body [null]: [json.Unmarshal] accepts both and stores nothing,
    so [getApiErrorMessage] returns the empty [Message] (line 254) and the
    status line, its [defaultMessage], is lost. A body with a message gives
    the message, and a body that is not JSON gives the status line, as the
    claim says. *)
Theorem error_without_message_is_empty :
  http_Get (Net := Terse.forge) "http://forge/users/terse/repos?per_page=100&page=1"
  = inl (mkResponse 500 "500 Internal Server Error" "{}")
  /\ GetRepositoriesPerPage (net := Terse.forge) plain "terse" 1
     = (([], Some "could not get repositories for the account terse: "),
        ["http://forge/users/terse/repos?per_page=100&page=1"])
  /\ http_Get (Net := Terse.forge) "http://forge/repos/terse/r/releases?per_page=100&page=1"
     = inl (mkResponse 502 "502 Bad Gateway" "null")
  /\ GetReleasesPerPage (net := Terse.forge) plain "terse" "r" 1
     = (([], Some "could not get releases for the repository r: "),
        ["http://forge/repos/terse/r/releases?per_page=100&page=1"])
  /\ GetRepositoriesPerPage (net := Terse.forge) plain "limited" 1
     = (([], Some "could not get repositories for the account limited: slow down"),
        ["http://forge/users/limited/repos?per_page=100&page=1"])
  /\ GetRepositoriesPerPage (net := Terse.forge) plain "broken" 1
     = (([], Some "could not get repositories for the account broken: 503 Service Unavailable"),
        ["http://forge/users/broken/repos?per_page=100&page=1"]).
Proof. vm_compute. repeat split. Qed.

Lemma pagination_until_short_page_witness :
  GetAllRepositories (net := forge) 2 paged "test"
  = Some ((concat test_repositories, None),
          map (repositories_url paged "test") [1; 2])
  /\ GetAllReleases (net := forge) 2 paged "test" "test"
     = Some ((concat test_releases, None),
             map (releases_url paged "test" "test") [1; 2]).
Proof.
  pose proof (pagination_until_short_page (net := forge) paged "test" "test" 2)
    as (HR & _ & HL & _).
  split.
  - apply (HR test_repositories).
    + discriminate.
    + exists [[repo "test" "repo1"; repo "test" "repo2"; repo "test" "repo3"]],
        [repo "test" "repo4"; repo "test" "repo5"].
      split; [reflexivity | split; [repeat constructor | cbn; lia]].
    + intros [| [| i]] chunk Hc; cbn in Hc; inversion Hc; subst;
        eexists; (split; [reflexivity | split; reflexivity]).
    + cbn. unfold max_int. lia.
    + cbn. lia.
  - apply (HL test_releases).
    + discriminate.
    + discriminate.
    + exists [[mkRelease "v5"; mkRelease "v4"; mkRelease "v3"]],
        [mkRelease "v2"; mkRelease "v1"].
      split; [reflexivity | split; [repeat constructor | cbn; lia]].
    + intros [| [| i]] chunk Hc; cbn in Hc; inversion Hc; subst;
        eexists; (split; [reflexivity | split; reflexivity]).
    + cbn. unfold max_int. lia.
    + cbn. lia.
Defined.

Lemma pagination_error_has_no_value_witness :
  GetAllRepositories (net := forge) 5 plain "ghost"
  = Some (([], Some "account ghost does not exist"),
          ["http://forge/users/ghost/repos?per_page=100&page=1"])
  /\ (@nil Repository) = []
  /\ GetAllReleases (net := forge) 5 plain "evil" "b"
     = Some (([], Some "could not get releases for the repository b: forbidden"),
             ["http://forge/repos/evil/b/releases?per_page=100&page=1"])
  /\ (@nil Release) = [].
Proof.
  split; [reflexivity |]. split; [| split; [reflexivity |]].
  - apply (proj1 (pagination_error_has_no_value (net := forge) 5 plain "ghost" "b")
             [] "account ghost does not exist"
             ["http://forge/users/ghost/repos?per_page=100&page=1"]).
    vm_compute. reflexivity.
  - apply (proj2 (pagination_error_has_no_value (net := forge) 5 plain "evil" "b")
             [] "could not get releases for the repository b: forbidden"
             ["http://forge/repos/evil/b/releases?per_page=100&page=1"]).
    vm_compute. reflexivity.
Defined.

Lemma scan_completeness_witness :
  let items := [mkResultItem (repo "acme" "a") [mkRelease "v1"];
                mkResultItem (repo "acme" "b") []] in
  let repos := [repo "acme" "b"; repo "acme" "a"] in
  ScanRepositories (net := forge) plain "acme" 5 acme_schedule = Some (items, None)
  /\ length items = length repos
  /\ map Repo items ≡ₚ repos
  /\ Forall (fun item => fetched (net := forge) plain "acme" (Repo item) (Releases item))
       items
  /\ list_sum (map (fun item => length (Releases item)) items)
     = list_sum (map acme_releases repos).
Proof.
  intros items repos. split; [vm_compute; reflexivity |].
  apply (scan_completeness (net := forge) plain "acme" 5 acme_schedule repos
           ["http://forge/users/acme/repos?per_page=100&page=1"] items acme_releases).
  - vm_compute. reflexivity.
  - vm_compute. reflexivity.
  - repeat constructor.
    + exists []. split; [| reflexivity]. exists 1%nat. eexists. vm_compute. reflexivity.
    + exists [mkRelease "v1"]. split; [| reflexivity].
      exists 1%nat. eexists. vm_compute. reflexivity.
Defined.

Lemma result_sorted_by_full_name_witness :
  let items := [mkResultItem (repo "acme" "a") [mkRelease "v1"];
                mkResultItem (repo "acme" "b") []] in
  delivered (trace acme_final)
  = [mkResultItem (repo "acme" "b") []; mkResultItem (repo "acme" "a") [mkRelease "v1"]]
  /\ items = sortResultItems (delivered (trace acme_final))
  /\ StronglySorted by_FullName items.
Proof.
  intros items. split; [reflexivity |].
  destruct (result_sorted_by_full_name (net := forge) plain "acme" 5 acme_schedule
              acme_entry acme_final items) as (H1 & H2 & _).
  - vm_compute. reflexivity.
  - vm_compute. reflexivity.
  - reflexivity.
  - split; assumption.
Defined.

(** C2, as the claim states it, fails. With the account [evil] the fetch of
    worker 1 (for [evil/b]) is the first to fail and that of worker 2 (for
    [evil/c]) the second. Nothing orders the sends of the two workers on
    [errors]: the [select] of the coordinator receives the send of worker 2,
    and the error returned wraps the error of worker 2, not that of the
    first failing worker. *)
Lemma later_failure_can_win :
  ~ (forall (net : Net) (s : Scanner) (user : string) (fuel : nat) (sched : list Choice)
            (st0 st : State) (items : list ResultItem) (err : error),
        ScanRepositories_entry s user fuel = Some st0 ->
        run s user sched st0 = Some st ->
        failed (trace st) = true ->
        returned st = Some (items, Some err) ->
        exists w cause,
          first_failure (trace st) = Some (w, cause)
          /\ err = "could not scan repository for the account " ++ user ++ ": " ++ cause).
Proof.
  intros H.
  destruct (H forge plain "evil" 5%nat
              (Scenario2.two_failures_schedule
                 ++ [Deliver 2; Coordinate; Coordinate; Coordinate])%list
              evil_entry
              (match run (net := forge) plain "evil"
                       [Deliver 2; Coordinate; Coordinate; Coordinate]
                       Scenario2.two_failures with
               | Some st => st
               | None => evil_entry
               end)
              []
              "could not scan repository for the account evil: could not get releases for the repository c: 500 Internal Server Error")
    as (w & cause & Hfirst & Herr);
    try (vm_compute; reflexivity).
  vm_compute in Hfirst. injection Hfirst as <- <-. discriminate Herr.
Qed.

Lemma first_drained_error_wins_witness :
  workers evil_failed
  = [WSelect (repo "evil" "a");
     WSendErr "could not get releases for the repository b: forbidden"; WRange]
  /\ (exists items cause st2,
        workers evil_failed !! 1%nat = Some (WSendErr cause)
        /\ run (net := forge) plain "evil" [Deliver 1; Coordinate; Coordinate; Coordinate]
             evil_failed = Some st2
        /\ returned st2
           = Some (items,
                   Some ("could not scan repository for the account evil: "
                           ++ "could not get releases for the repository b: forbidden")))
  /\ exists sched' st' items e,
       Forall is_coordinator sched'
       /\ run (net := forge) plain "evil" sched' evil_failed = Some st'
       /\ returned st' = Some (items, Some e)
       /\ panicked st' = false.
Proof.
  split; [reflexivity |].
  destruct (first_drained_error_wins (net := forge) plain "evil" 5
              (setup3 ++ [Work 0 1] ++ worker1_fails)%list evil_entry evil_failed)
    as (_ & H2 & H3).
  - vm_compute. reflexivity.
  - vm_compute. reflexivity.
  - reflexivity.
  - split.
    + destruct (H2 1%nat
                  (match step (net := forge) plain "evil" (Deliver 1) evil_failed with
                   | Some st1 => st1
                   | None => evil_failed
                   end) eq_refl)
        as (items & cause & st2 & Hw & _ & _ & _ & Hrun & Hret & _).
      vm_compute in Hw. injection Hw as <-.
      exists items, "could not get releases for the repository b: forbidden", st2.
      split; [reflexivity |]. split; [exact Hrun | exact Hret].
    + apply H3. reflexivity.
Defined.

End Examples.

(** * Further properties *)

(** ** Pagination: failing pages, endless pages, the order of the calls *)

Section PaginationFurther.
Context {net : Net}.

Lemma GetAllRepositories_loop_full s user :
  forall (chunks : list (list Repository)) fuel acc page log,
    user <> "" -> 1 <= page -> page + Z.of_nat (length chunks) <= max_int ->
    Forall (fun chunk => getPerPage s <= Z.of_nat (length chunk)) chunks ->
    (forall i chunk, chunks !! i = Some chunk ->
                     serves_repositories s user (page + Z.of_nat i) chunk) ->
    GetAllRepositories_loop (length chunks + fuel) s user acc page log
    = GetAllRepositories_loop fuel s user (acc ++ concat chunks)%list
        (page + Z.of_nat (length chunks))
        (log ++ map (repositories_url s user) (page_numbers page (length chunks)))%list.
Proof.
  induction chunks as [| chunk chunks IH]; intros fuel acc page log Hu Hp Hmax Hfull Hserve.
  - cbn. rewrite !app_nil_r, Z.add_0_r. reflexivity.
  - cbn [length Nat.add GetAllRepositories_loop].
    pose proof (Hserve 0%nat chunk eq_refl) as H0. rewrite Z.add_0_r in H0.
    rewrite (GetRepositoriesPerPage_served _ _ _ _ Hp Hu H0).
    inversion Hfull as [| ? ? Hc Hfull']; subst.
    destruct (Z.ltb_spec (Z.of_nat (length chunk)) (getPerPage s)); [lia |].
    cbn [length] in Hmax.
    rewrite int_wrap_id by (unfold max_int in *; lia).
    rewrite IH; try assumption; try lia.
    + cbn [concat page_numbers map]. rewrite <- !app_assoc. cbn [app].
      f_equal. lia.
    + intros i c Hi. replace (page + 1 + Z.of_nat i) with (page + Z.of_nat (S i)) by lia.
      apply Hserve. exact Hi.
Qed.

Lemma GetAllReleases_loop_full s user repository :
  forall (chunks : list (list Release)) fuel acc page log,
    user <> "" -> repository <> "" ->
    1 <= page -> page + Z.of_nat (length chunks) <= max_int ->
    Forall (fun chunk => getPerPage s <= Z.of_nat (length chunk)) chunks ->
    (forall i chunk, chunks !! i = Some chunk ->
                     serves_releases s user repository (page + Z.of_nat i) chunk) ->
    GetAllReleases_loop (length chunks + fuel) s user repository acc page log
    = GetAllReleases_loop fuel s user repository (acc ++ concat chunks)%list
        (page + Z.of_nat (length chunks))
        (log ++ map (releases_url s user repository)
                  (page_numbers page (length chunks)))%list.
Proof.
  induction chunks as [| chunk chunks IH];
    intros fuel acc page log Hu Hr Hp Hmax Hfull Hserve.
  - cbn. rewrite !app_nil_r, Z.add_0_r. reflexivity.
  - cbn [length Nat.add GetAllReleases_loop].
    pose proof (Hserve 0%nat chunk eq_refl) as H0. rewrite Z.add_0_r in H0.
    rewrite (GetReleasesPerPage_served _ _ _ _ _ Hp Hu Hr H0).
    inversion Hfull as [| ? ? Hc Hfull']; subst.
    destruct (Z.ltb_spec (Z.of_nat (length chunk)) (getPerPage s)); [lia |].
    cbn [length] in Hmax.
    rewrite int_wrap_id by (unfold max_int in *; lia).
    rewrite IH; try assumption; try lia.
    + cbn [concat page_numbers map]. rewrite <- !app_assoc. cbn [app].
      f_equal. lia.
    + intros i c Hi. replace (page + 1 + Z.of_nat i) with (page + Z.of_nat (S i)) by lia.
      apply Hserve. exact Hi.
Qed.

(** X1. Pagination fails fast. When the forge has served k-1 pages of at least
    the page size in effect and the request for page k ends in an error (a
    transport error, a status other than 200, a body that does not decode),
    [GetAllRepositories] returns that very error with a nil slice, after the
    requests for pages 1..k-1 and those of the failing call: no page is
    requested again and none after it. [GetAllReleases] does the same. *)
Theorem pagination_stops_at_failing_page
    (s : Scanner) (user repository : string) (fuel : nat) :
  (forall (chunks : list (list Repository)) (junk : list Repository) (e : error)
          (reqs : list string),
      user <> "" ->
      Forall (fun chunk => getPerPage s <= Z.of_nat (length chunk)) chunks ->
      (forall i chunk, chunks !! i = Some chunk ->
                       serves_repositories s user (Z.of_nat (S i)) chunk) ->
      GetRepositoriesPerPage s user (Z.of_nat (S (length chunks)))
      = ((junk, Some e), reqs) ->
      Z.of_nat (S (length chunks)) <= max_int ->
      (length chunks < fuel)%nat ->
      GetAllRepositories fuel s user
      = Some (([], Some e),
              (map (repositories_url s user) (page_numbers 1 (length chunks))
                 ++ reqs)%list))
  /\
  (forall (chunks : list (list Release)) (junk : list Release) (e : error)
          (reqs : list string),
      user <> "" -> repository <> "" ->
      Forall (fun chunk => getPerPage s <= Z.of_nat (length chunk)) chunks ->
      (forall i chunk, chunks !! i = Some chunk ->
                       serves_releases s user repository (Z.of_nat (S i)) chunk) ->
      GetReleasesPerPage s user repository (Z.of_nat (S (length chunks)))
      = ((junk, Some e), reqs) ->
      Z.of_nat (S (length chunks)) <= max_int ->
      (length chunks < fuel)%nat ->
      GetAllReleases fuel s user repository
      = Some (([], Some e),
              (map (releases_url s user repository) (page_numbers 1 (length chunks))
                 ++ reqs)%list)).
Proof.
  split.
  - intros chunks junk e reqs Hu Hfull Hserve Hfail Hmax Hfuel.
    unfold GetAllRepositories.
    replace fuel with (length chunks + S (fuel - S (length chunks)))%nat by lia.
    rewrite GetAllRepositories_loop_full; try assumption; try lia.
    + cbn [GetAllRepositories_loop app].
      replace (1 + Z.of_nat (length chunks)) with (Z.of_nat (S (length chunks))) by lia.
      rewrite Hfail. reflexivity.
    + intros i c Hi. replace (1 + Z.of_nat i) with (Z.of_nat (S i)) by lia. auto.
  - intros chunks junk e reqs Hu Hr Hfull Hserve Hfail Hmax Hfuel.
    unfold GetAllReleases.
    replace fuel with (length chunks + S (fuel - S (length chunks)))%nat by lia.
    rewrite GetAllReleases_loop_full; try assumption; try lia.
    + cbn [GetAllReleases_loop app].
      replace (1 + Z.of_nat (length chunks)) with (Z.of_nat (S (length chunks))) by lia.
      rewrite Hfail. reflexivity.
    + intros i c Hi. replace (1 + Z.of_nat i) with (Z.of_nat (S i)) by lia. auto.
Qed.

Lemma GetAllRepositories_loop_endless s user :
  user <> "" ->
  (forall page, 1 <= page ->
     exists chunk, serves_repositories s user page chunk
                   /\ getPerPage s <= Z.of_nat (length chunk)) ->
  forall fuel acc page log,
    1 <= page -> page + Z.of_nat fuel <= max_int + 1 ->
    GetAllRepositories_loop fuel s user acc page log = None.
Proof.
  intros Hu Hall. induction fuel as [| fuel IH]; intros acc page log Hp Hmax;
    [reflexivity |].
  cbn [GetAllRepositories_loop].
  destruct (Hall page Hp) as (chunk & Hserve & Hlen).
  rewrite (GetRepositoriesPerPage_served _ _ _ _ Hp Hu Hserve).
  destruct (Z.ltb_spec (Z.of_nat (length chunk)) (getPerPage s)); [lia |].
  destruct fuel as [| fuel']; [reflexivity |].
  rewrite int_wrap_id by (unfold max_int in *; lia).
  apply IH; lia.
Qed.

Lemma GetAllReleases_loop_endless s user repository :
  user <> "" -> repository <> "" ->
  (forall page, 1 <= page ->
     exists chunk, serves_releases s user repository page chunk
                   /\ getPerPage s <= Z.of_nat (length chunk)) ->
  forall fuel acc page log,
    1 <= page -> page + Z.of_nat fuel <= max_int + 1 ->
    GetAllReleases_loop fuel s user repository acc page log = None.
Proof.
  intros Hu Hr Hall. induction fuel as [| fuel IH]; intros acc page log Hp Hmax;
    [reflexivity |].
  cbn [GetAllReleases_loop].
  destruct (Hall page Hp) as (chunk & Hserve & Hlen).
  rewrite (GetReleasesPerPage_served _ _ _ _ _ Hp Hu Hr Hserve).
  destruct (Z.ltb_spec (Z.of_nat (length chunk)) (getPerPage s)); [lia |].
  destruct fuel as [| fuel']; [reflexivity |].
  rewrite int_wrap_id by (unfold max_int in *; lia).
  apply IH; lia.
Qed.

(** X2. The pagination loops have no bound of their own. Against a forge that
    answers every page with at least the page size in effect (it has that
    many records on every page, or it ignores [per_page]), neither
    [GetAllRepositories] nor [GetAllReleases] has returned after any number
    of iterations, as far as the page counter can count (2^63 - 1). *)
Theorem pagination_has_no_bound_of_its_own
    (s : Scanner) (user repository : string) (fuel : nat) :
  (user <> "" ->
   (forall page, 1 <= page ->
      exists chunk, serves_repositories s user page chunk
                    /\ getPerPage s <= Z.of_nat (length chunk)) ->
   Z.of_nat fuel <= max_int ->
   GetAllRepositories fuel s user = None)
  /\
  (user <> "" -> repository <> "" ->
   (forall page, 1 <= page ->
      exists chunk, serves_releases s user repository page chunk
                    /\ getPerPage s <= Z.of_nat (length chunk)) ->
   Z.of_nat fuel <= max_int ->
   GetAllReleases fuel s user repository = None).
Proof.
  split.
  - intros Hu Hall Hfuel. unfold GetAllRepositories.
    apply GetAllRepositories_loop_endless; try assumption; lia.
  - intros Hu Hr Hall Hfuel. unfold GetAllReleases.
    apply GetAllReleases_loop_endless; try assumption; lia.
Qed.

Lemma GetRepositoriesPerPage_log s user page :
  1 <= page ->
  (user = "" /\ exists e, GetRepositoriesPerPage s user page = (([], Some e), []))
  \/ (user <> "" /\ snd (GetRepositoriesPerPage s user page)
                     = [repositories_url s user page]).
Proof.
  intros Hp. unfold GetRepositoriesPerPage. rewrite (checkPage_ok _ Hp).
  destruct (String.eqb_spec user "") as [-> | Hu].
  - left. rewrite checkUser_empty. eauto.
  - right. split; [exact Hu |]. rewrite (checkUser_nonempty _ Hu). cbv zeta.
    destruct (http_Get _) as [response | e]; [| reflexivity].
    destruct (StatusCode response =? StatusNotFound); [reflexivity |].
    destruct (negb _); [reflexivity |].
    destruct (json_Decode_Repositories _) as [l [e |]]; reflexivity.
Qed.

Lemma GetReleasesPerPage_log s user repository page :
  1 <= page ->
  ((user = "" \/ repository = "")
   /\ exists e, GetReleasesPerPage s user repository page = (([], Some e), []))
  \/ (user <> "" /\ repository <> ""
      /\ snd (GetReleasesPerPage s user repository page)
         = [releases_url s user repository page]).
Proof.
  intros Hp. unfold GetReleasesPerPage. rewrite (checkPage_ok _ Hp).
  destruct (String.eqb_spec user "") as [-> | Hu].
  { left. rewrite checkUser_empty. eauto. }
  rewrite (checkUser_nonempty _ Hu).
  destruct (String.eqb_spec repository "") as [-> | Hr].
  { left. cbn. eauto. }
  right. split; [exact Hu |]. split; [exact Hr |].
  rewrite (checkRepository_nonempty _ Hr). cbv zeta.
  destruct (http_Get _) as [response | e]; [| reflexivity].
  destruct (negb _); [reflexivity |].
  destruct (json_Decode_Releases _) as [l [e |]]; reflexivity.
Qed.

Lemma GetAllRepositories_loop_log s user :
  forall fuel acc page log res log',
    1 <= page -> page + Z.of_nat fuel <= max_int + 1 ->
    GetAllRepositories_loop fuel s user acc page log = Some (res, log') ->
    exists k, (k <= fuel)%nat
              /\ log' = (log ++ map (repositories_url s user) (page_numbers page k))%list
              /\ (user <> "" -> (1 <= k)%nat)
              /\ (user = "" -> k = 0%nat).
Proof.
  induction fuel as [| fuel IH]; intros acc page log res log' Hp Hmax H; [discriminate |].
  cbn [GetAllRepositories_loop] in H.
  destruct (GetRepositoriesPerPage_log s user page Hp) as [(-> & e & E) | (Hu & E)].
  - rewrite E in H. injection H as <- <-. exists 0%nat. cbn.
    repeat split; try lia; congruence.
  - destruct (GetRepositoriesPerPage s user page) as [[chunk err] reqs]. cbn in E. subst reqs.
    assert (Hone : forall r, Some (r, (log ++ [repositories_url s user page])%list)
                             = Some (res, log') ->
                   exists k, (k <= S fuel)%nat
                     /\ log' = (log ++ map (repositories_url s user)
                                         (page_numbers page k))%list
                     /\ (user <> "" -> (1 <= k)%nat) /\ (user = "" -> k = 0%nat)).
    { intros r [= <- <-]. exists 1%nat. cbn. repeat split; try lia; congruence. }
    destruct err as [e |]; [eapply Hone, H |].
    destruct (_ <? _); [eapply Hone, H |].
    destruct fuel as [| fuel']; [discriminate H |].
    rewrite int_wrap_id in H by (unfold max_int in *; lia).
    apply IH in H; [| lia | lia]. destruct H as (k & Hk & -> & _ & _).
    exists (S k). cbn [page_numbers map]. rewrite <- app_assoc. cbn [app].
    repeat split; try lia; congruence.
Qed.

Lemma GetAllReleases_loop_log s user repository :
  forall fuel acc page log res log',
    1 <= page -> page + Z.of_nat fuel <= max_int + 1 ->
    GetAllReleases_loop fuel s user repository acc page log = Some (res, log') ->
    exists k, (k <= fuel)%nat
              /\ log' = (log ++ map (releases_url s user repository)
                                  (page_numbers page k))%list
              /\ (user <> "" -> repository <> "" -> (1 <= k)%nat)
              /\ (user = "" \/ repository = "" -> k = 0%nat).
Proof.
  induction fuel as [| fuel IH]; intros acc page log res log' Hp Hmax H; [discriminate |].
  cbn [GetAllReleases_loop] in H.
  destruct (GetReleasesPerPage_log s user repository page Hp)
    as [(Hbad & e & E) | (Hu & Hr & E)].
  - rewrite E in H. injection H as <- <-. exists 0%nat. cbn.
    repeat split; try lia. intros. destruct Hbad; contradiction.
  - destruct (GetReleasesPerPage s user repository page) as [[chunk err] reqs].
    cbn in E. subst reqs.
    assert (Hone : forall r,
               Some (r, (log ++ [releases_url s user repository page])%list)
               = Some (res, log') ->
               exists k, (k <= S fuel)%nat
                 /\ log' = (log ++ map (releases_url s user repository)
                                     (page_numbers page k))%list
                 /\ (user <> "" -> repository <> "" -> (1 <= k)%nat)
                 /\ (user = "" \/ repository = "" -> k = 0%nat)).
    { intros r [= <- <-]. exists 1%nat. cbn. repeat split; try lia.
      intros [? | ?]; contradiction. }
    destruct err as [e |]; [eapply Hone, H |].
    destruct (_ <? _); [eapply Hone, H |].
    destruct fuel as [| fuel']; [discriminate H |].
    rewrite int_wrap_id in H by (unfold max_int in *; lia).
    apply IH in H; [| lia | lia]. destruct H as (k & Hk & -> & _ & _).
    exists (S k). cbn [page_numbers map]. rewrite <- app_assoc. cbn [app].
    repeat split; try lia. intros [? | ?]; contradiction.
Qed.

(** X3. Whatever [http.Get] answers, and whether the call ends in a value or
    in an error, the calls of [http.Get] that one [GetAllRepositories] or
    [GetAllReleases] makes are the calls with the URLs of pages 1, 2, ..., k
    in that order, each once, for some k: no page is skipped, repeated or
    retried. k is 0 exactly when a name is empty (then [http.Get] is not
    called), and at least 1 otherwise. The log is of the calls: whether a
    call sends a request is the business of [net/http], which sends none and
    returns an error for a URL it cannot parse. *)
Theorem pagination_calls_in_page_order
    (s : Scanner) (user repository : string) (fuel : nat) :
  (forall res log,
      Z.of_nat fuel <= max_int ->
      GetAllRepositories fuel s user = Some (res, log) ->
      exists k, (k <= fuel)%nat
                /\ log = map (repositories_url s user) (page_numbers 1 k)
                /\ (user <> "" -> (1 <= k)%nat)
                /\ (user = "" -> k = 0%nat))
  /\
  (forall res log,
      Z.of_nat fuel <= max_int ->
      GetAllReleases fuel s user repository = Some (res, log) ->
      exists k, (k <= fuel)%nat
                /\ log = map (releases_url s user repository) (page_numbers 1 k)
                /\ (user <> "" -> repository <> "" -> (1 <= k)%nat)
                /\ (user = "" \/ repository = "" -> k = 0%nat)).
Proof.
  split; intros res log Hfuel H.
  - apply GetAllRepositories_loop_log in H; [exact H | lia | lia].
  - apply GetAllReleases_loop_log in H; [exact H | lia | lia].
Qed.

End PaginationFurther.

(** ** The worker pool: size, channels, cancellation, fetches *)

Lemma flat_map_insert {A B : Type} (f : A -> list B) (l : list A) (i : nat) (x y : A) :
  l !! i = Some x ->
  (flat_map f (<[i := y]> l) ++ f x)%list ≡ₚ (flat_map f l ++ f y)%list.
Proof.
  intros Hi.
  rewrite (insert_take_drop l i y) by (eapply lookup_lt_Some; exact Hi).
  rewrite <- (take_drop_middle l i x Hi) at 3.
  rewrite !flat_map_app. cbn [flat_map].
  solve_Permutation.
Qed.

Lemma flat_map_lookup_length {A B : Type} (f : A -> list B) (l : list A) (i : nat) (x : A) :
  l !! i = Some x -> (length (f x) <= length (flat_map f l))%nat.
Proof.
  intros Hi. rewrite <- (take_drop_middle l i x Hi).
  rewrite flat_map_app. cbn [flat_map]. rewrite !length_app. lia.
Qed.

Ltac unfetched_step :=
  match goal with
  | E : ?ws !! ?w = Some ?p |- context [flat_map unfetched_of (<[?w := ?p']> ?ws)] =>
      let HH := fresh "HH" in
      pose proof (flat_map_insert unfetched_of ws w p p' E) as HH;
      cbn [unfetched_of app] in HH; rewrite ?app_nil_r in HH;
      first [ rewrite HH
            | rewrite <- HH
            | apply Permutation_app_inv_r in HH; rewrite HH ]
  end.

Section PoolFurther.
Context {net : Net}.
Variable s : Scanner.
Variable user : string.

(** A property kept by every step from states of the invariant is kept by
    every run. *)
Lemma run_preserves (P : State -> Prop) :
  (forall c st st', Inv s user st -> P st -> step s user c st = Some st' -> P st') ->
  forall sched st st',
    Inv s user st -> P st -> run s user sched st = Some st' -> P st'.
Proof.
  intros Hstep. induction sched as [| c sched IH]; intros st st' HI HP H; cbn in H.
  - injection H as <-. exact HP.
  - destruct (step s user c st) as [st1 |] eqn:E; [| discriminate].
    eapply (IH st1); [eapply step_Inv; eassumption | eapply Hstep; eassumption | exact H].
Qed.

Lemma step_pool_size c st st' :
  step s user c st = Some st' -> pool_size_ok st -> pool_size_ok st'.
Proof.
  intros H. step_cases H; unfold pool_size_ok, workersCount, jobsCount in *;
    cbn [coord workers repositories] in *;
    rewrite ?length_app, ?length_insert; cbn [length];
    try (apply Z.ltb_lt in E0); try (apply Z.ltb_ge in E0);
    try (destruct coord0; intros Hs; exact Hs);
    destruct (Z.of_nat (length repositories0) <? maxWorkersCount); lia.
Qed.

(** X4. The worker cap. In every state of a scan over N repositories there are
    at most min(N, 100) workers, hence at most that many calls of
    [GetAllReleases] in flight; once the coordinator has left the loop that
    starts them there are exactly min(N, 100). *)
Theorem worker_cap
    (repos : list Repository) (reqs : list string) (sched : list Choice) (st : State) :
  run s user sched (pool_init repos reqs) = Some st ->
  Z.of_nat (length (workers st)) <= Z.min (Z.of_nat (length repos)) 100
  /\ (length (List.filter is_fetching (workers st)) <= length (workers st))%nat
  /\ ((forall i, coord st <> CSpawn i) ->
      Z.of_nat (length (workers st)) = Z.min (Z.of_nat (length repos)) 100).
Proof.
  intros Hrun.
  assert (HP : pool_size_ok st).
  { eapply (run_preserves pool_size_ok); [| apply Inv_init | | exact Hrun].
    - intros c st1 st2 _ HP Hs. eapply step_pool_size; eassumption.
    - unfold pool_size_ok, workersCount, jobsCount, maxWorkersCount. cbn.
      destruct (_ <? _); lia. }
  assert (HW : workersCount st = Z.min (Z.of_nat (length repos)) 100).
  { unfold workersCount, jobsCount, maxWorkersCount.
    rewrite (run_repositories _ _ _ _ _ Hrun). cbn [repositories pool_init].
    destruct (Z.ltb_spec (Z.of_nat (length repos)) 100); lia. }
  unfold pool_size_ok in HP. rewrite HW in HP.
  split; [| split].
  - destruct (coord st); lia.
  - apply filter_length_le.
  - intros Hns. destruct (coord st) as [i | | | | | |]; try exact HP.
    exfalso. apply (Hns i). reflexivity.
Qed.

(** X5. The buffered channels are never full when the code sends on them.
    Whenever the coordinator is about to send a job, [jobs] has room and the
    send goes through; whenever a worker is about to send a result,
    [results] has room, and its step goes through (it delivers the item, or
    panics when [results] is already closed). *)
Theorem buffered_sends_never_block
    (repos : list Repository) (reqs : list string) (sched : list Choice) (st : State) :
  run s user sched (pool_init repos reqs) = Some st ->
  (forall r rest,
      coord st = CEnqueue (r :: rest) ->
      Z.of_nat (length (jobs st)) < jobsCount st
      /\ exists st', step s user Coordinate st = Some st'
                     /\ jobs st' = (jobs st ++ [r])%list)
  /\ (forall w item fuel,
        workers st !! w = Some (WSendResult item) ->
        Z.of_nat (length (results st)) < jobsCount st
        /\ exists st', step s user (Work w fuel) st = Some st'
                       /\ (resultsClosed st = false ->
                           results st' = (results st ++ [item])%list
                           /\ workers st' !! w = Some WRange)).
Proof.
  intros Hrun.
  pose proof (run_Inv _ _ _ _ _ Hrun (Inv_init s user repos reqs)) as HI.
  pose proof (submseteq_length _ _ (inv_accounted _ _ _ HI)) as Hacc.
  unfold accounted, pending in Hacc. rewrite !length_app, !length_map in Hacc.
  split.
  - intros r rest Hc. rewrite Hc in Hacc. cbn [length] in Hacc.
    assert (Hroom : Z.of_nat (length (jobs st)) < jobsCount st)
      by (unfold jobsCount; lia).
    split; [exact Hroom |].
    cbn [step]. unfold coordinate. rewrite Hc.
    destruct (Z.ltb_spec (Z.of_nat (length (jobs st))) (jobsCount st)); [| lia].
    eexists. split; reflexivity.
  - intros w item fuel Hw.
    pose proof (flat_map_lookup_length held_of _ _ _ Hw) as Hheld.
    cbn [held_of length] in Hheld. unfold held in Hacc.
    assert (Hroom : Z.of_nat (length (results st)) < jobsCount st)
      by (unfold jobsCount; lia).
    split; [exact Hroom |].
    cbn [step]. unfold work. rewrite Hw.
    destruct (resultsClosed st); [eexists; split; [reflexivity | discriminate] |].
    destruct (Z.ltb_spec (Z.of_nat (length (results st))) (jobsCount st)); [| lia].
    eexists. split; [reflexivity |]. intros _. split; [reflexivity |].
    cbn [workers]. apply list_lookup_insert_eq. eapply lookup_lt_Some, Hw.
Qed.

Lemma step_empty_listing (reqs : list string) c st st' :
  step s user c st = Some st' -> empty_scan_ok reqs st -> empty_scan_ok reqs st'.
Proof.
  intros H HP. step_cases H;
    unfold empty_scan_ok, workersCount, jobsCount, maxWorkersCount in *;
    cbn [repositories workers requests trace results coord] in *;
    destruct HP as (Hr & Hw & Hq & Ht & Hres & Hc); subst;
    try discriminate;
    try (rewrite lookup_nil in *; discriminate);
    try (destruct Hc; subst);
    auto 10.
Qed.

(** X6. An account without repositories. When the listing succeeds with no
    repository, [ScanRepositories] returns no items and a nil error; no worker
    is ever started, no release is ever requested (the requests of the scan
    are those of the listing), and no other result is possible. *)
Theorem empty_listing_returns_empty (fuel : nat) (reqs : list string) :
  GetAllRepositories fuel s user = Some (([], None), reqs) ->
  ScanRepositories s user fuel (replicate 6 Coordinate) = Some ([], None)
  /\ forall sched st,
       run s user sched (pool_init [] reqs) = Some st ->
       workers st = [] /\ requests st = reqs /\ trace st = []
       /\ forall items err, returned st = Some (items, err) -> items = [] /\ err = None.
Proof.
  intros Hlist. split.
  - unfold ScanRepositories, ScanRepositories_entry. rewrite Hlist. reflexivity.
  - intros sched st Hrun.
    assert (HP : empty_scan_ok reqs st).
    { eapply (run_preserves (empty_scan_ok reqs)); [| apply Inv_init | | exact Hrun].
      - intros c st1 st2 _ HP Hs. eapply step_empty_listing; eassumption.
      - unfold empty_scan_ok. cbn. auto 10. }
    destruct HP as (_ & Hw & Hq & Ht & _ & Hc).
    split; [exact Hw |]. split; [exact Hq |]. split; [exact Ht |].
    intros items err Hret. apply returned_coord in Hret. rewrite Hret in Hc. exact Hc.
Qed.

Lemma lookup_insert_other (ws : list Worker) (w w' : nat) (p q : Worker) :
  <[w := p]> ws !! w' = Some q -> p <> q -> ws !! w' = Some q.
Proof.
  intros H Hne. destruct (decide (w = w')) as [<- | Hw].
  - destruct (decide (w < length ws)%nat) as [Hlt | Hge].
    + rewrite list_lookup_insert_eq in H by exact Hlt. congruence.
    + rewrite list_insert_ge in H by lia. exact H.
  - rewrite list_lookup_insert_ne in H by exact Hw. exact H.
Qed.

Lemma lookup_snoc_other (ws : list Worker) (w : nat) (p q : Worker) :
  (ws ++ [p])%list !! w = Some q -> p <> q -> ws !! w = Some q.
Proof.
  intros H Hne. rewrite lookup_app in H. destruct (ws !! w); [exact H |].
  destruct (w - length ws)%nat as [| [| ?]]; cbn in H; congruence.
Qed.

Lemma step_cancel c st st' :
  step s user c st = Some st' -> cancel_ok st -> cancel_ok st'.
Proof.
  intros H. step_cases H; unfold cancel_ok;
    cbn [coord workers trace cancelled after_return];
    rewrite ?drained_errors_app; cbn [drained_errors flat_map app]; rewrite ?app_nil_r;
    intros Hold Hprem.
  all: try (right; eexists; reflexivity).
  all: try (left; intros Habs; apply app_eq_nil in Habs as [_ Habs]; discriminate).
  all: try (apply Hold; destruct Hprem as [Hc | (w' & Hw')]; [left; exact Hc | right];
            exists w';
            first [ exact Hw'
                  | eapply lookup_insert_other; [exact Hw' | discriminate]
                  | eapply lookup_snoc_other; [exact Hw' | discriminate] ]).
  apply Hold. right. eexists. eassumption.
Qed.

Lemma run_cancelled sched :
  forall st st', run s user sched st = Some st' -> cancelled st = true ->
                 cancelled st' = true.
Proof.
  induction sched as [| c sched IH]; intros st st' H Hc; cbn in H.
  - injection H as <-. exact Hc.
  - destruct (step s user c st) as [st1 |] eqn:E; [| discriminate].
    apply (IH st1 st' H).
    step_cases E; cbn [cancelled] in *; auto.
Qed.

(** X7. Cancellation is one-shot and late. Once [ctx] is cancelled it stays
    cancelled; and it is cancelled only after the coordinator has taken an
    error from [errors] or has begun its [return]: as long as the coordinator
    is collecting and has seen no error, no worker finds [ctx.Done()] closed,
    so no job is abandoned. *)
Theorem cancellation_is_one_shot_and_late
    (repos : list Repository) (reqs : list string) (sched : list Choice) (st : State) :
  run s user sched (pool_init repos reqs) = Some st ->
  (cancelled st = true ->
   drained_errors (trace st) <> [] \/ is_Some (after_return (coord st)))
  /\ (forall sched' st',
        run s user sched' st = Some st' -> cancelled st = true -> cancelled st' = true).
Proof.
  intros Hrun. split.
  - intros Hc.
    assert (HP : cancel_ok st).
    { eapply (run_preserves cancel_ok); [| apply Inv_init | | exact Hrun].
      - intros c st1 st2 _ HP Hs. eapply step_cancel; eassumption.
      - unfold cancel_ok. cbn. intros [Hf | (w & Hw)]; [discriminate |].
        rewrite lookup_nil in Hw. discriminate. }
    apply HP. left. exact Hc.
  - intros sched' st'. apply run_cancelled.
Qed.

Lemma fetch_targets_app (t t' : list Event) :
  fetch_targets (t ++ t') = (fetch_targets t ++ fetch_targets t')%list.
Proof. apply flat_map_app. Qed.

Lemma step_fetched_once c st st' :
  step s user c st = Some st' ->
  (fetch_targets (trace st') ++ unfetched st')%list
  ⊆+ (fetch_targets (trace st) ++ unfetched st)%list.
Proof.
  intros H. step_cases H; unfold unfetched, pending;
    cbn [repositories jobs coord workers trace];
    rewrite ?fetch_targets_app, ?flat_map_app;
    cbn [fetch_targets flat_map unfetched_of app];
    rewrite ?app_nil_r;
    try unfetched_step;
    solve_submseteq.
Qed.

Lemma step_items_fetched c st st' :
  step s user c st = Some st' -> items_fetched_ok st -> items_fetched_ok st'.
Proof.
  intros H. step_cases H; unfold items_fetched_ok, all_items;
    cbn [repositories results coord workers trace collected];
    rewrite ?fetch_targets_app, ?in_flight_app, ?sortResultItems_Permutation;
    cbn [fetch_targets flat_map in_flight item_of app];
    rewrite ?app_nil_r;
    try in_flight_step;
    rewrite ?map_app; cbn [map Repo];
    intros Hold;
    try (etransitivity; [| exact Hold]; rewrite ?map_app; cbn [map]; solve_submseteq).
  - apply submseteq_inserts_r, Hold.
  - rewrite !app_assoc. apply submseteq_app; [| reflexivity].
    rewrite <- !app_assoc. exact Hold.
Qed.

(** X8. No repository is fetched twice. The calls of [GetAllReleases] made by
    the workers of a scan are, counted with multiplicity, among the
    repositories of the listing: every call is for a listed repository and a
    repository listed once is fetched at most once (there is no retry). When
    the scan returns success, every listed repository has been fetched
    exactly once. *)
Theorem repositories_fetched_at_most_once
    (repos : list Repository) (reqs : list string) (sched : list Choice) (st : State) :
  run s user sched (pool_init repos reqs) = Some st ->
  fetch_targets (trace st) ⊆+ repos
  /\ (forall items, returned st = Some (items, None) ->
                    fetch_targets (trace st) ≡ₚ repos).
Proof.
  intros Hrun.
  pose proof (run_Inv _ _ _ _ _ Hrun (Inv_init s user repos reqs)) as HI.
  assert (Hrepos : repositories st = repos) by apply (run_repositories _ _ _ _ _ Hrun).
  assert (H1 : fetched_once_ok st).
  { eapply (run_preserves fetched_once_ok); [| apply Inv_init | | exact Hrun].
    - intros c st1 st2 _ HP Hs. unfold fetched_once_ok in *.
      rewrite (step_repositories _ _ _ _ _ Hs).
      etransitivity; [eapply step_fetched_once; exact Hs | exact HP].
    - unfold fetched_once_ok, unfetched, pending. cbn. reflexivity. }
  assert (H2 : items_fetched_ok st).
  { eapply (run_preserves items_fetched_ok); [| apply Inv_init | | exact Hrun].
    - intros c st1 st2 _ HP Hs. eapply step_items_fetched; eassumption.
    - unfold items_fetched_ok, all_items. cbn. reflexivity. }
  unfold fetched_once_ok in H1. rewrite Hrepos in H1.
  assert (Hsub : fetch_targets (trace st) ⊆+ repos).
  { etransitivity; [| exact H1]. apply submseteq_inserts_r. reflexivity. }
  split; [exact Hsub |].
  intros items Hret.
  destruct (success_permutation _ _ _ _ HI Hret) as (Hlen & Hperm & _).
  apply submseteq_length_Permutation; [exact Hsub |].
  unfold items_fetched_ok, all_items in H2.
  rewrite (returned_coord _ _ _ Hret) in H2. cbn [collected] in H2.
  apply submseteq_length in H2. rewrite map_app, length_app, length_map in H2.
  rewrite Hrepos in Hlen. lia.
Qed.

Lemma step_closing c st st' :
  step s user c st = Some st' -> closing_ok st -> closing_ok st'.
Proof.
  intros H. step_cases H; unfold closing_ok;
    cbn [coord resultsClosed errorsClosed];
    try (destruct coord0; intros Hc; exact Hc);
    intros [Hr He]; auto.
Qed.

Lemma run_closing (repos : list Repository) (reqs : list string) sched st :
  run s user sched (pool_init repos reqs) = Some st -> closing_ok st.
Proof.
  intros Hrun.
  eapply (run_preserves closing_ok); [| apply Inv_init | | exact Hrun].
  - intros c st1 st2 _ HP Hs. eapply step_closing; eassumption.
  - unfold closing_ok. cbn. auto.
Qed.

(** A worker that still holds a result when [results] is closed belongs to a
    scan that has failed. *)
Lemma closed_results_sender_failed st w item :
  Inv s user st -> closing_ok st -> resultsClosed st = true ->
  workers st !! w = Some (WSendResult item) -> failed (trace st) = true.
Proof.
  intros HI Hcl Hrc Hw.
  pose proof (submseteq_length _ _ (inv_accounted _ _ _ HI)) as Hacc.
  pose proof (flat_map_lookup_length held_of _ _ _ Hw) as Hheld.
  cbn [held_of length] in Hheld.
  pose proof (inv_log _ _ _ HI) as Hlog.
  pose proof (inv_success _ _ _ HI) as Hsucc.
  unfold accounted, held in Hacc. rewrite !length_app, !length_map in Hacc.
  unfold closing_ok in Hcl.
  destruct (coord st) as [| | | | | items err | items err] eqn:Hc;
    try (destruct Hcl as [Hcl _]; congruence).
  - destruct err as [e |].
    + cbn in Hlog. destruct Hlog as (_ & w' & cause & _ & _ & Hff).
      eapply fetch_failed_failed, Hff.
    + specialize (Hsucc items eq_refl). cbn [collected] in Hacc. lia.
  - destruct err as [e |].
    + cbn in Hlog. destruct Hlog as (_ & w' & cause & _ & _ & Hff).
      eapply fetch_failed_failed, Hff.
    + specialize (Hsucc items eq_refl). cbn [collected] in Hacc. lia.
Qed.

Lemma troubled_insert (ws : list Worker) (w : nat) (p q : Worker) (t t' : list Event) :
  (forall w p, ws !! w = Some p -> is_troubled p -> failed t = true) ->
  ws !! w = Some q ->
  (is_troubled p -> failed (t ++ t') = true) ->
  forall w' p', <[w := p]> ws !! w' = Some p' -> is_troubled p' ->
                failed (t ++ t') = true.
Proof.
  intros Hold Hw Hp w' p' Hw' Ht.
  destruct (decide (w = w')) as [<- | Hne].
  - rewrite list_lookup_insert_eq in Hw' by (eapply lookup_lt_Some; exact Hw).
    injection Hw' as <-. apply Hp, Ht.
  - rewrite list_lookup_insert_ne in Hw' by exact Hne.
    rewrite failed_app, (Hold w' p' Hw' Ht). reflexivity.
Qed.

Lemma step_troubled c st st' :
  step s user c st = Some st' ->
  Inv s user st -> closing_ok st -> troubled_ok st -> troubled_ok st'.
Proof.
  intros H HI Hcl Hold.
  pose proof (closed_results_sender_failed st) as Hcr.
  specialize (fun w item => Hcr w item HI Hcl).
  clear HI Hcl.
  step_cases H; unfold troubled_ok in *;
    cbn [workers trace resultsClosed] in *;
    try exact Hold;
    try (rewrite <- (app_nil_r trace0));
    try (eapply troubled_insert; [exact Hold | eassumption |]; intros []; fail).
  - intros w p Hw Ht. rewrite app_nil_r. apply (Hold w p); [| exact Ht].
    eapply lookup_snoc_other; [exact Hw |]. intros <-. destruct Ht.
  - intros w p Hw Ht. rewrite app_nil_r, failed_app, (Hold w p Hw Ht). reflexivity.
  - rewrite app_nil_r.
    eapply troubled_insert; [exact Hold | eassumption |]. intros _.
    rewrite failed_app. erewrite Hold; [reflexivity | eassumption | exact I].
  - rewrite app_nil_r.
    eapply troubled_insert; [exact Hold | eassumption |]. intros _.
    rewrite failed_app. cbn. apply orb_true_r.
  - rewrite app_nil_r.
    eapply troubled_insert; [exact Hold | eassumption |]. intros [].
  - eapply troubled_insert; [exact Hold | eassumption |]. intros _.
    rewrite app_nil_r. eapply Hold; [eassumption | exact I].
  - eapply troubled_insert; [exact Hold | eassumption |]. intros _.
    rewrite app_nil_r. eapply Hcr; [reflexivity | eassumption].
Qed.

Lemma run_troubled (repos : list Repository) (reqs : list string) sched st :
  run s user sched (pool_init repos reqs) = Some st -> troubled_ok st.
Proof.
  intros Hrun.
  assert (HP : closing_ok st /\ troubled_ok st); [| apply HP].
  eapply (run_preserves (fun st => closing_ok st /\ troubled_ok st));
    [| apply Inv_init | | exact Hrun].
  - intros c st1 st2 HI [Hc Ht] Hs. split.
    + eapply step_closing; eassumption.
    + eapply step_troubled; eassumption.
  - split; [unfold closing_ok; cbn; auto |].
    intros w p Hw. cbn in Hw. rewrite lookup_nil in Hw. discriminate.
Qed.

Lemma run_returned sched :
  forall st st' r, run s user sched st = Some st' -> returned st = Some r ->
                   returned st' = Some r.
Proof.
  induction sched as [| c sched IH]; intros st st' r H Hr; cbn in H.
  - injection H as <-. exact Hr.
  - destruct (step s user c st) as [st1 |] eqn:E; [| discriminate].
    apply (IH st1 st' r H).
    destruct r as [items err]. apply returned_coord in Hr.
    step_cases E; cbn [coord] in *; try discriminate;
      unfold returned; cbn [coord]; rewrite Hr; reflexivity.
Qed.

(** X9. A successful scan leaves nothing behind. When [ScanRepositories] has
    returned success, both buffers are empty, no release fetch has failed and
    every worker is back at [range jobs] or has returned: none holds a job,
    is sending, or has panicked. It stays so whatever the workers do
    afterwards, so the deferred [close(results)] and [close(errors)] cannot
    hurt a worker of a successful scan. *)
Theorem successful_scan_leaves_workers_idle
    (repos : list Repository) (reqs : list string) (sched : list Choice) (st : State)
    (items : list ResultItem) :
  run s user sched (pool_init repos reqs) = Some st ->
  returned st = Some (items, None) ->
  forall sched' st',
    run s user sched' st = Some st' ->
    jobs st' = [] /\ results st' = [] /\ failed (trace st') = false
    /\ forall w p, workers st' !! w = Some p -> p = WRange \/ p = WDone.
Proof.
  intros Hrun Hret sched' st' Hrun'.
  assert (Hall : run s user (sched ++ sched') (pool_init repos reqs) = Some st')
    by (rewrite run_app, Hrun; exact Hrun').
  pose proof (run_returned _ _ _ _ Hrun' Hret) as Hret'.
  pose proof (run_Inv _ _ _ _ _ Hall (Inv_init s user repos reqs)) as HI.
  pose proof (run_troubled _ _ _ _ Hall) as Htr.
  destruct (success_permutation _ _ _ _ HI Hret') as (Hlen & _).
  pose proof (submseteq_length _ _ (inv_accounted _ _ _ HI)) as Hacc.
  unfold accounted in Hacc. rewrite (returned_coord _ _ _ Hret') in Hacc.
  cbn [collected] in Hacc. rewrite !length_app, !length_map in Hacc.
  assert (Hf : failed (trace st') = false).
  { destruct (failed (trace st')) eqn:Hf; [exfalso | reflexivity].
    eapply (failure_excludes_success _ _ _ items HI Hf).
    rewrite (returned_coord _ _ _ Hret'). reflexivity. }
  split; [destruct (jobs st'); [reflexivity | cbn in Hacc; lia] |].
  split; [destruct (results st'); [reflexivity | cbn in Hacc; lia] |].
  split; [exact Hf |].
  intros w p Hw.
  pose proof (flat_map_lookup_length held_of _ _ _ Hw) as Hheld. unfold held in Hacc.
  destruct p; cbn [held_of length] in Hheld; auto; try lia;
    exfalso; rewrite (Htr w _ Hw I) in Hf; discriminate.
Qed.

(** X10. After an error return, a worker left at a send panics. Take a state
    where the coordinator is collecting, worker [w1] stands at [errors <- err]
    and another worker [w2] stands at a send of its own ([errors <- err] or
    [results <- item]). If the coordinator takes the error of [w1], its three
    deferred calls close both channels, [ScanRepositories] returns the
    wrapped error of [w1], and the next step of [w2] is a send on a closed
    channel: a panic. *)
Theorem straggler_panics_after_error_return
    (repos : list Repository) (reqs : list string) (sched : list Choice) (st : State)
    (i : Z) (items : list ResultItem) (w1 w2 : nat) (e1 : error) (p2 : Worker) :
  run s user sched (pool_init repos reqs) = Some st ->
  coord st = CCollect i items ->
  workers st !! w1 = Some (WSendErr e1) ->
  workers st !! w2 = Some p2 -> is_sending p2 -> w1 <> w2 ->
  exists st',
    run s user [Deliver w1; Coordinate; Coordinate; Coordinate; Work w2 0] st = Some st'
    /\ returned st' = Some (items, Some (AccountScanFailed user e1))
    /\ workers st' !! w2 = Some WPanic.
Proof.
  intros Hrun Hc Hw1 Hw2 Hsend Hne.
  pose proof (run_Inv _ _ _ _ _ Hrun (Inv_init s user repos reqs)) as HI.
  assert (Hf : failed (trace st) = true).
  { eapply fetch_failed_failed, (inv_senders _ _ _ HI), Hw1. }
  pose proof (inv_strict _ _ _ HI Hf) as Hlt.
  pose proof (collected_accounted st) as Hcol.
  pose proof (inv_log _ _ _ HI) as Hlog.
  rewrite Hc in Hcol, Hlog. cbn in Hcol, Hlog. destruct Hlog as (_ & _ & Hi).
  assert (Hw2' : <[w1 := WCancel]> (workers st) !! w2 = Some p2)
    by (rewrite list_lookup_insert_ne by exact Hne; exact Hw2).
  assert (Hlen : (w2 < length (<[w1 := WCancel]> (workers st)))%nat)
    by (eapply lookup_lt_Some, Hw2').
  cbn [run step]. unfold deliver. rewrite Hc, Hw1.
  destruct (Z.ltb_spec i (jobsCount st)) as [_ | Hge]; [| unfold jobsCount in Hge; lia].
  cbn [coordinate coord repositories jobs jobsClosed results resultsClosed errorsClosed
       cancelled workers requests trace].
  unfold work. cbn [workers]. rewrite Hw2'.
  destruct p2; cbn in Hsend; try contradiction;
    cbn [errorsClosed resultsClosed set_worker workers coord];
    eexists; (split; [reflexivity |]); (split; [reflexivity |]);
    cbn [workers]; apply list_lookup_insert_eq, Hlen.
Qed.

(** *** A schedule to success *)

Lemma run_cons c sched st :
  run s user (c :: sched) st
  = match step s user c st with
    | Some st' => run s user sched st'
    | None => None
    end.
Proof. reflexivity. Qed.

Lemma spawn_all (repos : list Repository) (reqs : list string) :
  forall n ws i,
    Z.to_nat (workersCount (pool_init repos reqs) - i) = n ->
    run s user (replicate (S n) Coordinate)
      (mkState repos [] false [] false false false (CSpawn i) ws reqs [])
    = Some (mkState repos [] false [] false false false (CEnqueue repos)
              (ws ++ replicate n WRange) reqs []).
Proof.
  induction n as [| n IH]; intros ws i Hn.
  - cbn [replicate]. rewrite run_cons. cbn [step]. unfold coordinate.
    cbn [coord]. change (workersCount _) with (workersCount (pool_init repos reqs)).
    destruct (Z.ltb_spec i (workersCount (pool_init repos reqs))); [lia |].
    cbn. rewrite app_nil_r. reflexivity.
  - change (replicate (S (S n)) Coordinate) with (Coordinate :: replicate (S n) Coordinate).
    rewrite run_cons. cbn [step]. unfold coordinate.
    cbn [coord]. change (workersCount _) with (workersCount (pool_init repos reqs)).
    destruct (Z.ltb_spec i (workersCount (pool_init repos reqs))); [| lia].
    cbn [repositories jobs jobsClosed results resultsClosed errorsClosed
         cancelled workers requests trace].
    rewrite IH by lia. rewrite <- app_assoc. reflexivity.
Qed.

Lemma enqueue_all (repos : list Repository) (reqs : list string) (ws : list Worker) :
  forall rest queued,
    (length queued + length rest <= length repos)%nat ->
    run s user (replicate (S (length rest)) Coordinate)
      (mkState repos queued false [] false false false (CEnqueue rest) ws reqs [])
    = Some (mkState repos (queued ++ rest) true [] false false false (CCollect 0 [])
              ws reqs []).
Proof.
  induction rest as [| r rest IH]; intros queued Hlen.
  - cbn [length replicate]. rewrite run_cons. cbn [step]. unfold coordinate.
    cbn. rewrite app_nil_r. reflexivity.
  - cbn [length].
    change (replicate (S (S (length rest))) Coordinate)
      with (Coordinate :: replicate (S (length rest)) Coordinate).
    rewrite run_cons. cbn [step]. unfold coordinate. cbn [coord jobs].
    unfold jobsCount. cbn [repositories].
    destruct (Z.ltb_spec (Z.of_nat (length queued)) (Z.of_nat (length repos)));
      [| cbn [length] in Hlen; lia].
    cbn [repositories jobs jobsClosed results resultsClosed errorsClosed
         cancelled workers requests trace].
    rewrite IH by (rewrite length_app; cbn [length] in *; lia).
    rewrite <- app_assoc. reflexivity.
Qed.

(** Worker 0 takes a job, fetches, sends; the coordinator receives. *)
Lemma job_round (repos : list Repository) (r : Repository) (rest : list Repository)
    (i : Z) (items : list ResultItem) (ws : list Worker) (rq : list string)
    (tr : list Event) (f : nat) (rels : list Release) (q : list string) :
  GetAllReleases f s user (Name r) = Some ((rels, None), q) ->
  0 <= i < Z.of_nat (length repos) ->
  run s user [Work 0 0; Work 0 0; Work 0 f; Work 0 0; Coordinate]
    (mkState repos (r :: rest) true [] false false false (CCollect i items)
       (WRange :: ws) rq tr)
  = Some (mkState repos rest true [] false false false
            (CCollect (i + 1) (items ++ [mkResultItem r rels]))
            (WRange :: ws) (rq ++ q)
            (tr ++ [ReleaseFetch 0 r (rels, None)]
                ++ [ResultDrained (mkResultItem r rels)])).
Proof.
  intros Hf Hi.
  rewrite run_cons. cbn -[GetAllReleases Z.ltb Z.of_nat jobsCount run].
  rewrite run_cons. cbn -[GetAllReleases Z.ltb Z.of_nat jobsCount run].
  rewrite run_cons. cbn -[GetAllReleases Z.ltb Z.of_nat jobsCount run].
  rewrite Hf.
  rewrite run_cons. cbn -[GetAllReleases Z.ltb Z.of_nat jobsCount run].
  unfold jobsCount at 1. cbn [repositories].
  destruct (Z.ltb_spec (Z.of_nat 0) (Z.of_nat (length repos))) as [_ | Hge];
    [| cbn in Hge; lia].
  rewrite run_cons. cbn -[GetAllReleases Z.ltb Z.of_nat jobsCount run].
  unfold jobsCount. cbn [repositories].
  destruct (Z.ltb_spec i (Z.of_nat (length repos))); [| lia].
  cbn [run]. rewrite <- app_assoc. reflexivity.
Qed.

Lemma process_all (repos : list Repository) (ws : list Worker) :
  forall queued i items rq tr,
    Forall (fun r => exists rels, fetched s user r rels) queued ->
    0 <= i -> i + Z.of_nat (length queued) = Z.of_nat (length repos) ->
    exists sched items' rq' tr',
      run s user sched
        (mkState repos queued true [] false false false (CCollect i items)
           (WRange :: ws) rq tr)
      = Some (mkState repos [] true [] false false false
                (CCollect (Z.of_nat (length repos)) items')
                (WRange :: ws) rq' tr').
Proof.
  induction queued as [| r queued IH]; intros i items rq tr Hall Hi Hsum.
  - exists [], items, rq, tr. cbn [length] in Hsum.
    replace (Z.of_nat (length repos)) with i by lia. reflexivity.
  - apply Forall_cons in Hall as [(rels & f & q & Hf) Hall].
    cbn [length] in Hsum.
    destruct (IH (i + 1) (items ++ [mkResultItem r rels])%list (rq ++ q)%list
                (tr ++ [ReleaseFetch 0 r (rels, None)]
                    ++ [ResultDrained (mkResultItem r rels)])%list Hall)
      as (sched & items' & rq' & tr' & Hrun); [lia | lia |].
    exists ([Work 0 0; Work 0 0; Work 0 f; Work 0 0; Coordinate] ++ sched)%list,
      items', rq', tr'.
    rewrite run_app, (job_round repos r queued i items ws rq tr f rels q Hf) by lia.
    exact Hrun.
Qed.

(** X11. A healthy forge lets the scan succeed. When the listing succeeds and
    [GetAllReleases] succeeds for every listed repository, the goroutines of
    [ScanRepositories] have a run in which the function returns items and a
    nil error: the pool cannot be stuck, whatever the number of
    repositories, with one worker doing all the work if need be. *)
Theorem healthy_forge_scan_succeeds
    (fuel : nat) (repos : list Repository) (reqs : list string) :
  GetAllRepositories fuel s user = Some ((repos, None), reqs) ->
  Forall (fun r => exists rels, fetched s user r rels) repos ->
  exists sched items, ScanRepositories s user fuel sched = Some (items, None).
Proof.
  intros Hlist Hall. unfold ScanRepositories, ScanRepositories_entry. rewrite Hlist.
  destruct repos as [| r0 repos'] eqn:Erepos.
  { exists (replicate 6 Coordinate), []. reflexivity. }
  rewrite <- Erepos in *. clear Hlist.
  set (n := Z.to_nat (workersCount (pool_init repos reqs))).
  assert (Hn : exists n', n = S n').
  { subst n. unfold workersCount, jobsCount, maxWorkersCount. cbn [repositories pool_init].
    rewrite Erepos. cbn [length].
    destruct (_ <? _); [exists (length repos') | exists 99%nat]; lia. }
  destruct Hn as [n' Hn'].
  pose proof (spawn_all repos reqs n [] 0 ltac:(subst n; f_equal; lia)) as H1.
  pose proof (enqueue_all repos reqs ([] ++ replicate n WRange) repos [] ltac:(cbn; lia))
    as H2.
  rewrite Hn' in H1, H2.
  change (([] ++ replicate (S n') WRange)%list) with (WRange :: replicate n' WRange)
    in H1, H2.
  change (([] ++ repos)%list) with repos in H2.
  destruct (process_all repos (replicate n' WRange) repos 0 [] reqs [] Hall)
    as (sched & items & rq & tr & H3); [lia | lia |].
  exists (replicate (S (S n')) Coordinate ++ replicate (S (length repos)) Coordinate
          ++ sched ++ replicate 4 Coordinate)%list, (sortResultItems items).
  unfold pool_init.
  rewrite run_app, H1, run_app, H2, run_app, H3.
  cbn [replicate run step]. unfold coordinate at 1.
  cbn [coord repositories jobs jobsClosed results resultsClosed errorsClosed
       cancelled workers requests trace].
  unfold jobsCount. cbn [repositories]. rewrite Z.ltb_irrefl.
  reflexivity.
Qed.

End PoolFurther.

(** ** The worker pool: no deadlock, and the cause of an error *)

Section PoolProgress.
Context {net : Net}.
Variable s : Scanner.
Variable user : string.

Lemma step_jobs_ok c st st' :
  step s user c st = Some st' -> jobs_ok st -> jobs_ok st'.
Proof.
  intros H. step_cases H; unfold jobs_ok; cbn [coord jobsClosed];
    try (destruct coord0; intros Hc; exact Hc); auto.
Qed.

Lemma step_done_ok c st st' :
  step s user c st = Some st' -> jobs_ok st -> done_ok st -> done_ok st'.
Proof.
  intros H. step_cases H; unfold jobs_ok, done_ok;
    cbn [coord workers jobs jobsClosed cancelled];
    intros Hj Hold Hprem;
    try (left; reflexivity);
    try (right; split; [reflexivity | assumption]).
  all: try (assert (Hex : exists w', workers0 !! w' = Some WDone)
              by (destruct Hprem as [w' Hw']; exists w';
                  first [ exact Hw'
                        | eapply lookup_insert_other; [exact Hw' | discriminate]
                        | eapply lookup_snoc_other; [exact Hw' | discriminate] ]);
            destruct (Hold Hex) as [Hc | [Hjobs Hcl]];
            [left; exact Hc | first [ congruence | right; auto ] ]).
  right. auto.
Qed.

(** Steps that drop no repository. *)
Lemma step_accounted_exact c st st' :
  step s user c st = Some st' ->
  accounted st' ≡ₚ accounted st
  \/ cancelled st = true \/ cancelled st' = true
  \/ failed (trace st') = true
  \/ resultsClosed st = true \/ errorsClosed st = true.
Proof.
  intros H. step_cases H; unfold accounted, pending;
    cbn [repositories jobs results coord workers collected held_of map app trace
         cancelled resultsClosed errorsClosed];
    rewrite ?held_app, ?map_app, ?sortResultItems_Permutation, ?failed_app;
    cbn [held flat_map held_of map app failed existsb is_failure];
    rewrite ?orb_true_r;
    first [ left; try held_step; solve_Permutation
          | right; left; reflexivity
          | right; right; left; reflexivity
          | right; right; right; left; reflexivity
          | right; right; right; right; left; reflexivity
          | right; right; right; right; right; reflexivity ].
Qed.

Lemma step_after_return c st st' :
  step s user c st = Some st' -> after_return (coord st') = None ->
  after_return (coord st) = None.
Proof.
  intros H. step_cases H; cbn [coord after_return]; try discriminate; auto.
Qed.

Lemma step_exact c st st' :
  step s user c st = Some st' -> closing_ok st -> exact_ok st -> exact_ok st'.
Proof.
  intros H Hcl Hold Hf Hc Hr.
  rewrite (step_repositories _ _ _ _ _ H).
  pose proof (step_after_return _ _ _ H Hr) as Hr0.
  assert (Hc0 : cancelled st = false).
  { destruct (cancelled st) eqn:E; [| reflexivity].
    rewrite (run_cancelled s user [c] st st') in Hc; [discriminate | | exact E].
    cbn. rewrite H. reflexivity. }
  assert (Hf0 : failed (trace st) = false).
  { destruct (step_trace _ _ _ _ _ H) as [t Ht]. rewrite Ht, failed_app in Hf.
    apply orb_false_elim in Hf as [Hf _]. exact Hf. }
  assert (Hopen : resultsClosed st = false /\ errorsClosed st = false).
  { unfold closing_ok in Hcl. destruct (coord st); try exact Hcl; discriminate. }
  destruct (step_accounted_exact _ _ _ H) as [Hp | [E | [E | [E | [E | E]]]]];
    try congruence.
  - rewrite (Permutation_length Hp). apply Hold; assumption.
  - destruct Hopen. congruence.
  - destruct Hopen. congruence.
Qed.

Lemma step_fetch_sound c st st' :
  step s user c st = Some st' ->
  Forall (fetch_sound s user) (trace st) -> Forall (fetch_sound s user) (trace st').
Proof.
  intros H. step_cases H; cbn [trace]; auto; intros Hold;
    apply Forall_app; (split; [exact Hold |]); repeat constructor;
    cbn; eauto.
Qed.

Lemma run_fetch_sound (repos : list Repository) (reqs : list string) sched st :
  run s user sched (pool_init repos reqs) = Some st ->
  Forall (fetch_sound s user) (trace st).
Proof.
  intros Hrun.
  eapply (run_preserves s user (fun st => Forall (fetch_sound s user) (trace st)));
    [| apply Inv_init | | exact Hrun].
  - intros c st1 st2 _ HP Hs. eapply step_fetch_sound; eassumption.
  - constructor.
Qed.

Lemma run_fetch_targets (repos : list Repository) (reqs : list string) sched st :
  run s user sched (pool_init repos reqs) = Some st ->
  fetch_targets (trace st) ⊆+ repos.
Proof.
  intros Hrun.
  assert (H1 : fetched_once_ok st).
  { eapply (run_preserves s user fetched_once_ok); [| apply Inv_init | | exact Hrun].
    - intros c st1 st2 _ HP Hs. unfold fetched_once_ok in *.
      rewrite (step_repositories _ _ _ _ _ Hs).
      etransitivity; [eapply step_fetched_once; exact Hs | exact HP].
    - unfold fetched_once_ok, unfetched, pending. cbn. reflexivity. }
  unfold fetched_once_ok in H1. rewrite (run_repositories _ _ _ _ _ Hrun) in H1.
  etransitivity; [| exact H1]. apply submseteq_inserts_r. reflexivity.
Qed.

Lemma fetch_targets_In (t : list Event) w r outcome :
  In (ReleaseFetch w r outcome) t -> r ∈ fetch_targets t.
Proof.
  intros Hin. apply list_elem_of_In. unfold fetch_targets. apply in_flat_map.
  eexists. split; [exact Hin |]. left. reflexivity.
Qed.

(** X14. The error of a scan tells its cause. When [ScanRepositories] returns
    an error that comes from the pool, its text is
    [could not scan repository for the account <user>: <cause>], where
    [<cause>] is the error with which [GetAllReleases] ended for one of the
    repositories of the listing. *)
Theorem scan_error_names_its_cause
    (repos : list Repository) (reqs : list string) (sched : list Choice) (st : State)
    (items : list ResultItem) (e : error) :
  run s user sched (pool_init repos reqs) = Some st ->
  returned st = Some (items, Some e) ->
  exists r cause,
    r ∈ repos
    /\ e = "could not scan repository for the account " ++ user ++ ": " ++ cause
    /\ exists fuel q, GetAllReleases fuel s user (Name r) = Some (([], Some cause), q).
Proof.
  intros Hrun Hret.
  pose proof (run_Inv _ _ _ _ _ Hrun (Inv_init s user repos reqs)) as HI.
  pose proof (inv_log _ _ _ HI) as Hlog.
  rewrite (returned_coord _ _ _ Hret) in Hlog. cbn in Hlog.
  destruct Hlog as (_ & w & cause & -> & _ & r & rels & Hin).
  exists r, cause. split; [| split; [reflexivity |]].
  - eapply elem_of_submseteq; [| eapply run_fetch_targets, Hrun].
    eapply fetch_targets_In, Hin.
  - pose proof (run_fetch_sound _ _ _ _ Hrun) as Hs.
    rewrite Forall_forall in Hs. specialize (Hs _ (proj2 (list_elem_of_In _ _) Hin)).
    cbn in Hs. destruct Hs as (fuel & q & Hf). exists fuel, q.
    unfold GetAllReleases in *.
    rewrite (GetAllReleases_loop_error _ _ _ _ _ _ _ _ _ _ Hf) in Hf. exact Hf.
Qed.

Lemma held_nonempty (ws : list Worker) :
  held ws <> [] -> exists w p, ws !! w = Some p /\ held_of p <> [].
Proof.
  induction ws as [| p ws IH]; cbn; [congruence |].
  destruct (held_of p) eqn:E.
  - cbn. intros H. destruct (IH H) as (w & q & Hw & Hq). exists (S w), q. auto.
  - intros _. exists 0%nat, p. split; [reflexivity | congruence].
Qed.

Lemma held_elem (ws : list Worker) (w : nat) (p : Worker) (r : Repository) :
  ws !! w = Some p -> r ∈ held_of p -> r ∈ held ws.
Proof.
  intros Hw Hr. rewrite <- (take_drop_middle ws w p Hw).
  unfold held. rewrite flat_map_app. cbn [flat_map].
  apply elem_of_app. right. apply elem_of_app. left. exact Hr.
Qed.

Lemma run_pool_facts (repos : list Repository) (reqs : list string) sched st :
  run s user sched (pool_init repos reqs) = Some st ->
  cancel_ok st /\ pool_size_ok st /\ jobs_ok st /\ done_ok st /\ exact_ok st.
Proof.
  intros Hrun.
  assert (HP : (closing_ok st /\ cancel_ok st /\ pool_size_ok st)
               /\ jobs_ok st /\ done_ok st /\ exact_ok st).
  { eapply (run_preserves s user
              (fun st => (closing_ok st /\ cancel_ok st /\ pool_size_ok st)
                         /\ jobs_ok st /\ done_ok st /\ exact_ok st));
      [| apply Inv_init | | exact Hrun].
    - intros c st1 st2 _ ((Hcl & Hca & Hps) & Hj & Hd & He) Hs.
      repeat split.
      + eapply step_closing; eassumption.
      + eapply step_cancel; eassumption.
      + eapply step_pool_size; eassumption.
      + eapply step_jobs_ok; eassumption.
      + eapply step_done_ok; eassumption.
      + eapply step_exact; eassumption.
    - repeat split.
      + unfold cancel_ok. cbn. intros [Hf | (w & Hw)]; [discriminate |].
        rewrite lookup_nil in Hw. discriminate.
      + unfold pool_size_ok, workersCount, jobsCount, maxWorkersCount. cbn.
        destruct (_ <? _); lia.
      + intros (w & Hw). cbn in Hw. rewrite lookup_nil in Hw. discriminate. }
  tauto.
Qed.

(** X15. The pool does not deadlock. In every state of a scan in which
    [ScanRepositories] has not returned, some goroutine can take a step,
    provided [GetAllReleases] ends (with a value or an error) for every
    repository of the listing: the coordinator is never left waiting for a
    result or an error that no worker will send. *)
Theorem pool_never_deadlocks
    (repos : list Repository) (reqs : list string) (sched : list Choice) (st : State) :
  run s user sched (pool_init repos reqs) = Some st ->
  returned st = None ->
  Forall (fun r => exists fuel, is_Some (GetAllReleases fuel s user (Name r))) repos ->
  exists c st', step s user c st = Some st'.
Proof.
  intros Hrun Hnot Hterm.
  pose proof (run_Inv _ _ _ _ _ Hrun (Inv_init s user repos reqs)) as HI.
  pose proof (run_closing _ _ _ _ _ _ Hrun) as Hcl.
  pose proof (run_troubled _ _ _ _ _ _ Hrun) as Htr.
  destruct (run_pool_facts _ _ _ _ Hrun) as (Hca & Hps & Hj & Hd & He).
  pose proof (run_repositories _ _ _ _ _ Hrun) as Hrepos. cbn in Hrepos.
  pose proof (inv_accounted _ _ _ HI) as Hsub.
  pose proof (submseteq_length _ _ Hsub) as Hacc.
  pose proof (inv_log _ _ _ HI) as Hlog.
  unfold returned in Hnot.
  destruct (coord st) as [i | rest | i items | | | |] eqn:Hc; try discriminate.
  - exists Coordinate. cbn [step]. unfold coordinate. rewrite Hc.
    destruct (_ <? _); eauto.
  - exists Coordinate. cbn [step]. unfold coordinate. rewrite Hc.
    destruct rest as [| r rest]; [eauto |].
    unfold accounted, pending in Hacc. rewrite Hc, !length_app in Hacc.
    cbn [length] in Hacc.
    destruct (Z.ltb_spec (Z.of_nat (length (jobs st))) (jobsCount st)); [eauto |].
    unfold jobsCount in *. lia.
  - cbn in Hlog. destruct Hlog as (Hitems & Hdr & Hi).
    destruct (Z.ltb_spec i (jobsCount st)) as [Hlt | Hge].
    2: { exists Coordinate. cbn [step]. unfold coordinate. rewrite Hc.
         destruct (Z.ltb_spec i (jobsCount st)); [lia | eauto]. }
    destruct (results st) as [| item rs] eqn:Hres.
    2: { exists Coordinate. cbn [step]. unfold coordinate. rewrite Hc, Hres.
         destruct (Z.ltb_spec i (jobsCount st)); [eauto | lia]. }
    destruct (failed (trace st)) eqn:Hf.
    { destruct (inv_blocked _ _ _ HI Hf) as [(w & e & Hw) | (? & ? & Hr)];
        [| rewrite Hc in Hr; discriminate].
      exists (Deliver w). cbn [step]. unfold deliver. rewrite Hc, Hw.
      destruct (Z.ltb_spec i (jobsCount st)); [eauto | lia]. }
    assert (Hnc : cancelled st = false).
    { destruct (cancelled st) eqn:E; [| reflexivity].
      destruct (Hca (or_introl E)) as [Hd' | [x Hx]];
        [contradiction | rewrite Hc in Hx; discriminate]. }
    assert (Hopen : resultsClosed st = false).
    { unfold closing_ok in Hcl. rewrite Hc in Hcl. apply Hcl. }
    specialize (He Hf Hnc ltac:(rewrite Hc; reflexivity)).
    unfold accounted, pending in He, Hsub. rewrite Hc, Hres in He, Hsub.
    cbn [collected map app] in He, Hsub.
    rewrite !length_app, length_map in He. cbn [length] in He.
    unfold jobsCount in Hlt.
    destruct (held (workers st)) as [| r0 hs] eqn:Hheld.
    + (* no worker holds a job: one is free to take a job from the queue *)
      destruct (jobs st) as [| r rest] eqn:Hjobs; [cbn [length] in He; lia |].
      unfold pool_size_ok in Hps. rewrite Hc in Hps.
      assert (HW : 1 <= workersCount st).
      { unfold workersCount, jobsCount, maxWorkersCount.
        destruct (_ <? _); lia. }
      destruct (workers st) as [| p ws] eqn:Hws; [cbn in Hps; lia |].
      exists (Work 0 0). cbn [step]. unfold work. rewrite Hws. cbn [lookup list_lookup].
      assert (Hp : p = WRange).
      { pose proof (flat_map_lookup_length held_of (p :: ws) 0 p eq_refl) as Hl.
        unfold held in Hheld. rewrite Hheld in Hl. cbn [length] in Hl.
        assert (Hnt : ~ is_troubled p).
        { intros Ht. rewrite (Htr 0%nat p) in Hf; [discriminate | | exact Ht].
          rewrite Hws. reflexivity. }
        destruct p; cbn [held_of length] in Hl; try lia; try reflexivity;
          try (exfalso; apply Hnt; exact I).
        exfalso. destruct Hd as [Hd | [Hd _]];
          [exists 0%nat; rewrite Hws; reflexivity | congruence | congruence]. }
      subst p. rewrite Hjobs. eauto.
    + (* a worker holds a job: it can go on *)
      destruct (held_nonempty (workers st)) as (w & p & Hw & Hp);
        [rewrite Hheld; discriminate |].
      destruct p; cbn [held_of] in Hp; try congruence.
      * exists (Work w 0). cbn [step]. unfold work. rewrite Hw, Hnc. eauto.
      * assert (Hin : repository ∈ repos).
        { rewrite <- Hrepos. eapply elem_of_submseteq; [| exact Hsub].
          apply elem_of_app. right. apply elem_of_app. left.
          rewrite <- Hheld. eapply held_elem; [exact Hw |]. cbn. left. }
        rewrite Forall_forall in Hterm. destruct (Hterm _ Hin) as (fuel & [x Hx]).
        exists (Work w fuel). cbn [step]. unfold work. rewrite Hw, Hx.
        destruct x as [[rels err] q]. eauto.
      * exists (Work w 0). cbn [step]. unfold work. rewrite Hw, Hopen, Hres.
        cbn [length]. unfold jobsCount.
        destruct (Z.ltb_spec (Z.of_nat 0) (Z.of_nat (length (repositories st))));
          [eauto | lia].
  - exists Coordinate. cbn [step]. unfold coordinate. rewrite Hc. eauto.
  - exists Coordinate. cbn [step]. unfold coordinate. rewrite Hc. eauto.
  - exists Coordinate. cbn [step]. unfold coordinate. rewrite Hc. eauto.
Qed.

Lemma list_sum_insert (f : Worker -> nat) (ws : list Worker) (w : nat) (p q : Worker) :
  ws !! w = Some p ->
  (list_sum (map f (<[w := q]> ws)) + f p = list_sum (map f ws) + f q)%nat.
Proof.
  intros Hw.
  rewrite (insert_take_drop ws w q) by (eapply lookup_lt_Some; exact Hw).
  rewrite <- (take_drop_middle ws w p Hw) at 3.
  rewrite !map_app, !list_sum_app. cbn [map].
  assert (Hs : forall a l, list_sum (a :: l) = (a + list_sum l)%nat) by reflexivity.
  rewrite !Hs. lia.
Qed.

Lemma step_steps_left c st st' :
  step s user c st = Some st' -> (steps_left st' < steps_left st)%nat.
Proof.
  intros H. step_cases H; unfold steps_left, coord_weight, workersCount, jobsCount in *;
    cbn [coord workers jobs results repositories] in *;
    rewrite ?map_app, ?list_sum_app, ?length_app;
    cbn [map list_sum fold_right length worker_weight];
    try (apply Z.ltb_lt in E0); try (apply Z.ltb_ge in E0);
    try match goal with
        | E : ?ws !! ?w = Some ?p |- context [<[?w := ?q]> ?ws] =>
            pose proof (list_sum_insert worker_weight ws w p q E) as HS;
            cbn [worker_weight] in HS
        end;
    lia.
Qed.

Lemma run_steps_left sched :
  forall st st', run s user sched st = Some st' ->
                 (length sched + steps_left st' <= steps_left st)%nat.
Proof.
  induction sched as [| c sched IH]; intros st st' H; cbn in H.
  - injection H as <-. cbn. lia.
  - destruct (step s user c st) as [st1 |] eqn:E; [| discriminate].
    pose proof (step_steps_left _ _ _ E). pose proof (IH _ _ H). cbn [length]. lia.
Qed.

(** X16. A scan is finite. A run of the goroutines of one call of
    [ScanRepositories] over N repositories has at most 8N + 7 steps, a call of
    [GetAllReleases] counting as one step: every step lowers [steps_left], so
    no schedule keeps the coordinator and the workers going for ever. *)
Theorem scan_runs_are_bounded
    (repos : list Repository) (reqs : list string) (sched : list Choice) (st : State) :
  run s user sched (pool_init repos reqs) = Some st ->
  (length sched + steps_left st <= 8 * length repos + 7)%nat.
Proof.
  intros Hrun. pose proof (run_steps_left _ _ _ Hrun) as H.
  assert (Hinit : (steps_left (pool_init repos reqs) <= 8 * length repos + 7)%nat).
  { unfold steps_left, coord_weight, workersCount, jobsCount, maxWorkersCount.
    cbn [pool_init coord workers jobs results repositories map list_sum fold_right length].
    destruct (Z.ltb_spec (Z.of_nat (length repos)) 100); lia. }
  lia.
Qed.

End PoolProgress.

(** ** The entry point *)

Section MainProperties.
Context {net : Net}.

Lemma render_length (items : list ResultItem) :
  length (flat_map render_item items)
  = (2 * length items + list_sum (map (fun item => length (Releases item)) items))%nat.
Proof.
  induction items as [| item items IH]; [reflexivity |].
  cbn [flat_map map length]. rewrite length_app, IH.
  unfold render_item. cbn [length]. rewrite length_app, length_map. cbn [length].
  assert (Hs : forall a l, list_sum (a :: l) = (a + list_sum l)%nat) by reflexivity.
  rewrite Hs. lia.
Qed.

(** *** Panics *)







(** *** The runs of a process *)


Lemma main_step_ok account st0 c p p' :
  main_step account c p = Some p' -> main_ok account st0 p -> main_ok account st0 p'.
Proof.
  intros Hstep [(sched & Hreach) Hat]. unfold main_step in Hstep.
  destruct (at_main p) as [| lines code | code] eqn:Ha; [| | discriminate].
  - destruct (step GetDefaultScanner account c (pool p)) as [st |] eqn:Hs; [| discriminate].
    injection Hstep as <-. destruct Hat as (Hret & Hpan & Hout).
    assert (Hreach' : run GetDefaultScanner account (sched ++ [c]) st0 = Some st)
      by (rewrite run_app, Hreach; cbn; rewrite Hs; reflexivity).
    unfold settle. destruct (panicked st) eqn:Hp;
      (split; [exists (sched ++ [c])%list; exact Hreach' |]); cbn [pool at_main stdout].
    + rewrite Hout. destruct (returned st) as [[items err] |]; [| auto].
      left. repeat split; try assumption. exists (printed items err). reflexivity.
    + rewrite Hout. unfold after_scan.
      destruct (returned st) as [[items [e |]] |] eqn:Hr; cbn [at_main pool stdout].
      * split; [exact Hp |]. exists items, (Some e). auto.
      * split; [exact Hp |]. exists items, None. auto.
      * auto.
  - destruct Hat as (Hpan & items & err & Hret & Hout & Hcode).
    destruct c as [| w | w fuel]; [| discriminate |].
    + destruct lines as [| line rest]; injection Hstep as <-;
        (split; [exists sched; exact Hreach |]); cbn [pool at_main stdout].
      * rewrite Hret. right. rewrite app_nil_r in Hout. auto.
      * split; [exact Hpan |]. exists items, err. rewrite <- app_assoc. auto.
    + destruct (work GetDefaultScanner account w fuel (pool p)) as [st |] eqn:Hw;
        [| discriminate].
      injection Hstep as <-.
      assert (Hone : run GetDefaultScanner account [Work w fuel] (pool p) = Some st)
        by (cbn; rewrite Hw; reflexivity).
      assert (Hreach' : run GetDefaultScanner account (sched ++ [Work w fuel]) st0 = Some st)
        by (rewrite run_app, Hreach; exact Hone).
      pose proof (run_returned _ _ _ _ _ _ Hone Hret) as Hret'.
      unfold settle. destruct (panicked st) eqn:Hp;
        (split; [exists (sched ++ [Work w fuel])%list; exact Hreach' |]);
        cbn [pool at_main stdout].
      * rewrite Hret'. left. repeat split; try assumption. exists lines. exact Hout.
      * split; [exact Hp |]. exists items, err. auto.
Qed.

Lemma main_run_ok account st0 sched :
  forall p p', main_run account sched p = Some p' -> main_ok account st0 p ->
               main_ok account st0 p'.
Proof.
  induction sched as [| c sched IH]; intros p p' H Hok; cbn in H.
  - injection H as <-. exact Hok.
  - destruct (main_step account c p) as [p1 |] eqn:E; [| discriminate].
    apply (IH _ _ H). eapply main_step_ok; eassumption.
Qed.

(** The start of a process whose listing has succeeded. *)
Lemma main_ok_init account (repos : list Repository) (reqs : list string) :
  main_ok account (pool_init repos reqs)
    (mkProcess (pool_init repos reqs) (after_scan (pool_init repos reqs)) []).
Proof. split; [exists []; reflexivity | cbn; auto]. Qed.

(** Without workers, [main] prints what it has to print and exits. *)
Lemma main_run_no_workers account sched :
  forall p p' lines code out c,
    main_run account sched p = Some p' -> exit_of p' = Some (out, c) ->
    workers (pool p) = [] -> at_main p = MPrinting lines code ->
    out = (stdout p ++ lines)%list /\ c = code.
Proof.
  induction sched as [| c0 sched IH]; intros p p' lines code out c Hrun Hex Hw Ha;
    cbn in Hrun.
  - injection Hrun as <-. unfold exit_of in Hex. rewrite Ha in Hex. discriminate.
  - unfold main_step in Hrun. rewrite Ha in Hrun. destruct c0 as [| w | w fuel].
    + destruct lines as [| line rest].
      * destruct sched as [| c2 sched]; cbn in Hrun; [| discriminate].
        injection Hrun as <-. cbn in Hex. injection Hex as <- <-.
        rewrite app_nil_r. auto.
      * eapply IH in Hrun; [| exact Hex | exact Hw | reflexivity].
        cbn [stdout] in Hrun. rewrite <- app_assoc in Hrun. exact Hrun.
    + discriminate.
    + unfold work in Hrun. rewrite Hw in Hrun. discriminate.
Qed.



(** X12. Exit status 0 means a complete, sorted listing. When [main] ends with
    status 0 for an account, the listing of the account's repositories has
    succeeded and the output is, for one item per listed repository and in
    ascending order of the full names, the full name, the names of the
    releases fetched for that repository, and an empty line: two lines for
    every repository and one for every release. *)
Theorem main_prints_complete_sorted_listing
    (prog account : string) (more : list string) (fuel : nat) (sched : list Choice)
    (out : list string) :
  main (prog :: account :: more) fuel sched = Some (out, 0) ->
  exists items repos reqs,
    GetAllRepositories fuel GetDefaultScanner account = Some ((repos, None), reqs)
    /\ out = flat_map render_item items
    /\ StronglySorted by_FullName items
    /\ map Repo items ≡ₚ repos
    /\ Forall (fun item => fetched GetDefaultScanner account (Repo item) (Releases item))
         items
    /\ length out
       = (2 * length repos
          + list_sum (map (fun item => length (Releases item)) items))%nat.
Proof.
  unfold main, ScanRepositories_entry. intros H.
  destruct (GetAllRepositories fuel GetDefaultScanner account)
    as [[[repos [e |]] reqs] |] eqn:Hlist; try discriminate.
  - destruct (main_run account sched _) as [p |] eqn:Hrun; [| discriminate].
    destruct (main_run_no_workers _ _ _ _ _ _ _ _ Hrun H eq_refl eq_refl) as [_ Hc].
    discriminate Hc.
  - destruct (main_run account sched _) as [p |] eqn:Hrun; [| discriminate].
    destruct (main_run_ok _ _ _ _ _ Hrun (main_ok_init account repos reqs))
      as [(sched' & Hreach) Hat].
    unfold exit_of in H. destruct (at_main p) as [| | code]; try discriminate.
    injection H as <- ->.
    destruct (returned (pool p)) as [[items err] |] eqn:Hret;
      [| destruct Hat as (Hc & _); discriminate Hc].
    destruct Hat as [(Hc & _) | (Hc & Hout)]; [discriminate Hc |].
    destruct err as [e |]; [discriminate Hc |]. cbn [printed] in Hout.
    pose proof (run_Inv _ _ _ _ _ Hreach (Inv_init _ _ repos reqs)) as HI.
    destruct (success_permutation _ _ _ _ HI Hret) as (Hlen & Hperm & Hprod & Hsort).
    rewrite (run_repositories _ _ _ _ _ Hreach) in Hlen, Hperm.
    cbn [repositories pool_init] in Hlen, Hperm.
    exists items, repos, reqs.
    split; [reflexivity |]. split; [exact Hout |].
    split; [rewrite Hsort; apply sortResultItems_sorted |].
    split; [exact Hperm |]. split; [exact Hprod |].
    rewrite Hout, render_length, Hlen. reflexivity.
Qed.


End MainProperties.

(** ** The further properties at work *)

Module MoreExamples.
Import Stub Scenario Scenario2.

Lemma pagination_stops_at_failing_page_witness :
  GetAllRepositories (net := Flaky.forge) 3 Flaky.one_per_page "u"
  = Some (([], Some "could not get repositories for the account u: 502 Bad Gateway"),
          ["http://forge/users/u/repos?per_page=1&page=1";
           "http://forge/users/u/repos?per_page=1&page=2"])
  /\ GetAllReleases (net := Flaky.forge) 3 Flaky.one_per_page "u" "r"
     = Some (([], Some "could not get releases for the repository r: 502 Bad Gateway"),
             ["http://forge/repos/u/r/releases?per_page=1&page=1";
              "http://forge/repos/u/r/releases?per_page=1&page=2"]).
Proof.
  pose proof (pagination_stops_at_failing_page (net := Flaky.forge)
                Flaky.one_per_page "u" "r" 3) as [HR HL].
  split.
  - apply (HR [[mkRepository "u/r" "r"]] []
             "could not get repositories for the account u: 502 Bad Gateway"
             ["http://forge/users/u/repos?per_page=1&page=2"]).
    + discriminate.
    + repeat constructor. cbn. lia.
    + intros [| i] chunk Hc; [| destruct i; discriminate Hc].
      injection Hc as <-. eexists. split; [reflexivity | split; reflexivity].
    + vm_compute. reflexivity.
    + cbn. unfold max_int. lia.
    + cbn. lia.
  - apply (HL [[mkRelease "v2"]] []
             "could not get releases for the repository r: 502 Bad Gateway"
             ["http://forge/repos/u/r/releases?per_page=1&page=2"]).
    + discriminate.
    + discriminate.
    + repeat constructor. cbn. lia.
    + intros [| i] chunk Hc; [| destruct i; discriminate Hc].
      injection Hc as <-. eexists. split; [reflexivity | split; reflexivity].
    + vm_compute. reflexivity.
    + cbn. unfold max_int. lia.
    + cbn. lia.
Defined.

Lemma pagination_has_no_bound_of_its_own_witness :
  GetAllRepositories (net := Endless.forge) 50 Endless.one_per_page "loop" = None
  /\ GetAllReleases (net := Endless.forge) 50 Endless.one_per_page "loop" "r" = None.
Proof.
  pose proof (pagination_has_no_bound_of_its_own (net := Endless.forge)
                Endless.one_per_page "loop" "r" 50) as [HR HL].
  split.
  - apply HR.
    + discriminate.
    + intros page Hp. exists [mkRepository "loop/r" "r"]. split.
      * eexists. split; [reflexivity | split; reflexivity].
      * cbn. lia.
    + unfold max_int. lia.
  - apply HL.
    + discriminate.
    + discriminate.
    + intros page Hp. exists [mkRelease "v"]. split.
      * eexists. split; [reflexivity | split; reflexivity].
      * cbn. lia.
    + unfold max_int. lia.
Defined.

Lemma pagination_calls_in_page_order_witness :
  exists k, (k <= 2)%nat
    /\ ["http://forge/users/test/repos?per_page=3&page=1";
        "http://forge/users/test/repos?per_page=3&page=2"]
       = map (repositories_url paged "test") (page_numbers 1 k)
    /\ ("test" <> "" -> (1 <= k)%nat)
    /\ ("test" = "" -> k = 0%nat).
Proof.
  apply (proj1 (pagination_calls_in_page_order (net := forge) paged "test" "test" 2)
           (concat test_repositories, None)).
  - unfold max_int. lia.
  - vm_compute. reflexivity.
Defined.

Lemma worker_cap_witness :
  Z.of_nat (length (workers two_failures)) <= Z.min 3 100.
Proof.
  apply (proj1 (worker_cap (net := forge) plain "evil"
                  [repo "evil" "a"; repo "evil" "b"; repo "evil" "c"]
                  ["http://forge/users/evil/repos?per_page=100&page=1"]
                  two_failures_schedule two_failures eq_refl)).
Defined.

Lemma buffered_sends_never_block_witness :
  Z.of_nat (length (results holding_result)) < jobsCount holding_result
  /\ exists st',
       step (net := forge) plain "evil" (Work 0 0) holding_result = Some st'
       /\ (resultsClosed holding_result = false ->
           results st'
           = (results holding_result
                ++ [mkResultItem (repo "evil" "a") [mkRelease "v1"]])%list
           /\ workers st' !! 0%nat = Some WRange).
Proof.
  apply (proj2 (buffered_sends_never_block (net := forge) plain "evil"
                  [repo "evil" "a"; repo "evil" "b"; repo "evil" "c"]
                  ["http://forge/users/evil/repos?per_page=100&page=1"]
                  (setup3 ++ [Work 0 1; Work 0 1; Work 0 1])%list
                  holding_result eq_refl)).
  reflexivity.
Defined.

Lemma empty_listing_returns_empty_witness :
  ScanRepositories (net := Flaky.forge) Flaky.one_per_page "nobody" 2
    (replicate 6 Coordinate)
  = Some ([], None).
Proof.
  apply (proj1 (empty_listing_returns_empty (net := Flaky.forge) Flaky.one_per_page
                  "nobody" 2 ["http://forge/users/nobody/repos?per_page=1&page=1"]
                  eq_refl)).
Defined.

Lemma cancellation_is_one_shot_and_late_witness :
  cancelled evil_returned = true
  /\ (drained_errors (trace evil_returned) <> []
      \/ is_Some (after_return (coord evil_returned))).
Proof.
  split; [reflexivity |].
  apply (proj1 (cancellation_is_one_shot_and_late (net := forge) plain "evil"
                  [repo "evil" "a"; repo "evil" "b"; repo "evil" "c"]
                  ["http://forge/users/evil/repos?per_page=100&page=1"]
                  partial_schedule evil_returned eq_refl)).
  reflexivity.
Defined.

Lemma repositories_fetched_at_most_once_witness :
  fetch_targets (trace acme_final) = [repo "acme" "b"; repo "acme" "a"]
  /\ fetch_targets (trace acme_final) ≡ₚ [repo "acme" "b"; repo "acme" "a"].
Proof.
  split; [reflexivity |].
  apply (proj2 (repositories_fetched_at_most_once (net := forge) plain "acme"
                  [repo "acme" "b"; repo "acme" "a"]
                  ["http://forge/users/acme/repos?per_page=100&page=1"]
                  acme_schedule acme_final eq_refl)
           [mkResultItem (repo "acme" "a") [mkRelease "v1"];
            mkResultItem (repo "acme" "b") []]).
  reflexivity.
Defined.

Lemma successful_scan_leaves_workers_idle_witness :
  workers acme_final = [WRange; WRange]
  /\ jobs acme_final = [] /\ results acme_final = []
  /\ failed (trace acme_final) = false
  /\ forall w p, workers acme_final !! w = Some p -> p = WRange \/ p = WDone.
Proof.
  split; [reflexivity |].
  apply (successful_scan_leaves_workers_idle (net := forge) plain "acme"
           [repo "acme" "b"; repo "acme" "a"]
           ["http://forge/users/acme/repos?per_page=100&page=1"]
           acme_schedule acme_final
           [mkResultItem (repo "acme" "a") [mkRelease "v1"];
            mkResultItem (repo "acme" "b") []]
           eq_refl eq_refl [] acme_final eq_refl).
Defined.

Lemma straggler_panics_after_error_return_witness :
  exists st',
    run (net := forge) plain "evil"
      [Deliver 1; Coordinate; Coordinate; Coordinate; Work 2 0] two_failures = Some st'
    /\ returned st'
       = Some ([], Some (AccountScanFailed "evil"
                           "could not get releases for the repository b: forbidden"))
    /\ workers st' !! 2%nat = Some WPanic.
Proof.
  apply (straggler_panics_after_error_return (net := forge) plain "evil"
           [repo "evil" "a"; repo "evil" "b"; repo "evil" "c"]
           ["http://forge/users/evil/repos?per_page=100&page=1"]
           two_failures_schedule two_failures 0 [] 1 2
           "could not get releases for the repository b: forbidden"
           (WSendErr "could not get releases for the repository c: 500 Internal Server Error")
           eq_refl eq_refl eq_refl eq_refl I).
  lia.
Defined.

Lemma healthy_forge_scan_succeeds_witness :
  exists sched items,
    ScanRepositories (net := forge) plain "acme" 5 sched = Some (items, None).
Proof.
  apply (healthy_forge_scan_succeeds (net := forge) plain "acme" 5
           [repo "acme" "b"; repo "acme" "a"]
           ["http://forge/users/acme/repos?per_page=100&page=1"]).
  - vm_compute. reflexivity.
  - repeat constructor.
    + exists []. exists 1%nat. eexists. vm_compute. reflexivity.
    + exists [mkRelease "v1"]. exists 1%nat. eexists. vm_compute. reflexivity.
Defined.

Lemma main_prints_complete_sorted_listing_witness :
  main (net := Flaky.forge) ["scan"; "octo"] 5
    (Flaky.octo_schedule ++ replicate 6 Coordinate)
  = Some (["octo/a"; "v1"; ""; "octo/b"; ""], 0)
  /\ exists items repos reqs,
       GetAllRepositories (net := Flaky.forge) 5 GetDefaultScanner "octo"
       = Some ((repos, None), reqs)
       /\ ["octo/a"; "v1"; ""; "octo/b"; ""] = flat_map render_item items
       /\ StronglySorted by_FullName items
       /\ map Repo items ≡ₚ repos
       /\ Forall (fun item => fetched (net := Flaky.forge) GetDefaultScanner "octo"
                                (Repo item) (Releases item)) items
       /\ length ["octo/a"; "v1"; ""; "octo/b"; ""]
          = (2 * length repos
             + list_sum (map (fun item => length (Releases item)) items))%nat.
Proof.
  split; [vm_compute; reflexivity |].
  apply (main_prints_complete_sorted_listing (net := Flaky.forge) "scan" "octo" [] 5
           (Flaky.octo_schedule ++ replicate 6 Coordinate)).
  vm_compute. reflexivity.
Defined.


Lemma scan_error_names_its_cause_witness :
  exists r cause,
    r ∈ [repo "evil" "a"; repo "evil" "b"; repo "evil" "c"]
    /\ "could not scan repository for the account evil: could not get releases for the repository b: forbidden"
       = "could not scan repository for the account " ++ "evil" ++ ": " ++ cause
    /\ exists fuel q,
         GetAllReleases (net := forge) fuel plain "evil" (Name r)
         = Some (([], Some cause), q).
Proof.
  apply (scan_error_names_its_cause (net := forge) plain "evil"
           [repo "evil" "a"; repo "evil" "b"; repo "evil" "c"]
           ["http://forge/users/evil/repos?per_page=100&page=1"]
           partial_schedule evil_returned
           [mkResultItem (repo "evil" "a") [mkRelease "v1"]]
           "could not scan repository for the account evil: could not get releases for the repository b: forbidden"
           eq_refl eq_refl).
Defined.

Lemma pool_never_deadlocks_witness :
  returned two_failures = None
  /\ exists c st', step (net := forge) plain "evil" c two_failures = Some st'.
Proof.
  split; [reflexivity |].
  apply (pool_never_deadlocks (net := forge) plain "evil"
           [repo "evil" "a"; repo "evil" "b"; repo "evil" "c"]
           ["http://forge/users/evil/repos?per_page=100&page=1"]
           two_failures_schedule two_failures eq_refl eq_refl).
  repeat constructor; exists 1%nat; eexists; vm_compute; reflexivity.
Defined.

Lemma scan_runs_are_bounded_witness :
  (length two_failures_schedule + steps_left two_failures <= 8 * 3 + 7)%nat.
Proof.
  apply (scan_runs_are_bounded (net := forge) plain "evil"
           [repo "evil" "a"; repo "evil" "b"; repo "evil" "c"]
           ["http://forge/users/evil/repos?per_page=100&page=1"]
           two_failures_schedule two_failures eq_refl).
Defined.

End MoreExamples.
